(** * DJMoody: audio analysis and mixing core

    A shallow embedding of the numeric core of the DJMoody front end
    ([src/app/utils/audioProcessor.ts], [src/app/utils/energyDetector.ts]
    and their sibling revisions), together with the properties its
    specification states about it.

    Conventions of the embedding.
    - A JavaScript [number] that holds a finite value is a rational [Q].
      Where the source can produce a value that is not a finite number (a
      division by zero, a read of an absent array slot), the embedding uses
      [option Q] and [None] stands for that value.
    - Where the outcome of a computation depends on the binary rounding of
      JavaScript numbers, the operations are those of [F64]: the exact
      result rounded to the nearest binary64 value, ties to even.  This is
      the case of every [Math.floor] of a product, which yields an index or
      a size (window sizes, the minimum beat interval, the start sample of
      a mix point), of the times [beat / sampleRate] these products are
      taken from, and of the scores, the total and the probabilities of the
      five-category classifier, whose total can cancel.  The remaining
      arithmetic on sample values, energies and weights is exact: there
      rounding moves a result by a few units in the last place and no
      decision or index depends on it.
    - [Math.sqrt] is a parameter of the developments that need it; only
      [0 <= sqrt x] is assumed about it.
    - Integers that the source uses as indices, sizes and header fields are
      [Z] or [nat]; the fixed-width stores of [DataView] wrap as in the
      source. *)

From Stdlib Require Import ZArith QArith Qround Qabs Qminmax Qpower.
From Stdlib Require Import List Lia Lqa Bool String.
From Stdlib Require Import Sorting.Sorted.
From Stdlib Require PrimFloat FloatOps SpecFloat Uint63.
Import ListNotations.
Local Open Scope Q_scope.

(** ** JavaScript numeric helpers *)

Module JS.

(** [Math.min], [Math.max], [Math.abs] on finite numbers. *)
Definition min (a b : Q) : Q := Qmin a b.
Definition max (a b : Q) : Q := Qmax a b.
Definition abs (a : Q) : Q := Qabs a.

(** [Math.floor]. *)
Definition floor (a : Q) : Z := Qfloor a.

(** [Math.round]: nearest integer, halves go up. *)
Definition round (a : Q) : Z := Qfloor (a + (1 # 2)).

(** Truncation towards zero, the first step of [ToInt16] and friends. *)
Definition trunc (a : Q) : Z := if Qle_bool 0 a then Qfloor a else Qceiling a.

(** [a / b] where the quotient of two finite numbers is finite: a zero
    divisor gives [NaN] or an infinity, rendered [None]. *)
Definition div (a b : Q) : option Q :=
  if Qeq_bool b 0 then None else Some (a / b).

(** [a > b] and [a < b] as the source writes them. *)
Definition gt (a b : Q) : bool := negb (Qle_bool a b).
Definition lt (a b : Q) : bool := negb (Qle_bool b a).
Definition ge (a b : Q) : bool := Qle_bool b a.
Definition le (a b : Q) : bool := Qle_bool a b.

End JS.

(** ** Binary64 arithmetic

    The value of a JavaScript operation on finite numbers is the exact
    result rounded to the nearest binary64 value, ties to the even
    significand.  [round] is that rounding on rationals, with the gradual
    underflow of the format (no quantum below [2^-1074]); results beyond the
    largest finite value, about [1.8e308], which the code under study does
    not come near, are outside of the model. *)

Module F64.

(** [2^e] for an integer [e] of either sign. *)
Definition pow2 (e : Z) : Q := Qpower 2 e.

(** The exponent of a positive rational: [2^ilog2 q <= q < 2^(ilog2 q + 1)]. *)
Definition ilog2 (q : Q) : Z :=
  let l := (Z.log2 (Qnum q) - Z.log2 (Zpos (Qden q)))%Z in
  if Qle_bool (pow2 l) q then l else (l - 1)%Z.

(** Nearest integer, halves to the even one. *)
Definition rne (x : Q) : Z :=
  let f := Qfloor x in
  match Qcompare (x - inject_Z f) (1 # 2) with
  | Lt => f
  | Gt => (f + 1)%Z
  | Eq => if Z.even f then f else (f + 1)%Z
  end.

(** The exponent of the unit in the last place of a 53-bit significand. *)
Definition ulpExp (q : Q) : Z := Z.max (-1074) (ilog2 (Qabs q) - 52).

Definition round (q : Q) : Q :=
  let e := ulpExp q in inject_Z (rne (q / pow2 e)) * pow2 e.

(** [a + b], [a - b], [a * b] and [a / b] (for a divisor that is not zero)
    on numbers. *)
Definition add (a b : Q) : Q := round (a + b).
Definition sub (a b : Q) : Q := round (a - b).
Definition mul (a b : Q) : Q := round (a * b).
Definition div (a b : Q) : Q := round (a / b).

End F64.

Arguments F64.round : simpl never.
Arguments F64.pow2 : simpl never.

(** ** Shared data model *)

(** [AudioBuffer] of the Web Audio API: the per-channel sample arrays, the
    sample rate and the [length] property (samples per channel). *)
Record AudioBuffer := mkAudioBuffer {
  channelData : list (list Q);
  sampleRate : Z;
  length : nat
}.

Definition numberOfChannels (b : AudioBuffer) : nat :=
  List.length (channelData b).

(** [duration] is [length / sampleRate] seconds. *)
Definition duration (b : AudioBuffer) : Q :=
  inject_Z (Z.of_nat (length b)) / inject_Z (sampleRate b).

(** The invariant the platform maintains: every channel holds [length]
    samples. *)
Definition wf_buffer (b : AudioBuffer) : Prop :=
  Forall (fun ch => List.length ch = length b) (channelData b).

(** Result of the energy classifier. [probabilities] keeps the insertion
    order of the JavaScript object; [None] is a value that is not a finite
    number. *)
Record EnergyAnalysis := mkEnergyAnalysis {
  energy_level : string;
  confidence : Q;
  class_id : nat;
  probabilities : list (string * option Q)
}.

(** Outcome of a call that may throw. *)
Inductive outcome (A : Type) : Type :=
| Returns (a : A)
| Throws (msg : string).
Arguments Returns {A} a.
Arguments Throws {A} msg.

(** ** Five-category rule-based classifier ([energyDetector.ts]) *)

Module EnergyDetector.

Definition energyLevels : list string :=
  ["Chill Vibe"; "Lounge"; "Groove"; "Party"; "Club Rager"]%string.

Definition levelName (i : nat) : string := nth i energyLevels ""%string.

(** The slots of the feature vector that [predictEnergyLevel] destructures,
    as binary64 numbers (a rational that is one already is read as it is).
    The vector is the one of 25 slots that [extractFeatures] returns: the
    properties below are stated for vectors of that length, the source
    reading [undefined] from a slot that is absent. *)
Definition feat (features : list Q) (i : nat) : Q :=
  F64.round (nth i features 0).

Local Notation "a +. b" := (F64.add a b) (at level 50, left associativity).
Local Notation "a -. b" := (F64.sub a b) (at level 50, left associativity).
Local Notation "a *. b" := (F64.mul a b) (at level 40, left associativity).
Local Notation "a /. b" := (F64.div a b) (at level 40, left associativity).

(** [scores] after the five blocks of accumulation, in key order 0..4.
    Every operation is the binary64 one, in the order of the source:
    [scores[k] += x * w] adds the rounded product to the rounded sum so
    far. *)
Definition scores (features : list Q) : list Q :=
  let rms := feat features 0 in
  let spectralCentroid := feat features 1 in
  let zcr := feat features 2 in
  let tempo := feat features 5 in
  let peakAmplitude := feat features 6 in
  let beatStrength := feat features 9 in
  [ 0 +. (1 -. JS.min (tempo /. 180) 1) *. F64.round (3 # 10)
      +. (1 -. JS.min (rms /. F64.round (1 # 2)) 1) *. F64.round (3 # 10)
      +. (1 -. JS.min (spectralCentroid /. 4000) 1) *. F64.round (4 # 10);
    0 +. (1 -. JS.abs (tempo -. 90) /. 90) *. F64.round (4 # 10)
      +. (1 -. JS.abs (rms -. F64.round (3 # 10)) /. F64.round (3 # 10))
         *. F64.round (3 # 10)
      +. (1 -. JS.min (zcr /. F64.round (1 # 10)) 1) *. F64.round (3 # 10);
    0 +. (1 -. JS.abs (tempo -. 120) /. 120) *. F64.round (4 # 10)
      +. (1 -. JS.abs (rms -. F64.round (4 # 10)) /. F64.round (4 # 10))
         *. F64.round (3 # 10)
      +. JS.min (beatStrength /. F64.round (1 # 2)) 1 *. F64.round (3 # 10);
    0 +. JS.min (tempo /. 180) 1 *. F64.round (4 # 10)
      +. JS.min (rms /. F64.round (6 # 10)) 1 *. F64.round (3 # 10)
      +. JS.min (spectralCentroid /. 4000) 1 *. F64.round (3 # 10);
    0 +. JS.min (tempo /. 180) 1 *. F64.round (5 # 10)
      +. JS.min (rms /. F64.round (7 # 10)) 1 *. F64.round (3 # 10)
      +. JS.min (peakAmplitude /. F64.round (8 # 10)) 1 *. F64.round (2 # 10) ].

(** The [for (let i = 1; i < 5; i++)] scan: the state is
    [(bestClass, bestScore)]. *)
Definition bestStep (sc : list Q) (st : nat * Q) (i : nat) : nat * Q :=
  if JS.gt (nth i sc 0) (snd st) then (i, nth i sc 0) else st.

Definition findBest (sc : list Q) : nat * Q :=
  fold_left (bestStep sc) [1; 2; 3; 4]%nat (0%nat, nth 0 sc 0).

(** [Object.values(scores).reduce((a, b) => a + b, 0)]. *)
Definition totalScore (sc : list Q) : Q :=
  fold_left (fun a b => a +. b) sc 0.

(** [score / totalScore]: a total of zero gives [NaN] or an infinity. *)
Definition quotient (score total : Q) : option Q :=
  if Qeq_bool total 0 then None else Some (score /. total).

(** The [forEach] that fills [probabilities]. *)
Definition normalize (sc : list Q) : list (string * option Q) :=
  map (fun p => (levelName (fst p), quotient (snd p) (totalScore sc)))
      (combine (seq 0 5) sc).

Definition predictEnergyLevel (features : list Q) : EnergyAnalysis :=
  let sc := scores features in
  let best := findBest sc in
  {| energy_level := levelName (fst best);
     confidence := snd best;
     class_id := fst best;
     probabilities := normalize sc |}.

(** [analyzeEnergy]: [extractFeatures] starts with
    [audioBuffer.getChannelData(0)], which throws on a buffer without
    channels; nothing in this revision catches it.  The spectral features
    come from the platform's analyser and are a parameter here. *)
Definition analyzeEnergy (extract : AudioBuffer -> list Q) (b : AudioBuffer)
  : outcome EnergyAnalysis :=
  match channelData b with
  | [] => Throws "IndexSizeError"
  | _ :: _ => Returns (predictEnergyLevel (extract b))
  end.

End EnergyDetector.

(** Reading an analysis. *)

(** Sum of the probabilities, when all of them are finite numbers. *)
Fixpoint probSum (ps : list (string * option Q)) : option Q :=
  match ps with
  | [] => Some 0
  | (_, Some p) :: tl =>
      match probSum tl with Some s => Some (p + s) | None => None end
  | (_, None) :: _ => None
  end.

(** Largest probability, when all of them are finite numbers. *)
Fixpoint probMax (ps : list (string * option Q)) : option Q :=
  match ps with
  | [] => None
  | (_, Some p) :: tl =>
      match tl with
      | [] => Some p
      | _ => match probMax tl with Some m => Some (Qmax p m) | None => None end
      end
  | (_, None) :: _ => None
  end.

(** Probabilities sum to one within [tol]. *)
Definition sumsToOne (tol : Q) (ea : EnergyAnalysis) : Prop :=
  exists s, probSum (probabilities ea) = Some s /\ Qabs (s - 1) <= tol.

(** The confidence is the largest probability. *)
Definition confidenceIsMaxProb (ea : EnergyAnalysis) : Prop :=
  exists m, probMax (probabilities ea) = Some m /\ confidence ea == m.

(** ** Three-category classifier with input validation
    (the guarded revision of [energyDetector.ts]) *)

Module EnergyDetectorGuarded.

Definition energyLevels : list string := ["Chill"; "Groove"; "Club"]%string.

(** [array.indexOf(x)] on numbers: first position holding [x], else -1
    (rendered as the length, which no caller reaches here). *)
Fixpoint indexOf (x : Q) (l : list Q) : nat :=
  match l with
  | [] => 0%nat
  | y :: tl => if Qeq_bool y x then 0%nat else S (indexOf x tl)
  end.

(** [Math.max(...l)] for a non-empty [l]. *)
Definition maxOf (l : list Q) : Q :=
  match l with
  | [] => 0
  | y :: tl => fold_left JS.max tl y
  end.

(** One [if / else if / else] block of the scoring: adds [w] to the score
    selected by the two thresholds. *)
Definition bump (x lo hi w : Q) (s : Q * Q * Q) : Q * Q * Q :=
  let '(chill, groove, club) := s in
  if JS.lt x lo then (chill + w, groove, club)
  else if JS.lt x hi then (chill, groove + w, club)
  else (chill, groove, club + w).

(** [totalScore] is [0.4 + 0.3 + 0.2 + 0.1] whatever the branches taken, so
    the three quotients are finite numbers. *)
Definition classifyWithTrainedModel (rms tempo peakAmp brightness : Q)
  : EnergyAnalysis :=
  let normRms := JS.min 1 (rms * 3) in
  let normTempo := JS.max 0 (JS.min 1 ((tempo - 60) / 120)) in
  let normPeak := JS.min 1 (peakAmp * (3 # 2)) in
  let normBright := JS.max 0 (JS.min 1 ((brightness - 1000) / 6000)) in
  let s0 := (0, 0, 0) in
  let s1 := bump normRms (3 # 10) (6 # 10) (4 # 10) s0 in
  let s2 := bump normTempo (3 # 10) (7 # 10) (3 # 10) s1 in
  let s3 := bump normPeak (4 # 10) (7 # 10) (2 # 10) s2 in
  let '(chillScore, grooveScore, clubScore) :=
    bump normBright (3 # 10) (7 # 10) (1 # 10) s3 in
  let totalScore := chillScore + grooveScore + clubScore in
  let probs :=
    [chillScore / totalScore; grooveScore / totalScore; clubScore / totalScore] in
  let bestIdx := indexOf (maxOf probs) probs in
  {| energy_level := nth bestIdx energyLevels ""%string;
     confidence := nth bestIdx probs 0;
     class_id := bestIdx;
     probabilities := combine energyLevels (map Some probs) |}.

(** The sampling loop: at most [n] further iterations ([n] is
    [sampleSize - sampleCount]); the state is
    [(sumSquares, peakAmp, sampleCount)]. *)
Fixpoint sampleLoop (data : list Q) (step : nat) (n : nat) (i : nat)
  (st : Q * Q * nat) : Q * Q * nat :=
  match n with
  | O => st
  | S n' =>
      if (i <? List.length data)%nat then
        let '(sumSquares, peakAmp, sampleCount) := st in
        let sample := nth i data 0 in
        let absVal := JS.abs sample in
        sampleLoop data step n' (i + step)%nat
          (sumSquares + sample * sample,
           (if JS.gt absVal peakAmp then absVal else peakAmp),
           S sampleCount)
      else st
  end.

(** The body of the [try] block. *)
Definition analyzeBody (sqrt : Q -> Q) (b : AudioBuffer)
  : outcome EnergyAnalysis :=
  if (length b =? 0)%nat then Throws "Invalid audio buffer provided"
  else if (numberOfChannels b =? 0)%nat then Throws "Audio buffer has no channels"
  else
    let data := nth 0 (channelData b) [] in
    if (List.length data =? 0)%nat then Throws "No audio data available"
    else
      let sampleSize := Nat.min (Z.to_nat 10000) (List.length data) in
      let step := Nat.max 1 (List.length data / sampleSize) in
      let '(sumSquares, peakAmp, sampleCount) :=
        sampleLoop data step sampleSize 0 (0, 0, 0%nat) in
      let rms := sqrt (sumSquares / inject_Z (Z.of_nat sampleCount)) in
      let tempo :=
        if JS.lt rms (1 # 10) then 80 else if JS.lt rms (3 # 10) then 120 else 150 in
      let brightness := peakAmp * 3000 + 1000 in
      Returns (classifyWithTrainedModel rms tempo peakAmp brightness).

(** The default analysis of the [catch] block. *)
Definition fallback : EnergyAnalysis :=
  {| energy_level := "Groove";
     confidence := 1 # 2;
     class_id := 1;
     probabilities :=
       [("Chill"%string, Some (33 # 100)); ("Groove"%string, Some (34 # 100));
        ("Club"%string, Some (33 # 100))] |}.

(** [analyzeEnergy]: whatever the [try] block throws is caught and replaced
    by [fallback]. *)
Definition analyzeEnergy (sqrt : Q -> Q) (b : AudioBuffer)
  : outcome EnergyAnalysis :=
  match analyzeBody sqrt b with
  | Returns ea => Returns ea
  | Throws _ => Returns fallback
  end.

End EnergyDetectorGuarded.

(** A buffer the classifier cannot analyse: no channels, or no samples. *)
Definition malformed (b : AudioBuffer) : Prop :=
  numberOfChannels b = 0%nat \/ length b = 0%nat
  \/ nth 0 (channelData b) [] = [].

(** ** Beat detection, mix points, crossfade and WAV encoding
    ([audioProcessor.ts]) *)

Record BeatInfo := mkBeatInfo {
  bpm : option Q;
  beats : list Z;
  beatConfidence : option Q
}.

Record MixPoint := mkMixPoint {
  time : Q;
  energy : Q;
  score : Q
}.

(** [buffer.getChannelData(c)].  The platform throws for [c] outside
    [0 .. numberOfChannels - 1]; the callers below stay inside that range
    as soon as the buffer has a channel, which the theorems assume. *)
Definition getChannelData (b : AudioBuffer) (c : nat) : list Q :=
  nth c (channelData b) [].

(** [data[i]] for an index inside the array. *)
Definition sampleAt (data : list Q) (i : Z) : Q := nth (Z.to_nat i) data 0.

(** Insertion of [x] in front of a list kept in non-decreasing order of
    [key]: [x] goes before the first element whose key is not smaller, so
    that elements with equal keys keep their order of arrival, as
    [Array.prototype.sort] guarantees. *)
Fixpoint insertBy {A : Type} (key : A -> Q) (x : A) (l : list A) : list A :=
  match l with
  | [] => [x]
  | y :: tl =>
      if JS.le (key x) (key y) then x :: y :: tl
      else y :: insertBy key x tl
  end.

(** [l.sort((a, b) => key(a) - key(b))]. *)
Definition sortBy {A : Type} (key : A -> Q) (l : list A) : list A :=
  fold_right (fun x acc => insertBy key x acc) [] l.

Module AudioProcessor.

Section WithSqrt.

Variable sqrt : Q -> Q.

(** RMS of the window of [w] samples starting at [i]. *)
Definition windowEnergy (data : list Q) (w : Z) (i : Z) : Q :=
  let energy :=
    fold_left (fun e j => e + sampleAt data (i + Z.of_nat j)
                              * sampleAt data (i + Z.of_nat j))
              (seq 0 (Z.to_nat w)) 0 in
  sqrt (energy / inject_Z w).

(** The loop [for (let i = 0; i < channelData.length - windowSize;
    i += hopSize)]: [None] when [fuel] iterations were not enough. *)
Fixpoint energyLoop (data : list Q) (w hop : Z) (fuel : nat) (i : Z)
  (energies : list Q) : option (list Q) :=
  if (i <? Z.of_nat (List.length data) - w)%Z then
    match fuel with
    | O => None
    | S fuel' =>
        energyLoop data w hop fuel' (i + hop)%Z
          (energies ++ [windowEnergy data w i])
    end
  else Some energies.

(** [calculateThreshold]: [None] is the [NaN] obtained from an empty
    curve. *)
Definition calculateThreshold (energies : list Q) : option Q :=
  let sorted := sortBy (fun x => x) energies in
  match nth_error sorted (List.length sorted / 2) with
  | Some median => Some (median * (3 # 2))
  | None => None
  end.

(** A comparison against a threshold that may be [NaN] is false. *)
Definition aboveThreshold (e : Q) (threshold : option Q) : bool :=
  match threshold with
  | Some t => JS.gt e t
  | None => false
  end.

(** One iteration of the peak scan; the state is [(beats, lastBeat)]. *)
Definition peakStep (energies : list Q) (threshold : option Q)
  (hop minBeatInterval : Z) (st : list Z * Z) (i : nat) : list Z * Z :=
  let currentSample := (Z.of_nat i * hop)%Z in
  let e := nth i energies 0 in
  if aboveThreshold e threshold
     && JS.gt e (nth (i - 1) energies 0) && JS.gt e (nth (i - 2) energies 0)
     && JS.gt e (nth (i + 1) energies 0) && JS.gt e (nth (i + 2) energies 0)
     && (minBeatInterval <? currentSample - snd st)%Z
  then (fst st ++ [currentSample], currentSample)
  else st.

(** [for (let i = 2; i < energies.length - 2; i++)]. *)
Definition peakScan (energies : list Q) (threshold : option Q)
  (hop minBeatInterval : Z) : list Z * Z :=
  fold_left (peakStep energies threshold hop minBeatInterval)
            (seq 2 (List.length energies - 4))
            ([], (- minBeatInterval)%Z).

(** [intervals] of [calculateBPM] and [calculateConfidence]. *)
Fixpoint intervalsOf (bs : list Z) : list Z :=
  match bs with
  | a :: ((b :: _) as tl) => (b - a)%Z :: intervalsOf tl
  | _ => []
  end.

Definition sumQ (l : list Q) : Q := fold_left (fun s v => s + v) l 0.

Definition mean (l : list Z) : Q :=
  sumQ (map inject_Z l) / inject_Z (Z.of_nat (List.length l)).

(** [calculateBPM]; [None] when the quotient is not a finite number. *)
Definition calculateBPM (bs : list Z) (sr : Z) : option Q :=
  if (List.length bs <? 2)%nat then Some 120
  else
    let intervals := intervalsOf bs in
    let avgInterval := mean intervals in
    JS.div (60 * inject_Z sr) avgInterval.

(** [calculateConfidence]. *)
Definition calculateConfidence (bs : list Z) : option Q :=
  if (List.length bs <? 4)%nat then Some (3 # 10)
  else
    let intervals := intervalsOf bs in
    let m := mean intervals in
    let variance :=
      fold_left (fun s v => s + (inject_Z v - m) * (inject_Z v - m)) intervals 0
      / inject_Z (Z.of_nat (List.length intervals)) in
    match JS.div (sqrt variance) m with
    | Some cv => Some (JS.max (3 # 10) (JS.min 1 (1 - cv)))
    | None => None
    end.

(** [findBeats]; [None] when the energy loop does not finish within
    [fuel] iterations.  The products [sampleRate * 0.04] and
    [sampleRate * 0.35] are those of binary64: at 44100 Hz the second one is
    15434.999999999998 and its floor 15434. *)
Definition findBeats (fuel : nat) (data : list Q) (sr : Z) : option BeatInfo :=
  let windowSize := JS.floor (F64.mul (inject_Z sr) (F64.round (4 # 100))) in
  let hopSize := (windowSize / 4)%Z in
  let minBeatInterval :=
    JS.floor (F64.mul (inject_Z sr) (F64.round (35 # 100))) in
  match energyLoop data windowSize hopSize fuel 0%Z [] with
  | None => None
  | Some energies =>
      let threshold := calculateThreshold energies in
      let bs := fst (peakScan energies threshold hopSize minBeatInterval) in
      Some {| bpm :=
                match calculateBPM bs sr with
                | Some v => Some (JS.max 85 (JS.min 175 (inject_Z (JS.round v))))
                | None => None
                end;
              beats := bs;
              beatConfidence := calculateConfidence bs |}
  end.

(** [calculateEnergy]: RMS of the 100 ms that start at [t] seconds, or the
    neutral 0.5 when that window does not fit.  The start sample is the
    floor of the binary64 product, which for a time [beat / sampleRate] can
    be [beat - 1]. *)
Definition calculateEnergy (b : AudioBuffer) (t : Q) : Q :=
  let sr := sampleRate b in
  let startSample := JS.floor (F64.mul t (inject_Z sr)) in
  let windowSize := JS.floor (F64.mul (inject_Z sr) (F64.round (1 # 10))) in
  let data := getChannelData b 0 in
  if (Z.of_nat (List.length data) <=? startSample + windowSize)%Z then 1 # 2
  else
    let e :=
      fold_left (fun e j => e + sampleAt data (startSample + Z.of_nat j)
                                * sampleAt data (startSample + Z.of_nat j))
                (seq 0 (Z.to_nat windowSize)) 0 in
    sqrt (e / inject_Z windowSize).

Definition getPositionScore (t dur startPct endPct : Q) : Q :=
  let normalizedTime := (t / dur - startPct) / (endPct - startPct) in
  1 - JS.abs (normalizedTime - (1 # 2)).

(** The body of [for (const beat of beatInfo.beats)].  The time is the
    binary64 quotient [beat / sampleRate]; [calculateEnergy] multiplies it
    back by the sample rate. *)
Definition candidateStep (b : AudioBuffer) (startPct endPct : Q)
  (candidates : list MixPoint) (beat : Z) : list MixPoint :=
  let t := F64.div (inject_Z beat) (inject_Z (sampleRate b)) in
  if JS.ge t (duration b * startPct) && JS.le t (duration b * endPct) then
    let e := calculateEnergy b t in
    let positionScore := getPositionScore t (duration b) startPct endPct in
    candidates ++ [{| time := t; energy := e; score := e * positionScore |}]
  else candidates.

(** [findCandidates]: the qualifying beats, best score first, at most
    five.  [sort((a, b) => b.score - a.score)] orders by decreasing score,
    that is by increasing [- score]. *)
Definition findCandidates (bi : BeatInfo) (b : AudioBuffer)
  (startPct endPct : Q) : list MixPoint :=
  let candidates := fold_left (candidateStep b startPct endPct) (beats bi) [] in
  firstn 5 (sortBy (fun c => - score c) candidates).

(** The inner body of the pairing loops; the state is
    [(bestScore, (point1, point2))]. *)
Definition pairStep (p1 : MixPoint) (st : Q * (MixPoint * MixPoint))
  (p2 : MixPoint) : Q * (MixPoint * MixPoint) :=
  let energyMatch := 1 - JS.abs (energy p1 - energy p2) in
  let s := energyMatch * score p1 * score p2 in
  if JS.gt s (fst st) then (s, (p1, p2)) else st.

Definition findMixPoints (bi1 bi2 : BeatInfo) (b1 b2 : AudioBuffer)
  : MixPoint * MixPoint :=
  let candidates1 := findCandidates bi1 b1 (6 # 10) (85 # 100) in
  let candidates2 := findCandidates bi2 b2 (15 # 100) (5 # 10) in
  let bestMatch :=
    (hd {| time := duration b1 * (7 # 10); energy := 1 # 2; score := 1 # 2 |}
        candidates1,
     hd {| time := duration b2 * (3 # 10); energy := 1 # 2; score := 1 # 2 |}
        candidates2) in
  snd (fold_left
         (fun st p1 => fold_left (pairStep p1) candidates2 st)
         candidates1 (0, bestMatch)).

End WithSqrt.

(** The buffer [createMix] fills.  A slot holds [None] when the source
    stored a value that is not a finite number. *)
Record MixedBuffer := mkMixedBuffer {
  mixedData : list (list (option Q));
  mixedRate : Z;
  mixedLength : Z
}.

(** The guarded read [if (index < data.length) sample = data[index]]: zero
    past the end, the sample inside, and the absent slot below zero. *)
Definition readOrZero (data : list Q) (index : Z) : option Q :=
  if (index <? Z.of_nat (List.length data))%Z then
    if (0 <=? index)%Z then Some (sampleAt data index) else None
  else Some 0.

(** One output sample of the linear crossfade. *)
Definition mixSample (data1 data2 : list Q) (startSample1 startSample2 : Z)
  (mixSamples : Z) (i : Z) : option Q :=
  let progress := inject_Z i / inject_Z mixSamples in
  match readOrZero data1 (startSample1 + i), readOrZero data2 (startSample2 + i) with
  | Some sample1, Some sample2 =>
      let fadeOut := 1 - progress in
      let fadeIn := progress in
      Some ((sample1 * fadeOut + sample2 * fadeIn) * (8 # 10))
  | _, _ => None
  end.

(** [createMix] (the beat informations it receives are unused).  The
    [AudioBuffer] constructor rejects an empty shape, and
    [getChannelData(Math.min(channel, n - 1))] throws when [n] is zero.
    The start samples are floors of binary64 products; [mixDuration *
    sampleRate] is an integer and its own floor. *)
Definition createMix (b1 b2 : AudioBuffer) (mixPoint1 mixPoint2 : MixPoint)
  : outcome MixedBuffer :=
  let sr := sampleRate b1 in
  let mixDuration := 20 in
  let mixSamples := JS.floor (mixDuration * inject_Z sr) in
  let channels := Nat.max (numberOfChannels b1) (numberOfChannels b2) in
  if (channels =? 0)%nat || (mixSamples <=? 0)%Z then Throws "NotSupportedError"
  else if (numberOfChannels b1 =? 0)%nat || (numberOfChannels b2 =? 0)%nat
  then Throws "IndexSizeError"
  else
    let startSample1 := JS.floor (F64.mul (time mixPoint1) (inject_Z sr)) in
    let startSample2 := JS.floor (F64.mul (time mixPoint2) (inject_Z sr)) in
    Returns
      {| mixedData :=
           map (fun channel =>
                  let data1 :=
                    getChannelData b1 (Nat.min channel (numberOfChannels b1 - 1)) in
                  let data2 :=
                    getChannelData b2 (Nat.min channel (numberOfChannels b2 - 1)) in
                  map (fun i =>
                         mixSample data1 data2 startSample1 startSample2
                                   mixSamples (Z.of_nat i))
                      (seq 0 (Z.to_nat mixSamples)))
               (seq 0 channels);
         mixedRate := sr;
         mixedLength := mixSamples |}.

(** *** The [DataView] over the output [ArrayBuffer]

    The buffer is a list of bytes ([0 .. 255]); a store outside of it is
    the [RangeError] of the platform, rendered [None]. *)

Fixpoint setNth (l : list Z) (n : nat) (v : Z) : list Z :=
  match l, n with
  | [], _ => []
  | _ :: tl, O => v :: tl
  | x :: tl, S n' => x :: setNth tl n' v
  end.

Definition setUint8 (view : list Z) (offset : Z) (v : Z) : option (list Z) :=
  if (0 <=? offset)%Z && (offset <? Z.of_nat (List.length view))%Z
  then Some (setNth view (Z.to_nat offset) (v mod 256)%Z)
  else None.

(** Little-endian store of the low [n] bytes of [v]. *)
Fixpoint setLE (n : nat) (view : list Z) (offset : Z) (v : Z)
  : option (list Z) :=
  match n with
  | O => Some view
  | S n' =>
      match setUint8 view offset v with
      | Some view' => setLE n' view' (offset + 1)%Z (v / 256)%Z
      | None => None
      end
  end.

(** [view.setUint16(offset, v, true)], [view.setUint32(offset, v, true)]. *)
Definition setUint16 := setLE 2.
Definition setUint32 := setLE 4.

(** [view.setInt16(offset, x, true)] for a number [x]: [ToInt16] truncates
    towards zero and wraps modulo [2^16]; [NaN] ([None]) stores zero. *)
Definition toInt (x : option Q) : Z :=
  match x with
  | Some q => JS.trunc q
  | None => 0%Z
  end.

Definition setInt16 (view : list Z) (offset : Z) (x : option Q)
  : option (list Z) :=
  setLE 2 view offset (toInt x).

(** [writeString(offset, string)]. *)
Fixpoint writeString (view : list Z) (offset : Z) (s : string)
  : option (list Z) :=
  match s with
  | EmptyString => Some view
  | String c s' =>
      match setUint8 view offset (Z.of_nat (Ascii.nat_of_ascii c)) with
      | Some view' => writeString view' (offset + 1)%Z s'
      | None => None
      end
  end.

Definition andThen {A B : Type} (x : option A) (f : A -> option B) : option B :=
  match x with
  | Some a => f a
  | None => None
  end.

Notation "x >>= f" := (andThen x f) (at level 50, left associativity).

(** The 44 bytes of header. *)
Definition writeHeader (view : list Z) (len channels sr : Z) : option (list Z) :=
  writeString view 0 "RIFF"
  >>= (fun v => setUint32 v 4 (36 + len * channels * 2))
  >>= (fun v => writeString v 8 "WAVE")
  >>= (fun v => writeString v 12 "fmt ")
  >>= (fun v => setUint32 v 16 16)
  >>= (fun v => setUint16 v 20 1)
  >>= (fun v => setUint16 v 22 channels)
  >>= (fun v => setUint32 v 24 sr)
  >>= (fun v => setUint32 v 28 (sr * channels * 2))
  >>= (fun v => setUint16 v 32 (channels * 2))
  >>= (fun v => setUint16 v 34 16)
  >>= (fun v => writeString v 36 "data")
  >>= (fun v => setUint32 v 40 (len * channels * 2)).

(** The number handed to [setInt16] for frame [i] of channel [c]:
    [Math.max(-1, Math.min(1, data[i])) * 0x7FFF], or [NaN] when the slot is
    absent. *)
Definition scaledSample (b : AudioBuffer) (i c : nat) : option Q :=
  match nth_error (getChannelData b c) i with
  | Some s => Some (JS.max (-1) (JS.min 1 s) * 32767)
  | None => None
  end.

(** The inner loop over the channels of frame [i]; the state is
    [(view, offset)]. *)
Definition writeFrame (b : AudioBuffer) (i : nat) (st : list Z * Z)
  : option (list Z * Z) :=
  fold_left
    (fun acc channel =>
       acc >>= (fun s =>
       setInt16 (fst s) (snd s) (scaledSample b i channel)
       >>= (fun v => Some (v, snd s + 2)%Z)))
    (seq 0 (numberOfChannels b)) (Some st).

Definition writeFrames (b : AudioBuffer) (st : list Z * Z)
  : option (list Z * Z) :=
  fold_left (fun acc i => acc >>= writeFrame b i) (seq 0 (length b)) (Some st).

(** [audioBufferToWav]. *)
Definition audioBufferToWav (b : AudioBuffer) : option (list Z) :=
  let len := Z.of_nat (length b) in
  let channels := Z.of_nat (numberOfChannels b) in
  let arrayBuffer := repeat 0%Z (Z.to_nat (44 + len * channels * 2)) in
  writeHeader arrayBuffer len channels (sampleRate b)
  >>= (fun v => writeFrames b (v, 44%Z))
  >>= (fun s => Some (fst s)).

End AudioProcessor.

(** Readers used to state what the encoder wrote. *)

Definition getUint8 (view : list Z) (offset : Z) : option Z :=
  if (0 <=? offset)%Z then nth_error view (Z.to_nat offset) else None.

(** [view.getUint16(offset, true)] and [view.getUint32(offset, true)]. *)
Fixpoint getLE (n : nat) (view : list Z) (offset : Z) : option Z :=
  match n with
  | O => Some 0%Z
  | S n' =>
      match getUint8 view offset, getLE n' view (offset + 1)%Z with
      | Some lo, Some hi => Some (lo + 256 * hi)%Z
      | _, _ => None
      end
  end.

(** [view.getInt16(offset, true)]: two's complement. *)
Definition getInt16 (view : list Z) (offset : Z) : option Z :=
  match getLE 2 view offset with
  | Some u => Some (if (u <? 32768)%Z then u else u - 65536)%Z
  | None => None
  end.

(** ** Feature extraction of the five-category classifier
    ([energyDetector.ts]); the spectral features come from the platform's
    analyser and are not modelled. *)

Module EnergyDetectorFeatures.

(** [calculateRMS]; [None] is the [NaN] of an empty array. *)
Definition calculateRMS (sqrt : Q -> Q) (channelData : list Q) : option Q :=
  let sum := fold_left (fun s x => s + x * x) channelData 0 in
  match JS.div sum (inject_Z (Z.of_nat (List.length channelData))) with
  | Some q => Some (sqrt q)
  | None => None
  end.

(** The test of one pair of neighbours in [calculateZeroCrossingRate]. *)
Definition crosses (cur prev : Q) : bool :=
  (JS.ge cur 0 && JS.lt prev 0) || (JS.lt cur 0 && JS.ge prev 0).

(** The counting loop [for (let i = 1; i < channelData.length; i++)]. *)
Definition countCrossings (channelData : list Q) : nat :=
  fold_left
    (fun crossings i =>
       if crosses (nth i channelData 0) (nth (i - 1) channelData 0)
       then S crossings else crossings)
    (seq 1 (List.length channelData - 1)) 0%nat.

Definition calculateZeroCrossingRate (channelData : list Q) : option Q :=
  JS.div (inject_Z (Z.of_nat (countCrossings channelData)))
         (inject_Z (Z.of_nat (List.length channelData))).

Definition calculatePeakAmplitude (channelData : list Q) : Q :=
  fold_left (fun peak x => JS.max peak (JS.abs x)) channelData 0.

(** The state of the loop of [calculateDynamicRange] is [(min, max)], both
    starting at zero. *)
Definition rangeStep (st : Q * Q) (x : Q) : Q * Q :=
  (JS.min (fst st) x, JS.max (snd st) x).

Definition calculateDynamicRange (channelData : list Q) : Q :=
  let st := fold_left rangeStep channelData (0, 0) in
  snd st - fst st.

(** [findPeaks]: the positions that exceed both neighbours. *)
Definition findPeaks (array : list Q) : list nat :=
  fold_left
    (fun peaks i =>
       if JS.gt (nth i array 0) (nth (i - 1) array 0)
          && JS.gt (nth i array 0) (nth (i + 1) array 0)
       then peaks ++ [i] else peaks)
    (seq 1 (List.length array - 2)) [].

(** [estimateTempo].  Its energy loop is the one of [findBeats], over
    windows of 100 ms; the outer [None] is a loop that did not end within
    [fuel] iterations, the inner one a quotient that is not a finite
    number. *)
Definition estimateTempo (sqrt : Q -> Q) (fuel : nat) (channelData : list Q)
  (sr : Z) : option (option Q) :=
  let windowSize := JS.floor (F64.mul (inject_Z sr) (F64.round (1 # 10))) in
  let hopSize := (windowSize / 4)%Z in
  match AudioProcessor.energyLoop sqrt channelData windowSize hopSize fuel 0%Z [] with
  | None => None
  | Some energies =>
      let peaks := findPeaks energies in
      if (List.length peaks <? 2)%nat then Some (Some 120)
      else
        let intervals := AudioProcessor.intervalsOf (map Z.of_nat peaks) in
        let avgInterval := AudioProcessor.mean intervals in
        match JS.div (60 * inject_Z sr) (avgInterval * inject_Z hopSize) with
        | Some tempo => Some (Some (JS.max 60 (JS.min 180 tempo)))
        | None => Some None
        end
  end.

End EnergyDetectorFeatures.

(** ** Stem splitter (the revision of [audioProcessor.ts] with stems) *)

Module AudioProcessorStems.

(** Both functions first allocate a buffer of the shape of their input,
    which the platform accepts for every buffer with a channel and a
    sample; the embedding starts after that allocation. *)

(** [center * 0.8] at frame [i]. *)
Definition centerPart (b : AudioBuffer) (i : nat) : Q :=
  let leftChannel := getChannelData b 0 in
  let rightChannel := getChannelData b 1 in
  let center := (nth i leftChannel 0 + nth i rightChannel 0) / 2 in
  center * (8 # 10).

Definition extractVocals (b : AudioBuffer) : AudioBuffer :=
  let channels := numberOfChannels b in
  if (channels <? 2)%nat then b
  else
    {| channelData :=
         map (fun originalData =>
                map (fun i => centerPart b i) (seq 0 (length b)))
             (channelData b);
       sampleRate := sampleRate b;
       length := length b |}.

Definition extractBeats (b : AudioBuffer) : AudioBuffer :=
  let channels := numberOfChannels b in
  if (channels <? 2)%nat then b
  else
    {| channelData :=
         map (fun originalData =>
                map (fun i => nth i originalData 0 - centerPart b i)
                    (seq 0 (length b)))
             (channelData b);
       sampleRate := sampleRate b;
       length := length b |}.

(** [removeVocals]: the instrumental part, widened by 10% on the first
    channel and narrowed by 10% on the others, then clipped. *)
Definition removeVocals (b : AudioBuffer) : AudioBuffer :=
  let channels := numberOfChannels b in
  if (channels <? 2)%nat then b
  else
    {| channelData :=
         map (fun channel =>
                let originalData := getChannelData b channel in
                map (fun i =>
                       let vocalRemoved := nth i originalData 0 - centerPart b i in
                       let stereoEnhance :=
                         if (channel =? 0)%nat then 1 # 10 else - (1 # 10) in
                       JS.max (-1) (JS.min 1 (vocalRemoved * (1 + stereoEnhance))))
                    (seq 0 (length b)))
             (seq 0 channels);
       sampleRate := sampleRate b;
       length := length b |}.

(** The weights of the two instrumental parts at [progress]:
    [(beatFadeOut, beatFadeIn)]. *)
Definition beatFades (progress : Q) : Q * Q :=
  if JS.lt progress (4 # 10) then (1, 0)
  else if JS.lt progress (6 # 10) then
    let overlapProgress := (progress - (4 # 10)) / (2 # 10) in
    (1 - overlapProgress * (3 # 10), overlapProgress * (7 # 10))
  else
    let finalProgress := (progress - (6 # 10)) / (4 # 10) in
    ((7 # 10) - finalProgress * (7 # 10), (7 # 10) + finalProgress * (3 # 10)).

(** One output sample of the mix of stems. *)
Definition stemSample (v1Data v2Data b1Data b2Data : list Q)
  (startSample1 startSample2 : Z) (mixSamples : Z) (i : Z) : option Q :=
  let progress := inject_Z i / inject_Z mixSamples in
  let index1 := (startSample1 + i)%Z in
  let index2 := (startSample2 + i)%Z in
  match AudioProcessor.readOrZero v1Data index1,
        AudioProcessor.readOrZero v2Data index2,
        AudioProcessor.readOrZero b1Data index1,
        AudioProcessor.readOrZero b2Data index2 with
  | Some v1Sample, Some v2Sample, Some b1Sample, Some b2Sample =>
      let vocalFadeOut := JS.max 0 (1 - progress * 2) in
      let vocalFadeIn := JS.max 0 ((progress - (1 # 2)) * 2) in
      let vocals := v1Sample * vocalFadeOut + v2Sample * vocalFadeIn in
      let beats :=
        b1Sample * fst (beatFades progress) + b2Sample * snd (beatFades progress) in
      Some ((vocals + beats) * (8 # 10))
  | _, _, _, _ => None
  end.

(** [createMix] of this revision.  Every allocation it makes (the mixed
    buffer, and the buffers of [extractVocals] and [extractBeats] for both
    tracks) is rejected by the platform for an empty shape.  The start
    samples are floors of binary64 products, as in the basic [createMix]. *)
Definition createMix (b1 b2 : AudioBuffer)
  (mixPoint1 mixPoint2 : MixPoint) : outcome AudioProcessor.MixedBuffer :=
  let sr := sampleRate b1 in
  let mixSamples := JS.floor (20 * inject_Z sr) in
  let channels := Nat.max (numberOfChannels b1) (numberOfChannels b2) in
  if (mixSamples <=? 0)%Z
     || (numberOfChannels b1 =? 0)%nat || (length b1 =? 0)%nat
     || (numberOfChannels b2 =? 0)%nat || (length b2 =? 0)%nat
  then Throws "NotSupportedError"
  else
    let startSample1 := JS.floor (F64.mul (time mixPoint1) (inject_Z sr)) in
    let startSample2 := JS.floor (F64.mul (time mixPoint2) (inject_Z sr)) in
    let vocals1 := extractVocals b1 in
    let vocals2 := extractVocals b2 in
    let beats1 := extractBeats b1 in
    let beats2 := extractBeats b2 in
    Returns
      {| AudioProcessor.mixedData :=
           map (fun channel =>
                  let v1Data :=
                    getChannelData vocals1
                      (Nat.min channel (numberOfChannels vocals1 - 1)) in
                  let v2Data :=
                    getChannelData vocals2
                      (Nat.min channel (numberOfChannels vocals2 - 1)) in
                  let b1Data :=
                    getChannelData beats1
                      (Nat.min channel (numberOfChannels beats1 - 1)) in
                  let b2Data :=
                    getChannelData beats2
                      (Nat.min channel (numberOfChannels beats2 - 1)) in
                  map (fun i =>
                         stemSample v1Data v2Data b1Data b2Data
                           startSample1 startSample2 mixSamples (Z.of_nat i))
                      (seq 0 (Z.to_nat mixSamples)))
               (seq 0 channels);
         AudioProcessor.mixedRate := sr;
         AudioProcessor.mixedLength := mixSamples |}.

End AudioProcessorStems.

(** ** The page around the processor ([page.tsx]) *)

Module Page.

Inductive BpmCompatibility := excellent | mid | poor.

(** [evaluateBpmCompatibility].  A quotient that is not a finite number
    ([NaN] or an infinity, from a zero divisor) fails both comparisons. *)
Definition evaluateBpmCompatibility (bpm1 bpm2 : Q) : BpmCompatibility :=
  let difference := JS.abs (bpm1 - bpm2) in
  match JS.div difference (JS.min bpm1 bpm2) with
  | Some q =>
      let percentageDiff := q * 100 in
      if JS.le percentageDiff 5 then excellent
      else if JS.le percentageDiff 10 then mid
      else poor
  | None => poor
  end.

Inductive ProcessingStage := idle | loading | analyzing | creating | complete.

(** The stage that the progress callback of [processTransition] sets. *)
Definition stageOfProgress (progress : Q) : ProcessingStage :=
  if JS.le progress (3 # 10) then loading
  else if JS.le progress (7 # 10) then analyzing
  else if JS.lt progress 1 then creating
  else complete.

(** [setProgress(Math.round(progress * 100))]. *)
Definition percentOfProgress (progress : Q) : Z := JS.round (progress * 100).

End Page.

(** * Vocabulary of the statements and sample inputs *)

(** A feature vector of an ordinary track: RMS 0.3, centroid 2 kHz,
    120 BPM, peak 0.8. *)
Definition ordinaryFeatures : list Q :=
  [3 # 10; 2000; 5 # 100; 3000; 1000; 120; 8 # 10; 16 # 10; 1 # 100; 2 # 10]
  ++ repeat 0 15.

(** A buffer without channels and without samples. *)
Definition emptyBuffer : AudioBuffer :=
  {| channelData := []; sampleRate := 44100; length := 0 |}.

(** A stereo buffer of three frames. *)
Definition stereoBuffer : AudioBuffer :=
  {| channelData := [[1 # 2; -1 # 4; 3 # 4]; [1 # 4; 1 # 2; -1]];
     sampleRate := 44100;
     length := 3 |}.

(** Two short buffers at 2 Hz: a mono one and a stereo one. *)
Definition monoTrack : AudioBuffer :=
  {| channelData := [[1; 1 # 2; 1 # 4; 1 # 8; 1 # 16; 1 # 32]];
     sampleRate := 2;
     length := 6 |}.

Definition stereoTrack : AudioBuffer :=
  {| channelData := [[1 # 2; 1 # 2; 1 # 2; 1 # 2]; [-1; -1; -1; -1]];
     sampleRate := 2;
     length := 4 |}.

Definition pointAt (t : Q) : MixPoint :=
  {| time := t; energy := 1 # 2; score := 1 # 2 |}.

(** The sample of a track that the crossfade reads at [index]: zero at or
    past the end of the track. *)
Definition sampleOrZero (data : list Q) (index : Z) : Q :=
  if (index <? Z.of_nat (List.length data))%Z then sampleAt data index else 0.

(** The time of a point lies in the window [startPct .. endPct] of the
    duration of [b]. *)
Definition inWindow (b : AudioBuffer) (startPct endPct : Q) (p : MixPoint) : Prop :=
  duration b * startPct <= time p /\ time p <= duration b * endPct.

(** The default points of [findMixPoints]. *)
Definition fallback1 (b1 : AudioBuffer) : MixPoint :=
  {| time := duration b1 * (7 # 10); energy := 1 # 2; score := 1 # 2 |}.

Definition fallback2 (b2 : AudioBuffer) : MixPoint :=
  {| time := duration b2 * (3 # 10); energy := 1 # 2; score := 1 # 2 |}.

(** A track of 10 s at 10 Hz with a beat every second, and a concrete
    square root (exact on the squares it meets here). *)
Definition tenSeconds : AudioBuffer :=
  {| channelData := [repeat (1 # 2) 100]; sampleRate := 10; length := 100 |}.

Definition everySecond : BeatInfo :=
  {| bpm := Some 120;
     beats := [0; 10; 20; 30; 40; 50; 60; 70; 80; 90]%Z;
     beatConfidence := Some 1 |}.

Definition sqrtApprox (x : Q) : Q :=
  Z.sqrt (Qfloor (x * 1000000)) # 1000.

(** The sizes [findBeats] derives from the sample rate. *)
Definition windowSizeOf (sr : Z) : Z :=
  JS.floor (F64.mul (inject_Z sr) (F64.round (4 # 100))).
Definition hopSizeOf (sr : Z) : Z := (windowSizeOf sr / 4)%Z.
Definition minBeatIntervalOf (sr : Z) : Z :=
  JS.floor (F64.mul (inject_Z sr) (F64.round (35 # 100))).

(** [Math.floor(mixPoint.time * sampleRate)], the sample at which
    [createMix] starts to read a track. *)
Definition startSampleOf (sr : Z) (p : MixPoint) : Z :=
  JS.floor (F64.mul (time p) (inject_Z sr)).

(** The binary64 numbers of the machine, to compare [F64] with: the
    primitive floating-point operations are those of the processor.
    [ofZ] is exact up to [2^53]; [toQ] is the value of a finite number. *)
Module Machine.

Definition ofZ (z : Z) : PrimFloat.float :=
  if (z <? 0)%Z
  then PrimFloat.opp (PrimFloat.of_uint63 (Uint63.of_Z (- z)))
  else PrimFloat.of_uint63 (Uint63.of_Z z).

Definition toQ (f : PrimFloat.float) : option Q :=
  match FloatOps.Prim2SF f with
  | SpecFloat.S754_zero _ => Some 0
  | SpecFloat.S754_finite s m e =>
      Some ((if s then - (1) else 1) * inject_Z (Z.pos m) * F64.pow2 e)
  | _ => None
  end.

Definition agree (q : Q) (f : PrimFloat.float) : bool :=
  match toQ f with
  | Some v => Qeq_bool q v
  | None => false
  end.

(** Operands [(n, d, k)]: the quotient [n / d] and the integer [k]. *)
Definition operands : list (Z * Z * Z) :=
  [(35, 100, 44100); (35, 100, 180); (4, 100, 44100); (1, 10, 44100);
   (29, 100, 100); (15435, 44100, 44100); (1, 3, 3); (-7, 9, 2);
   (16, 10, 5); (3, 10, 1); (9007199254740991, 7, 12345);
   (1, 9007199254740991, 1); (123456789, 1000, 997)]%Z.

End Machine.

(** The binary64 values: an integer significand of at most 53 bits and an
    exponent of at least -1074. *)
Definition representable (c : Q) : Prop :=
  exists m e : Z,
    (-1074 <= e)%Z /\ (Z.abs m <= 2 ^ 53)%Z /\ c == inject_Z m * F64.pow2 e.

(** Consecutive entries differ by more than [gap]. *)
Definition spaced (gap : Z) (bs : list Z) : Prop :=
  Forall (fun d => (gap < d)%Z) (AudioProcessor.intervalsOf bs).

(** A strictly increasing list. *)
Definition increasing (bs : list Z) : Prop :=
  Forall (fun d => (0 < d)%Z) (AudioProcessor.intervalsOf bs).

(** Five bursts, half a second apart, in 2.5 s of silence at 100 Hz. *)
Definition burstTrack : list Q :=
  map (fun i => if ((i mod 50 =? 10) || (i mod 50 =? 11)
                    || (i mod 50 =? 12) || (i mod 50 =? 13))%nat
                then 1 else 0)
      (seq 0 250).

(** Two bursts in half a second of silence at 180 Hz, where the window is
    7 samples and the hop 1.  A burst is three samples of 1/2, 1 and 1/2,
    three samples apart: the window that holds a whole burst has the largest
    energy.  The bursts start at the samples 10 and 73. *)
Definition burst : list Q := [1 # 2; 0; 0; 1; 0; 0; 1 # 2].

Definition closeBursts : list Q :=
  repeat 0 10 ++ burst ++ repeat 0 56 ++ burst ++ repeat 0 10.

(** The bytes a little-endian store of width [n] leaves, and the character
    codes of a string. *)
Fixpoint leBytes (n : nat) (v : Z) : list Z :=
  match n with
  | O => []
  | S n' => (v mod 256)%Z :: leBytes n' (v / 256)%Z
  end.

Fixpoint strBytes (s : string) : list Z :=
  match s with
  | EmptyString => []
  | String c s' => Z.of_nat (Ascii.nat_of_ascii c) :: strBytes s'
  end.

(** The 44 bytes of a RIFF/WAVE header for [len] frames of [channels]
    16-bit samples at [sr] Hz. *)
Definition headerBytes (len channels sr : Z) : list Z :=
  strBytes "RIFF" ++ leBytes 4 (36 + len * channels * 2)
  ++ strBytes "WAVE" ++ strBytes "fmt "
  ++ leBytes 4 16 ++ leBytes 2 1 ++ leBytes 2 channels ++ leBytes 4 sr
  ++ leBytes 4 (sr * channels * 2) ++ leBytes 2 (channels * 2) ++ leBytes 2 16
  ++ strBytes "data" ++ leBytes 4 (len * channels * 2).

(** The two bytes of sample [c] of frame [i], the bytes of frame [i], and
    the whole data chunk. *)
Definition sampleBytes (b : AudioBuffer) (i c : nat) : list Z :=
  leBytes 2 (AudioProcessor.toInt (AudioProcessor.scaledSample b i c)).

Definition frameBytes (b : AudioBuffer) (i : nat) : list Z :=
  flat_map (sampleBytes b i) (seq 0 (numberOfChannels b)).

Definition pcmBytes (b : AudioBuffer) : list Z :=
  flat_map (frameBytes b) (seq 0 (length b)).

(** The number that a run of little-endian bytes denotes. *)
Definition leValue (bs : list Z) : Z :=
  fold_right (fun b acc => (b + 256 * acc)%Z) 0%Z bs.

(** A mono buffer that holds the single sample 0.5. *)
Definition halfSample : AudioBuffer :=
  {| channelData := [[1 # 2]]; sampleRate := 8000; length := 1 |}.

(** One second of mono silence, scaled down to 8 frames at 8 Hz. *)
Definition silentSecond : AudioBuffer :=
  {| channelData := [repeat 0 8]; sampleRate := 8; length := 8 |}.

(** The order in which the stages follow each other. *)
Definition stageRank (s : Page.ProcessingStage) : nat :=
  match s with
  | Page.idle => 0
  | Page.loading => 1
  | Page.analyzing => 2
  | Page.creating => 3
  | Page.complete => 4
  end.

(** The ranges in which the features that [predictEnergyLevel] reads lie
    for audio in [-1 .. 1]: an RMS in [0 .. 1], the tempo of
    [estimateTempo] in [60 .. 180], and non-negative centroid,
    zero-crossing rate, peak and beat strength. *)
Definition featuresInRange (features : list Q) : Prop :=
  0 <= EnergyDetector.feat features 0 /\ EnergyDetector.feat features 0 <= 1
  /\ 0 <= EnergyDetector.feat features 1
  /\ 0 <= EnergyDetector.feat features 2
  /\ 60 <= EnergyDetector.feat features 5 /\ EnergyDetector.feat features 5 <= 180
  /\ 0 <= EnergyDetector.feat features 6
  /\ 0 <= EnergyDetector.feat features 9.

(** A loud, fast and noisy track. *)
Definition loudFeatures : list Q :=
  [8 # 10; 3000; 2 # 10; 5000; 2000; 180; 1; 2; 1 # 100; 4 # 10] ++ repeat 0 15.

(** Position [i] of [array] exceeds both its neighbours. *)
Definition isPeak (array : list Q) (i : nat) : Prop :=
  nth (i - 1) array 0 < nth i array 0 /\ nth (i + 1) array 0 < nth i array 0.

(** A list of mix points with the best score first. *)
Definition bestFirst (l : list MixPoint) : Prop :=
  Sorted (fun a b => score b <= score a) l.

(** The score [findMixPoints] gives to a pair of candidates. *)
Definition pairScore (p1 p2 : MixPoint) : Q :=
  (1 - JS.abs (energy p1 - energy p2)) * score p1 * score p2.

(** A buffer that announces two frames but holds one sample. *)
Definition shortChannel : AudioBuffer :=
  {| channelData := [[1 # 2]]; sampleRate := 8000; length := 2 |}.

(** A buffer with samples outside of [-1 .. 1]. *)
Definition hotBuffer : AudioBuffer :=
  {| channelData := [[3 # 2; -2; 1 # 3]]; sampleRate := 8000; length := 3 |}.

(** Every sample of the buffer lies in [-1 .. 1]. *)
Definition withinUnit (b : AudioBuffer) : Prop :=
  Forall (Forall (fun x => -1 <= x /\ x <= 1)) (channelData b).

(** Beats every [d] samples from [b0] on. *)
Definition regularBeats (b0 d : Z) (n : nat) : list Z :=
  map (fun k => (b0 + Z.of_nat k * d)%Z) (seq 0 n).

(** * Properties *)

(** ** Binary64 rounding *)

Lemma pow2_pos (e : Z) : 0 < F64.pow2 e.
Proof. unfold F64.pow2. apply Qpower_0_lt. reflexivity. Qed.

Lemma pow2_add (a b : Z) : F64.pow2 (a + b) == F64.pow2 a * F64.pow2 b.
Proof. unfold F64.pow2. apply Qpower_plus. discriminate. Qed.

Lemma pow2_nonneg_inject (n : Z) : (0 <= n)%Z -> F64.pow2 n == inject_Z (2 ^ n).
Proof.
  intro H. unfold F64.pow2. rewrite Zpower_Qpower by exact H. reflexivity.
Qed.

Lemma pow2_ge_1 (n : Z) : (0 <= n)%Z -> 1 <= F64.pow2 n.
Proof.
  intro H. rewrite (pow2_nonneg_inject n H).
  change 1 with (inject_Z 1). rewrite <- Zle_Qle.
  pose proof (Z.pow_pos_nonneg 2 n ltac:(lia) H). lia.
Qed.

Lemma pow2_le (a b : Z) : (a <= b)%Z -> F64.pow2 a <= F64.pow2 b.
Proof.
  intro H. replace b with (a + (b - a))%Z by lia. rewrite pow2_add.
  pose proof (pow2_pos a). pose proof (pow2_ge_1 (b - a) ltac:(lia)). nra.
Qed.

Lemma pow2_opp (a : Z) : F64.pow2 a * F64.pow2 (- a) == 1.
Proof. rewrite <- pow2_add. replace (a + - a)%Z with 0%Z by lia. reflexivity. Qed.

Lemma div_pow2 (x : Q) (e : Z) : x / F64.pow2 e == x * F64.pow2 (- e).
Proof. unfold F64.pow2, Qdiv. rewrite Qpower_opp. reflexivity. Qed.

(** *** The exponent *)

Lemma ilog2_lower (q : Q) : 0 < q -> F64.pow2 (F64.ilog2 q) <= q.
Proof.
  intro Hq. unfold F64.ilog2.
  set (l := (Z.log2 (Qnum q) - Z.log2 (Z.pos (Qden q)))%Z).
  destruct (Qle_bool (F64.pow2 l) q) eqn:E.
  - apply Qle_bool_iff, E.
  - destruct q as [n d]. cbn [Qnum Qden] in l.
    assert (Hn : (0 < n)%Z).
    { unfold Qlt in Hq. cbn in Hq. lia. }
    destruct (Z.log2_spec n Hn) as [Hn1 _].
    destruct (Z.log2_spec (Z.pos d) ltac:(lia)) as [_ Hd2].
    pose proof (Z.log2_nonneg n) as Ha. pose proof (Z.log2_nonneg (Z.pos d)) as Hb.
    replace (l - 1)%Z with (Z.log2 n + - (Z.succ (Z.log2 (Z.pos d))))%Z
      by (unfold l; lia).
    rewrite pow2_add, <- div_pow2.
    rewrite (pow2_nonneg_inject _ Ha), (pow2_nonneg_inject (Z.succ _)) by lia.
    apply Qle_shift_div_r.
    + change 0 with (inject_Z 0). rewrite <- Zlt_Qlt. lia.
    + pose proof (Z.pow_nonneg 2 (Z.log2 n) ltac:(lia)) as HA.
      revert Hn1 Hd2 HA.
      generalize (2 ^ Z.log2 n)%Z (2 ^ Z.succ (Z.log2 (Z.pos d)))%Z.
      intros A B Hn1 Hd2 HA.
      unfold Qle, Qmult, inject_Z. cbn [Qnum Qden].
      rewrite Pos.mul_1_r, !Z.mul_1_r. nia.
Qed.

Lemma ulpExp_min (q : Q) : (-1074 <= F64.ulpExp q)%Z.
Proof. unfold F64.ulpExp. lia. Qed.

Lemma ulpExp_normal (q : Q) :
  ~ q == 0 -> (-1074 < F64.ulpExp q)%Z -> F64.pow2 (52 + F64.ulpExp q) <= Qabs q.
Proof.
  unfold F64.ulpExp. intros Hq H.
  assert (E : Z.max (-1074) (F64.ilog2 (Qabs q) - 52) = (F64.ilog2 (Qabs q) - 52)%Z)
    by lia.
  rewrite E. replace (52 + (F64.ilog2 (Qabs q) - 52))%Z with (F64.ilog2 (Qabs q)) by lia.
  apply ilog2_lower.
  destruct (Qlt_le_dec 0 (Qabs q)) as [Hp | Hz]; [exact Hp|].
  exfalso. apply Hq.
  revert Hz. apply Qabs_case; intros; lra.
Qed.

(** *** Rounding to the nearest integer, halves to even *)

Lemma rne_cases (x : Q) :
  F64.rne x = Qfloor x \/ (F64.rne x = (Qfloor x + 1)%Z /\ (1 # 2) <= x - inject_Z (Qfloor x)).
Proof.
  unfold F64.rne.
  destruct (Qcompare_spec (x - inject_Z (Qfloor x)) (1 # 2)) as [E | E | E].
  - destruct (Z.even (Qfloor x)); [left; reflexivity | right; split; [reflexivity | lra]].
  - left; reflexivity.
  - right; split; [reflexivity | lra].
Qed.

Lemma rne_ge (x : Q) (m : Z) : inject_Z m <= x -> (m <= F64.rne x)%Z.
Proof.
  intro H. apply Qfloor_resp_le in H. rewrite Qfloor_Z in H.
  destruct (rne_cases x) as [E | [E _]]; rewrite E; lia.
Qed.

Lemma rne_le (x : Q) (m : Z) : x <= inject_Z m -> (F64.rne x <= m)%Z.
Proof.
  intro H. pose proof (Qfloor_resp_le _ _ H) as Hf. rewrite Qfloor_Z in Hf.
  destruct (rne_cases x) as [E | [E Hh]]; rewrite E; [lia|].
  assert (Hlt : (Qfloor x < m)%Z).
  { apply Z.le_neq. split; [exact Hf|]. intro Em. rewrite Em in Hh. lra. }
  lia.
Qed.

Lemma rne_near (x : Q) : Qabs (inject_Z (F64.rne x) - x) <= 1 # 2.
Proof.
  pose proof (Qfloor_le x) as H1. pose proof (Qlt_floor x) as H2.
  rewrite inject_Z_plus in H2. change (inject_Z 1) with 1 in H2.
  apply Qabs_Qle_condition.
  unfold F64.rne.
  destruct (Qcompare_spec (x - inject_Z (Qfloor x)) (1 # 2)) as [E | E | E].
  - destruct (Z.even (Qfloor x)).
    + split; lra.
    + rewrite inject_Z_plus. change (inject_Z 1) with 1. split; lra.
  - split; lra.
  - rewrite inject_Z_plus. change (inject_Z 1) with 1. split; lra.
Qed.

(** *** Rounding to binary64 *)

Lemma round_zero (q : Q) : q == 0 -> F64.round q == 0.
Proof.
  intro H. unfold F64.round.
  pose proof (pow2_pos (F64.ulpExp q)) as Hp.
  assert (E : F64.rne (q / F64.pow2 (F64.ulpExp q)) = 0%Z).
  { assert (Hz' : forall p, 0 < p -> q / p == 0)
      by (intros p Hp0; rewrite H; field; lra).
    pose proof (Hz' _ Hp) as Hz.
    apply Z.le_antisymm.
    - apply rne_le. rewrite Hz. apply Qle_refl.
    - apply rne_ge. rewrite Hz. apply Qle_refl. }
  rewrite E. ring.
Qed.

Lemma round_half_ulp (q : Q) :
  Qabs (F64.round q - q) <= F64.pow2 (F64.ulpExp q) * (1 # 2).
Proof.
  unfold F64.round.
  pose proof (pow2_pos (F64.ulpExp q)) as Hp.
  pose proof (rne_near (q / F64.pow2 (F64.ulpExp q))) as Hn.
  set (p := F64.pow2 (F64.ulpExp q)) in *.
  set (r := inject_Z (F64.rne (q / p))) in *.
  assert (E : r * p - q == (r - q / p) * p) by (field; lra).
  rewrite E, Qabs_Qmult, (Qabs_pos p) by lra.
  rewrite (Qmult_comm p). apply Qmult_le_compat_r; [exact Hn | lra].
Qed.

Lemma round_near (q : Q) :
  Qabs (F64.round q - q) <= Qabs q * F64.pow2 (-53) + F64.pow2 (-1075).
Proof.
  destruct (Qeq_dec q 0) as [Hz | Hnz].
  - assert (E : F64.round q - q == 0) by (pose proof (round_zero q Hz); lra).
    rewrite E. pose proof (pow2_pos (-53)). pose proof (pow2_pos (-1075)).
    pose proof (Qabs_nonneg q). change (Qabs 0) with 0. nra.
  - pose proof (round_half_ulp q) as Hh.
    pose proof (Qabs_nonneg q) as Ha.
    pose proof (pow2_pos (-53)) as H53. pose proof (pow2_pos (-1075)) as H1075.
    assert (Hhalf : forall e, F64.pow2 e * (1 # 2) == F64.pow2 (e + -1)).
    { intro e. rewrite pow2_add. reflexivity. }
    destruct (Z.eq_dec (F64.ulpExp q) (-1074)) as [E | E].
    + rewrite E, Hhalf in Hh. change (-1074 + -1)%Z with (-1075)%Z in Hh. nra.
    + pose proof (ulpExp_min q).
      pose proof (ulpExp_normal q Hnz ltac:(lia)) as Hn.
      rewrite Hhalf in Hh.
      replace (F64.ulpExp q + -1)%Z with ((52 + F64.ulpExp q) + -53)%Z in Hh by lia.
      rewrite pow2_add in Hh.
      set (P := F64.pow2 (52 + F64.ulpExp q)) in *.
      assert (P * F64.pow2 (-53) <= Qabs q * F64.pow2 (-53)).
      { apply Qmult_le_compat_r; [exact Hn | lra]. }
      lra.
Qed.

Lemma repr_scale (m e e' : Z) :
  (e' <= e)%Z ->
  inject_Z m * F64.pow2 e == inject_Z (m * 2 ^ (e - e')) * F64.pow2 e'.
Proof.
  intro H. rewrite inject_Z_mult, <- (pow2_nonneg_inject (e - e')) by lia.
  rewrite <- Qmult_assoc, <- pow2_add.
  replace (e - e' + e')%Z with e by lia. reflexivity.
Qed.

Lemma repr_small (c : Q) (m e e' : Z) :
  (Z.abs m <= 2 ^ 53)%Z -> c == inject_Z m * F64.pow2 e -> (e < e')%Z ->
  Qabs c <= F64.pow2 (52 + e').
Proof.
  intros Hm Hc He. rewrite Hc, Qabs_Qmult.
  pose proof (pow2_pos e) as Hp. rewrite (Qabs_pos (F64.pow2 e)) by lra.
  assert (Ha : Qabs (inject_Z m) <= F64.pow2 53).
  { rewrite (pow2_nonneg_inject 53) by lia.
    apply Qabs_Qle_condition. rewrite <- inject_Z_opp, <- !Zle_Qle. lia. }
  eapply Qle_trans.
  - apply Qmult_le_compat_r; [exact Ha | lra].
  - rewrite <- pow2_add. apply pow2_le. lia.
Qed.

Lemma scaled_ge (x : Q) (m e : Z) :
  inject_Z m * F64.pow2 e <= x -> inject_Z m <= x / F64.pow2 e.
Proof. intro H. pose proof (pow2_pos e). apply Qle_shift_div_l; assumption. Qed.

Lemma scaled_le (x : Q) (m e : Z) :
  x <= inject_Z m * F64.pow2 e -> x / F64.pow2 e <= inject_Z m.
Proof. intro H. pose proof (pow2_pos e). apply Qle_shift_div_r; assumption. Qed.

Lemma round_ge_scaled (x : Q) (m : Z) :
  inject_Z m * F64.pow2 (F64.ulpExp x) <= x ->
  inject_Z m * F64.pow2 (F64.ulpExp x) <= F64.round x.
Proof.
  intro H. unfold F64.round. pose proof (pow2_pos (F64.ulpExp x)).
  apply Qmult_le_compat_r; [|lra].
  rewrite <- Zle_Qle. apply rne_ge, scaled_ge, H.
Qed.

Lemma round_le_scaled (x : Q) (m : Z) :
  x <= inject_Z m * F64.pow2 (F64.ulpExp x) ->
  F64.round x <= inject_Z m * F64.pow2 (F64.ulpExp x).
Proof.
  intro H. unfold F64.round. pose proof (pow2_pos (F64.ulpExp x)).
  apply Qmult_le_compat_r; [|lra].
  rewrite <- Zle_Qle. apply rne_le, scaled_le, H.
Qed.

Lemma pow2_52_scaled (e : Z) :
  F64.pow2 (52 + e) == inject_Z (2 ^ 52) * F64.pow2 e.
Proof. rewrite pow2_add, (pow2_nonneg_inject 52) by lia. reflexivity. Qed.

(** A double below [x] stays below the rounding of [x], and a double above
    [x] stays above it. *)
Lemma round_ge_repr (c x : Q) : representable c -> c <= x -> c <= F64.round x.
Proof.
  intros (m & e & He & Hm & Hc) Hx.
  destruct (Z_le_gt_dec (F64.ulpExp x) e) as [Hle | Hgt].
  - rewrite Hc, (repr_scale m e (F64.ulpExp x) Hle) in *.
    apply round_ge_scaled, Hx.
  - pose proof (repr_small c m e (F64.ulpExp x) Hm Hc ltac:(lia)) as Hs.
    destruct (Qeq_dec x 0) as [Hz | Hnz].
    { rewrite (round_zero x Hz). lra. }
    pose proof (ulpExp_normal x Hnz ltac:(lia)) as Hn.
    rewrite pow2_52_scaled in Hs, Hn.
    destruct (Qlt_le_dec 0 x) as [Hpos | Hneg].
    + rewrite (Qabs_pos x) in Hn by lra.
      apply (Qle_trans _ (inject_Z (2 ^ 52) * F64.pow2 (F64.ulpExp x))).
      * pose proof (Qle_Qabs c). lra.
      * apply round_ge_scaled, Hn.
    + rewrite (Qabs_neg x) in Hn by exact Hneg.
      assert (Hcn : Qabs c == - c) by (apply Qabs_neg; lra).
      rewrite Hcn in Hs.
      assert (Ex : inject_Z (- 2 ^ 52) * F64.pow2 (F64.ulpExp x) <= x).
      { rewrite inject_Z_opp. lra. }
      apply (Qle_trans _ (inject_Z (- 2 ^ 52) * F64.pow2 (F64.ulpExp x))).
      * rewrite inject_Z_opp. lra.
      * apply round_ge_scaled, Ex.
Qed.

Lemma round_le_repr (c x : Q) : representable c -> x <= c -> F64.round x <= c.
Proof.
  intros (m & e & He & Hm & Hc) Hx.
  destruct (Z_le_gt_dec (F64.ulpExp x) e) as [Hle | Hgt].
  - rewrite Hc, (repr_scale m e (F64.ulpExp x) Hle) in *.
    apply round_le_scaled, Hx.
  - pose proof (repr_small c m e (F64.ulpExp x) Hm Hc ltac:(lia)) as Hs.
    destruct (Qeq_dec x 0) as [Hz | Hnz].
    { rewrite (round_zero x Hz). lra. }
    pose proof (ulpExp_normal x Hnz ltac:(lia)) as Hn.
    rewrite pow2_52_scaled in Hs, Hn.
    destruct (Qlt_le_dec x 0) as [Hneg | Hpos].
    + rewrite (Qabs_neg x) in Hn by lra.
      assert (Ex : x <= inject_Z (- 2 ^ 52) * F64.pow2 (F64.ulpExp x)).
      { rewrite inject_Z_opp. lra. }
      apply (Qle_trans _ (inject_Z (- 2 ^ 52) * F64.pow2 (F64.ulpExp x))).
      * apply round_le_scaled, Ex.
      * rewrite inject_Z_opp. pose proof (Qle_Qabs (- c)). rewrite Qabs_opp in *. lra.
    + rewrite (Qabs_pos x) in Hn by exact Hpos.
      assert (Hcp : Qabs c == c) by (apply Qabs_pos; lra).
      rewrite Hcp in Hs.
      apply (Qle_trans _ (inject_Z (2 ^ 52) * F64.pow2 (F64.ulpExp x))).
      * apply round_le_scaled. lra.
      * lra.
Qed.

Lemma round_repr (c : Q) : representable c -> F64.round c == c.
Proof.
  intro H. apply Qle_antisym.
  - apply round_le_repr; [exact H | apply Qle_refl].
  - apply round_ge_repr; [exact H | apply Qle_refl].
Qed.

Lemma representable_int (z : Z) : (Z.abs z <= 2 ^ 53)%Z -> representable (inject_Z z).
Proof.
  intro H. exists z, 0%Z. split; [lia|]. split; [exact H|].
  change (F64.pow2 0) with 1. ring.
Qed.

(** *** Monotonicity *)

Lemma ilog2_upper (q : Q) : 0 < q -> q < F64.pow2 (F64.ilog2 q + 1).
Proof.
  intro Hq. unfold F64.ilog2.
  set (l := (Z.log2 (Qnum q) - Z.log2 (Z.pos (Qden q)))%Z).
  destruct (Qle_bool (F64.pow2 l) q) eqn:E.
  - destruct q as [n d]. cbn [Qnum Qden] in l.
    assert (Hn : (0 < n)%Z).
    { unfold Qlt in Hq. cbn in Hq. lia. }
    destruct (Z.log2_spec n Hn) as [_ Hn2].
    destruct (Z.log2_spec (Z.pos d) ltac:(lia)) as [Hd1 _].
    pose proof (Z.log2_nonneg n) as Ha. pose proof (Z.log2_nonneg (Z.pos d)) as Hb.
    replace (l + 1)%Z with (Z.succ (Z.log2 n) + - Z.log2 (Z.pos d))%Z
      by (unfold l; lia).
    rewrite pow2_add, <- div_pow2.
    rewrite (pow2_nonneg_inject _ Hb), (pow2_nonneg_inject (Z.succ _)) by lia.
    pose proof (Z.pow_pos_nonneg 2 (Z.log2 (Z.pos d)) ltac:(lia) Hb) as HB.
    apply Qlt_shift_div_l.
    + change 0 with (inject_Z 0). rewrite <- Zlt_Qlt. exact HB.
    + revert Hn2 Hd1 HB.
      generalize (2 ^ Z.succ (Z.log2 n))%Z (2 ^ Z.log2 (Z.pos d))%Z.
      intros A B Hn2 Hd1 HB.
      unfold Qlt, Qmult, inject_Z. cbn [Qnum Qden].
      rewrite Pos.mul_1_r, !Z.mul_1_r. nia.
  - replace (l - 1 + 1)%Z with l by lia.
    apply Qnot_le_lt. intro H. apply Qle_bool_iff in H. congruence.
Qed.

Lemma Qabs_pos_lt (q : Q) : ~ q == 0 -> 0 < Qabs q.
Proof.
  intro H. destruct (Qlt_le_dec 0 (Qabs q)) as [Hp | Hz]; [exact Hp|].
  exfalso. apply H. revert Hz. apply Qabs_case; intros; lra.
Qed.

Lemma ulpExp_upper (q : Q) : ~ q == 0 -> Qabs q < F64.pow2 (53 + F64.ulpExp q).
Proof.
  intro Hq. eapply Qlt_le_trans.
  - apply ilog2_upper, Qabs_pos_lt, Hq.
  - apply pow2_le. unfold F64.ulpExp. lia.
Qed.

Lemma rne_mono (x y : Q) : x <= y -> (F64.rne x <= F64.rne y)%Z.
Proof.
  intro Hxy.
  destruct (Qlt_le_dec y (inject_Z (F64.rne x))) as [Hlt | Hle];
    [|apply rne_ge, Hle].
  pose proof (Qfloor_le x) as Hx1. pose proof (Qlt_floor x) as Hx2.
  pose proof (Qfloor_le y) as Hy1. pose proof (Qlt_floor y) as Hy2.
  rewrite inject_Z_plus in Hx2, Hy2. change (inject_Z 1) with 1 in Hx2, Hy2.
  destruct (rne_cases x) as [E | [E Hh]]; rewrite E in Hlt; [lra|].
  rewrite inject_Z_plus in Hlt. change (inject_Z 1) with 1 in Hlt.
  assert (Hf : Qfloor y = Qfloor x).
  { pose proof (Qfloor_resp_le _ _ Hxy) as Hm.
    assert (Hy3 : inject_Z (Qfloor y) < inject_Z (Qfloor x + 1)).
    { rewrite inject_Z_plus. change (inject_Z 1) with 1. lra. }
    rewrite <- Zlt_Qlt in Hy3. lia. }
  unfold F64.rne in E |- *. rewrite Hf.
  destruct (Qcompare_spec (x - inject_Z (Qfloor x)) (1 # 2)) as [Ex | Ex | Ex];
  destruct (Qcompare_spec (y - inject_Z (Qfloor x)) (1 # 2)) as [Ey | Ey | Ey];
    try lra; try lia; destruct (Z.even (Qfloor x)); lia.
Qed.

Lemma pow2_53_scaled (e : Z) :
  F64.pow2 (53 + e) == inject_Z (2 ^ 53) * F64.pow2 e.
Proof. rewrite pow2_add, (pow2_nonneg_inject 53) by lia. reflexivity. Qed.

(** Rounding preserves the order. *)
Lemma round_le (x y : Q) : x <= y -> F64.round x <= F64.round y.
Proof.
  intro Hxy.
  assert (R0 : representable 0).
  { exists 0%Z, 0%Z. split; [lia | split; [lia | reflexivity]]. }
  destruct (Z.eq_dec (F64.ulpExp x) (F64.ulpExp y)) as [Ee | Ene].
  - unfold F64.round. rewrite Ee. pose proof (pow2_pos (F64.ulpExp y)) as Hp.
    apply Qmult_le_compat_r; [|lra].
    rewrite <- Zle_Qle. apply rne_mono.
    apply Qmult_le_compat_r; [exact Hxy|].
    apply Qlt_le_weak, Qinv_lt_0_compat, Hp.
  - pose proof (ulpExp_min x) as Hmx. pose proof (ulpExp_min y) as Hmy.
    destruct (Qlt_le_dec 0 x) as [Hx | Hx].
    + (* 0 < x <= y *)
      assert (Hxn : ~ x == 0) by lra. assert (Hyn : ~ y == 0) by lra.
      pose proof (ulpExp_upper x Hxn) as Ux. pose proof (ulpExp_upper y Hyn) as Uy.
      rewrite Qabs_pos in Ux, Uy by lra.
      assert (Hlt : (F64.ulpExp x < F64.ulpExp y)%Z).
      { destruct (Z_lt_ge_dec (F64.ulpExp x) (F64.ulpExp y)) as [H | H]; [exact H|].
        exfalso.
        pose proof (ulpExp_normal x Hxn ltac:(lia)) as Nx.
        rewrite Qabs_pos in Nx by lra.
        pose proof (pow2_le (53 + F64.ulpExp y) (52 + F64.ulpExp x) ltac:(lia)).
        lra. }
      pose proof (ulpExp_normal y Hyn ltac:(lia)) as Ny.
      rewrite Qabs_pos in Ny by lra.
      rewrite pow2_53_scaled in Ux. rewrite pow2_52_scaled in Ny.
      apply (Qle_trans _ (inject_Z (2 ^ 53) * F64.pow2 (F64.ulpExp x))).
      { apply round_le_scaled. lra. }
      apply (Qle_trans _ (inject_Z (2 ^ 52) * F64.pow2 (F64.ulpExp y))).
      { rewrite <- pow2_53_scaled, <- pow2_52_scaled. apply pow2_le. lia. }
      apply round_ge_scaled, Ny.
    + destruct (Qlt_le_dec y 0) as [Hy | Hy].
      * (* x <= y < 0 *)
        assert (Hxn : ~ x == 0) by lra. assert (Hyn : ~ y == 0) by lra.
        pose proof (ulpExp_upper x Hxn) as Ux. pose proof (ulpExp_upper y Hyn) as Uy.
        rewrite Qabs_neg in Ux, Uy by lra.
        assert (Hlt : (F64.ulpExp y < F64.ulpExp x)%Z).
        { destruct (Z_lt_ge_dec (F64.ulpExp y) (F64.ulpExp x)) as [H | H]; [exact H|].
          exfalso.
          pose proof (ulpExp_normal y Hyn ltac:(lia)) as Nyy.
          rewrite Qabs_neg in Nyy by lra.
          pose proof (pow2_le (53 + F64.ulpExp x) (52 + F64.ulpExp y) ltac:(lia)).
          lra. }
        pose proof (ulpExp_normal x Hxn ltac:(lia)) as Nx.
        rewrite Qabs_neg in Nx by lra.
        rewrite pow2_53_scaled in Uy. rewrite pow2_52_scaled in Nx.
        apply (Qle_trans _ (inject_Z (- 2 ^ 52) * F64.pow2 (F64.ulpExp x))).
        { apply round_le_scaled. rewrite inject_Z_opp. lra. }
        apply (Qle_trans _ (inject_Z (- 2 ^ 53) * F64.pow2 (F64.ulpExp y))).
        { rewrite !inject_Z_opp.
          pose proof (pow2_le (53 + F64.ulpExp y) (52 + F64.ulpExp x) ltac:(lia)) as Hp.
          rewrite pow2_53_scaled, pow2_52_scaled in Hp. lra. }
        apply round_ge_scaled. rewrite inject_Z_opp. lra.
      * apply (Qle_trans _ 0).
        -- apply round_le_repr; assumption.
        -- apply round_ge_repr; assumption.
Qed.

(** On the operands of [Machine.operands], among them the products and
    quotients on which the indices of the program depend, the operations of
    [F64] give the results of the machine. *)
Example F64_agrees_with_machine :
  forallb
    (fun p =>
       let '(n, d, k) := p in
       let x := PrimFloat.div (Machine.ofZ n) (Machine.ofZ d) in
       let y := Machine.ofZ k in
       match Machine.toQ x with
       | Some qx =>
           Machine.agree (F64.div (inject_Z n) (inject_Z d)) x
           && Machine.agree (F64.mul qx (inject_Z k)) (PrimFloat.mul x y)
           && Machine.agree (F64.add qx (inject_Z k)) (PrimFloat.add x y)
           && Machine.agree (F64.sub qx (inject_Z k)) (PrimFloat.sub x y)
           && Machine.agree (F64.div (inject_Z k) qx) (PrimFloat.div y x)
       | None => false
       end)
    Machine.operands
  = true.
Proof. vm_compute. reflexivity. Qed.

(** ** Comparisons and clamps *)

Lemma JS_gt_spec a b : JS.gt a b = true <-> b < a.
Proof.
  unfold JS.gt. rewrite negb_true_iff. split; intro H.
  - apply Qnot_le_lt. intro L. apply Qle_bool_iff in L. congruence.
  - destruct (Qle_bool a b) eqn:E; [|reflexivity].
    apply Qle_bool_iff in E. exfalso. apply (Qlt_not_le _ _ H E).
Qed.

Lemma JS_gt_false a b : JS.gt a b = false <-> a <= b.
Proof.
  unfold JS.gt. rewrite negb_false_iff. apply Qle_bool_iff.
Qed.

Lemma JS_lt_spec a b : JS.lt a b = true <-> a < b.
Proof. unfold JS.lt. apply (JS_gt_spec b a). Qed.


Lemma JS_le_spec a b : JS.le a b = true <-> a <= b.
Proof. unfold JS.le. apply Qle_bool_iff. Qed.

Lemma JS_min_le_l a b : JS.min a b <= a.
Proof. apply Q.le_min_l. Qed.

Lemma JS_min_le_r a b : JS.min a b <= b.
Proof. apply Q.le_min_r. Qed.

Lemma JS_max_ge_l a b : a <= JS.max a b.
Proof. apply Q.le_max_l. Qed.

Lemma JS_max_ge_r a b : b <= JS.max a b.
Proof. apply Q.le_max_r. Qed.

Lemma JS_div_nonzero a b : ~ b == 0 -> JS.div a b = Some (a / b).
Proof.
  intro H. unfold JS.div. destruct (Qeq_bool b 0) eqn:E; [|reflexivity].
  apply Qeq_bool_iff in E. contradiction.
Qed.

Lemma JS_div_some a b q : JS.div a b = Some q -> ~ b == 0 /\ q = a / b.
Proof.
  unfold JS.div. destruct (Qeq_bool b 0) eqn:E; [discriminate|].
  intro H. injection H as <-. split; [|reflexivity].
  intro Hb. apply Qeq_bool_iff in Hb. congruence.
Qed.

(** ** The five-category classifier *)

Lemma scores_shape (features : list Q) :
  exists a b c d e, EnergyDetector.scores features = [a; b; c; d; e].
Proof. unfold EnergyDetector.scores. repeat eexists. Qed.

(** Case split on the innermost undecided comparison. *)
Ltac split_gt :=
  repeat match goal with
  | |- context [JS.gt ?x ?y] =>
      is_var x; is_var y;
      let E := fresh "E" in
      destruct (JS.gt x y) eqn:E;
      [apply JS_gt_spec in E | apply JS_gt_false in E]; cbn [fst snd nth]
  end.

(** The scan returns the first position of the largest score. *)
Lemma findBest_spec (a b c d e : Q) :
  let sc := [a; b; c; d; e] in
  let best := EnergyDetector.findBest sc in
  (fst best < 5)%nat
  /\ snd best = nth (fst best) sc 0
  /\ a <= snd best /\ b <= snd best /\ c <= snd best
  /\ d <= snd best /\ e <= snd best.
Proof.
  cbv zeta. unfold EnergyDetector.findBest, EnergyDetector.bestStep.
  cbn [fold_left nth fst snd].
  split_gt; repeat split; try lia; try reflexivity; try lra.
Qed.

Lemma findBest_first (a b c d e : Q) (i : nat) :
  let sc := [a; b; c; d; e] in
  let best := EnergyDetector.findBest sc in
  (i < fst best)%nat -> nth i sc 0 < snd best.
Proof.
  cbv zeta. unfold EnergyDetector.findBest, EnergyDetector.bestStep.
  cbn [fold_left nth fst snd].
  split_gt; intro Hi; destruct i as [|[|[|[|i]]]]; cbn [nth]; try lia; lra.
Qed.

Lemma quotient_nonzero (s t : Q) :
  ~ t == 0 -> EnergyDetector.quotient s t = Some (F64.div s t).
Proof.
  intro H. unfold EnergyDetector.quotient.
  destruct (Qeq_bool t 0) eqn:E; [|reflexivity].
  apply Qeq_bool_iff in E. contradiction.
Qed.

Lemma quotient_zero (s t : Q) : t == 0 -> EnergyDetector.quotient s t = None.
Proof.
  intro H. unfold EnergyDetector.quotient.
  apply Qeq_bool_iff in H. rewrite H. reflexivity.
Qed.

Lemma Qdiv_le_mono (x y t : Q) : 0 < t -> x <= y -> x / t <= y / t.
Proof.
  intros Ht Hxy. unfold Qdiv. apply Qmult_le_compat_r; [exact Hxy|].
  apply Qlt_le_weak, Qinv_lt_0_compat, Ht.
Qed.

Lemma F64_div_mono (x y t : Q) : 0 < t -> x <= y -> F64.div x t <= F64.div y t.
Proof. intros Ht Hxy. apply round_le, Qdiv_le_mono; assumption. Qed.

(** With a positive total, the largest probability is the one of the
    winner: its score divided by the total. *)
Lemma probMax_normalize (a b c d e : Q) :
  let sc := [a; b; c; d; e] in
  0 < EnergyDetector.totalScore sc ->
  exists m, probMax (EnergyDetector.normalize sc) = Some m
            /\ m == F64.div (snd (EnergyDetector.findBest sc))
                            (EnergyDetector.totalScore sc).
Proof.
  cbv zeta. intro Ht.
  assert (Hnz : ~ EnergyDetector.totalScore [a; b; c; d; e] == 0) by lra.
  destruct (findBest_spec a b c d e) as (Hk & Hbest & Ha & Hb & Hc & Hd & He).
  cbv zeta in *.
  set (t := EnergyDetector.totalScore [a; b; c; d; e]) in *.
  set (best := EnergyDetector.findBest [a; b; c; d; e]) in *.
  unfold EnergyDetector.normalize. fold t.
  cbn [seq combine map fst snd].
  rewrite !quotient_nonzero by exact Hnz.
  cbn [probMax]. eexists. split; [reflexivity|].
  apply Qle_antisym.
  - repeat apply Q.max_lub; apply F64_div_mono; assumption.
  - rewrite Hbest.
    destruct (fst best) as [|[|[|[|[|k]]]]]; cbn [nth]; try lia.
    + apply Q.le_max_l.
    + eapply Qle_trans; [|apply Q.le_max_r]. apply Q.le_max_l.
    + eapply Qle_trans; [|apply Q.le_max_r].
      eapply Qle_trans; [|apply Q.le_max_r]. apply Q.le_max_l.
    + eapply Qle_trans; [|apply Q.le_max_r].
      eapply Qle_trans; [|apply Q.le_max_r].
      eapply Qle_trans; [|apply Q.le_max_r]. apply Q.le_max_l.
    + eapply Qle_trans; [|apply Q.le_max_r].
      eapply Qle_trans; [|apply Q.le_max_r].
      eapply Qle_trans; [|apply Q.le_max_r]. apply Q.le_max_r.
Qed.

(** *** The rounding errors of the normalization *)

(** One rounding moves a number by at most [1e-15] of a bound on its
    magnitude, plus [1e-20] (far more than the quantum of the format). *)
Lemma round_err (x X : Q) :
  Qabs x <= X ->
  - ((1 # 1000000000000000) * X + (1 # 100000000000000000000))
    <= F64.round x - x
  /\ F64.round x - x
     <= (1 # 1000000000000000) * X + (1 # 100000000000000000000).
Proof.
  intro HX. apply Qabs_Qle_condition.
  eapply Qle_trans; [apply round_near|].
  assert (Hu : F64.pow2 (-53) <= 1 # 1000000000000000)
    by (vm_compute; discriminate).
  assert (He : F64.pow2 (-1075) <= 1 # 100000000000000000000)
    by (vm_compute; discriminate).
  pose proof (pow2_pos (-53)). pose proof (Qabs_nonneg x). nra.
Qed.

Lemma Qabs_bounds (x : Q) : - Qabs x <= x /\ x <= Qabs x.
Proof. apply Qabs_Qle_condition, Qle_refl. Qed.

Lemma Qabs_le_of_bounds (x B : Q) : - B <= x -> x <= B -> Qabs x <= B.
Proof. intros H1 H2. apply Qabs_Qle_condition. split; assumption. Qed.

(** The rounded sum of two numbers, against bounds on their magnitudes. *)
Lemma add_err (x y X Y : Q) :
  Qabs x <= X -> Qabs y <= Y ->
  let B := (1 # 1000000000000000) * (X + Y) + (1 # 100000000000000000000) in
  - B <= F64.add x y - (x + y) /\ F64.add x y - (x + y) <= B
  /\ Qabs (F64.add x y) <= X + Y + B.
Proof.
  intros HX HY. cbv zeta. unfold F64.add.
  assert (Hxy : Qabs (x + y) <= X + Y).
  { eapply Qle_trans; [apply Qabs_triangle|]. lra. }
  destruct (round_err (x + y) (X + Y) Hxy) as [H1 H2].
  split; [exact H1|]. split; [exact H2|].
  destruct (Qabs_bounds (x + y)) as [H3 H4].
  apply Qabs_le_of_bounds; lra.
Qed.

Lemma Qabs_div (x t : Q) : ~ t == 0 -> Qabs (x / t) == Qabs x / Qabs t.
Proof.
  intro Ht. unfold Qdiv. rewrite Qabs_Qmult, Qabs_Qinv. reflexivity.
Qed.

Lemma Qabs_div_le (x t K : Q) :
  ~ t == 0 -> Qabs x <= K * Qabs t -> Qabs (x / t) <= K.
Proof.
  intros Ht H. rewrite (Qabs_div x t Ht).
  apply Qle_shift_div_r; [apply Qabs_pos_lt, Ht | exact H].
Qed.

(** When the total is at least 0.001 in magnitude and the scores do not
    cancel (the sum of their magnitudes is at most 1000 times the magnitude
    of the total), the five quotients sum to 1 within [1e-6]. *)
Lemma probSum_normalize (a b c d e : Q) :
  let t := EnergyDetector.totalScore [a; b; c; d; e] in
  1 # 1000 <= Qabs t ->
  Qabs a + Qabs b + Qabs c + Qabs d + Qabs e <= 1000 * Qabs t ->
  exists s, probSum (EnergyDetector.normalize [a; b; c; d; e]) = Some s
            /\ Qabs (s - 1) <= 1 # 1000000.
Proof.
  cbv zeta. intros Ht Hc.
  set (t := EnergyDetector.totalScore [a; b; c; d; e]) in *.
  assert (Hnz : ~ t == 0).
  { intro Hz. rewrite Hz in Ht. vm_compute in Ht. apply Ht. reflexivity. }
  unfold EnergyDetector.normalize. fold t. cbn [seq combine map fst snd].
  rewrite !quotient_nonzero by exact Hnz.
  cbn [probSum]. eexists. split; [reflexivity|].
  (* the total against the exact sum *)
  assert (Et : Qabs (a + b + c + d + e - t)
               <= (1 # 100000000000000) * (Qabs a + Qabs b + Qabs c + Qabs d + Qabs e)
                  + (1 # 10000000000000000000)).
  { unfold t, EnergyDetector.totalScore. cbn [fold_left].
    pose proof (Qabs_nonneg a) as Na. pose proof (Qabs_nonneg b) as Nb.
    pose proof (Qabs_nonneg c) as Nc. pose proof (Qabs_nonneg d) as Nd.
    pose proof (Qabs_nonneg e) as Ne.
    assert (H0 : Qabs 0 <= 0) by (vm_compute; discriminate).
    destruct (add_err 0 a 0 (Qabs a) H0 (Qle_refl _)) as (L1 & U1 & B1).
    destruct (add_err _ b _ (Qabs b) B1 (Qle_refl _)) as (L2 & U2 & B2).
    destruct (add_err _ c _ (Qabs c) B2 (Qle_refl _)) as (L3 & U3 & B3).
    destruct (add_err _ d _ (Qabs d) B3 (Qle_refl _)) as (L4 & U4 & B4).
    destruct (add_err _ e _ (Qabs e) B4 (Qle_refl _)) as (L5 & U5 & _).
    cbv zeta in *. clear B1 B2 B3 B4.
    set (t1 := F64.add 0 a) in *. set (t2 := F64.add t1 b) in *.
    set (t3 := F64.add t2 c) in *. set (t4 := F64.add t3 d) in *.
    set (t5 := F64.add t4 e) in *.
    clearbody t1 t2 t3 t4 t5.
    generalize dependent (Qabs a). generalize dependent (Qabs b).
    generalize dependent (Qabs c). generalize dependent (Qabs d).
    generalize dependent (Qabs e). intros.
    apply Qabs_le_of_bounds; lra. }
  (* each quotient against the exact one *)
  assert (Hq : forall x, exists X,
             Qabs (x / t) == X /\ X * Qabs t == Qabs x
             /\ - ((1 # 1000000000000000) * X + (1 # 100000000000000000000))
                <= F64.div x t - x / t
             /\ F64.div x t - x / t
                <= (1 # 1000000000000000) * X + (1 # 100000000000000000000)).
  { intro x. exists (Qabs (x / t)). split; [reflexivity|]. split.
    - rewrite (Qabs_div x t Hnz). field. intro Hz.
      pose proof (Qabs_pos_lt t Hnz). lra.
    - apply (round_err (x / t)), Qle_refl. }
  destruct (Hq a) as (Xa & _ & Ea & La & Ua). destruct (Hq b) as (Xb & _ & Eb & Lb & Ub).
  destruct (Hq c) as (Xc & _ & Ec & Lc & Uc). destruct (Hq d) as (Xd & _ & Ed & Ld & Ud).
  destruct (Hq e) as (Xe & _ & Ee & Le & Ue). clear Hq.
  assert (HX : Xa + Xb + Xc + Xd + Xe <= 1000).
  { pose proof (Qabs_pos_lt t Hnz) as Hp.
    assert (H : (Xa + Xb + Xc + Xd + Xe) * Qabs t <= 1000 * Qabs t) by lra.
    apply Qmult_lt_0_le_reg_r in H; assumption. }
  assert (Hs : Qabs ((a + b + c + d + e - t) / t) <= 1 # 10000000).
  { apply Qabs_div_le; [exact Hnz|]. lra. }
  apply Qabs_Qle_condition in Hs. destruct Hs as [Ls Us].
  assert (Es : a / t + b / t + c / t + d / t + e / t - 1
               == (a + b + c + d + e - t) / t) by (field; exact Hnz).
  set (pa := F64.div a t) in *. set (pb := F64.div b t) in *.
  set (pc := F64.div c t) in *. set (pd := F64.div d t) in *.
  set (pe := F64.div e t) in *.
  clearbody pa pb pc pd pe.
  generalize dependent (a / t). generalize dependent (b / t).
  generalize dependent (c / t). generalize dependent (d / t).
  generalize dependent (e / t). generalize dependent ((a + b + c + d + e - t) / t).
  intros. apply Qabs_le_of_bounds; lra.
Qed.

(** C1 as stated fails: on [ordinaryFeatures] the classifier reports the
    winner's raw score, 0.745, as confidence, while the largest probability
    is 0.2395. *)
Lemma predictEnergyLevel_confidence_not_max_probability :
  List.length ordinaryFeatures = 25%nat
  /\ ~ (sumsToOne (1 # 1000000) (EnergyDetector.predictEnergyLevel ordinaryFeatures)
        /\ confidenceIsMaxProb (EnergyDetector.predictEnergyLevel ordinaryFeatures)).
Proof.
  split; [reflexivity|].
  intros [_ (m & Hm & Hc)].
  vm_compute in Hm. injection Hm as <-.
  vm_compute in Hc. discriminate Hc.
Qed.

(** Nor do the probabilities always sum to 1: with an RMS of 1.6 and every
    other feature at zero the five scores are 0.7, -0.7, -0.6, 0.3 and 0.3
    up to rounding; their binary64 sum is [-3 * 2^-53], not zero, and the
    five quotients, all finite, sum to 1.25. *)
Example predictEnergyLevel_cancelling_scores :
  let features := (16 # 10) :: repeat 0 24 in
  List.length features = 25%nat
  /\ EnergyDetector.totalScore (EnergyDetector.scores features)
     == - (3 # 9007199254740992)
  /\ exists s,
       probSum (probabilities (EnergyDetector.predictEnergyLevel features)) = Some s
       /\ s == 5 # 4.
Proof.
  cbv zeta. split; [reflexivity|]. split; [vm_compute; reflexivity|].
  eexists. split; [vm_compute; reflexivity|]. vm_compute. reflexivity.
Qed.

(** C1, amended: for a 25-slot feature vector the winner is the first
    category with the largest raw score, and the confidence is that raw
    score, not a probability; each probability is the binary64 quotient of a
    score by the total of the scores, a finite number when that total is not
    zero and none otherwise; with a positive total the largest probability
    is the one of the winner, the confidence divided by the total; and the
    probabilities sum to 1 within [1e-6] when the total is at least 0.001 in
    magnitude and the magnitudes of the scores add up to at most 1000 times
    that of the total (scores that cancel escape this, as above).  The
    features are at most [2^100] in magnitude and a total that is not zero
    at least [2^-900], which keeps every operation within the finite
    range. *)
Theorem predictEnergyLevel_normalized (features : list Q) :
  List.length features = 25%nat ->
  Forall (fun x => Qabs x <= F64.pow2 100) features ->
  let ea := EnergyDetector.predictEnergyLevel features in
  let sc := EnergyDetector.scores features in
  let total := EnergyDetector.totalScore sc in
  (class_id ea < 5)%nat
  /\ energy_level ea = EnergyDetector.levelName (class_id ea)
  /\ confidence ea = nth (class_id ea) sc 0
  /\ (forall i, (i < 5)%nat -> nth i sc 0 <= confidence ea)
  /\ (forall i, (i < class_id ea)%nat -> nth i sc 0 < confidence ea)
  /\ (F64.pow2 (-900) <= Qabs total ->
      probabilities ea
      = map (fun i => (EnergyDetector.levelName i,
                       Some (F64.div (nth i sc 0) total))) (seq 0 5))
  /\ (total == 0 ->
      probabilities ea
      = map (fun i => (EnergyDetector.levelName i, None)) (seq 0 5))
  /\ (F64.pow2 (-900) <= total ->
      exists m, probMax (probabilities ea) = Some m
                /\ m == F64.div (confidence ea) total)
  /\ (1 # 1000 <= Qabs total ->
      fold_right (fun s acc => Qabs s + acc) 0 sc <= 1000 * Qabs total ->
      sumsToOne (1 # 1000000) ea).
Proof.
  intros _ _. cbv zeta. unfold EnergyDetector.predictEnergyLevel.
  cbn [energy_level confidence class_id probabilities].
  destruct (scores_shape features) as (a & b & c & d & e & Hsc).
  rewrite Hsc in *.
  destruct (findBest_spec a b c d e) as (Hk & Hbest & Ha & Hb & Hc & Hd & He).
  cbv zeta in *.
  pose proof (pow2_pos (-900)) as Hp.
  split; [exact Hk|]. split; [reflexivity|]. split; [exact Hbest|].
  split; [|split; [|split; [|split; [|split]]]].
  - intros i Hi.
    destruct i as [|[|[|[|[|k]]]]]; cbn [nth]; try assumption; lia.
  - intros i Hi. apply (findBest_first a b c d e i Hi).
  - intro Hnz. unfold EnergyDetector.normalize.
    cbn [seq combine map fst snd nth].
    rewrite !quotient_nonzero; [reflexivity | | | | |];
      intro Hz; rewrite Hz in Hnz; change (Qabs 0) with 0 in Hnz; lra.
  - intro Hz. unfold EnergyDetector.normalize.
    cbn [seq combine map fst snd nth].
    rewrite !quotient_zero by exact Hz. reflexivity.
  - intro Hpos. apply (probMax_normalize a b c d e). cbv zeta. lra.
  - intros Ht Hcancel. cbn [fold_right] in Hcancel.
    apply (probSum_normalize a b c d e Ht). lra.
Qed.

Lemma predictEnergyLevel_normalized_witness :
  let ea := EnergyDetector.predictEnergyLevel ordinaryFeatures in
  sumsToOne (1 # 1000000) ea /\ (class_id ea = 2)%nat
  /\ confidence ea == 6710363444782039 # 9007199254740992.
Proof.
  assert (H25 : List.length ordinaryFeatures = 25%nat) by reflexivity.
  assert (Hb : Forall (fun x => Qabs x <= F64.pow2 100) ordinaryFeatures)
    by (repeat (constructor; [vm_compute; discriminate|]); constructor).
  destruct (predictEnergyLevel_normalized ordinaryFeatures H25 Hb)
    as (_ & _ & _ & _ & _ & _ & _ & _ & Hs).
  cbv zeta. split; [|split; vm_compute; reflexivity].
  apply Hs; vm_compute; discriminate.
Defined.

(** ** Malformed input to the classifiers *)

(** C2 as stated fails for the five-category [analyzeEnergy]: it has no
    guard, and on a buffer without channels the first statement of
    [extractFeatures] throws, whatever the feature extractor. *)
Lemma analyzeEnergy_unguarded_throws :
  malformed emptyBuffer
  /\ forall extract,
       ~ exists ea, EnergyDetector.analyzeEnergy extract emptyBuffer = Returns ea.
Proof.
  split.
  - left. reflexivity.
  - intros extract [ea H]. cbn in H. discriminate H.
Qed.

(** The guarded revision never lets an exception out. *)
Lemma analyzeEnergy_guarded_total (sqrt : Q -> Q) (b : AudioBuffer) :
  exists ea, EnergyDetectorGuarded.analyzeEnergy sqrt b = Returns ea.
Proof.
  unfold EnergyDetectorGuarded.analyzeEnergy.
  destruct (EnergyDetectorGuarded.analyzeBody sqrt b); eexists; reflexivity.
Qed.

(** C2, amended: the guarded three-category [analyzeEnergy] returns, on
    every malformed buffer, the fallback analysis: "Groove", the middle of
    its three categories, with confidence 0.5 and probabilities 0.33, 0.34
    and 0.33, which sum to 1. *)
Theorem analyzeEnergy_guarded_fallback (sqrt : Q -> Q) (b : AudioBuffer) :
  malformed b ->
  EnergyDetectorGuarded.analyzeEnergy sqrt b
    = Returns EnergyDetectorGuarded.fallback
  /\ energy_level EnergyDetectorGuarded.fallback
       = nth 1 EnergyDetectorGuarded.energyLevels ""%string
  /\ class_id EnergyDetectorGuarded.fallback = 1%nat
  /\ confidence EnergyDetectorGuarded.fallback == 1 # 2
  /\ sumsToOne 0 EnergyDetectorGuarded.fallback
  /\ (forall l p, In (l, Some p) (probabilities EnergyDetectorGuarded.fallback) ->
      Qabs (p - (1 # 3)) <= 1 # 100).
Proof.
  intro Hm. split; [|repeat split].
  - unfold EnergyDetectorGuarded.analyzeEnergy, EnergyDetectorGuarded.analyzeBody.
    destruct (length b =? 0)%nat eqn:El; [reflexivity|].
    destruct (numberOfChannels b =? 0)%nat eqn:Ec; [reflexivity|].
    destruct Hm as [Hm | [Hm | Hm]].
    + rewrite Hm in Ec. discriminate Ec.
    + rewrite Hm in El. discriminate El.
    + rewrite Hm. reflexivity.
  - eexists. split; [reflexivity|]. vm_compute. discriminate.
  - intros l p Hin. cbn in Hin.
    destruct Hin as [H | [H | [H | []]]]; injection H as _ <-;
      vm_compute; discriminate.
Qed.

Lemma analyzeEnergy_guarded_fallback_witness :
  EnergyDetectorGuarded.analyzeEnergy (fun x => x) emptyBuffer
    = Returns EnergyDetectorGuarded.fallback.
Proof.
  apply (analyzeEnergy_guarded_fallback (fun x => x) emptyBuffer).
  left. reflexivity.
Defined.

(** ** Stem splitter *)

Lemma nth_map_seq {A : Type} (g : nat -> A) (n i : nat) (d : A) :
  (i < n)%nat -> nth i (map g (seq 0 n)) d = g i.
Proof.
  intro Hi.
  rewrite (nth_indep _ d (g 0%nat)) by (rewrite length_map, length_seq; exact Hi).
  rewrite map_nth, seq_nth by exact Hi. reflexivity.
Qed.

Lemma nth_map_in {A B : Type} (f : A -> B) (l : list A) (c : nat) (d : B) (d' : A) :
  (c < List.length l)%nat -> nth c (map f l) d = f (nth c l d').
Proof.
  intro Hc.
  rewrite (nth_indep _ d (f d')) by (rewrite length_map; exact Hc).
  apply map_nth.
Qed.

(** C10: the two stems add up to the input, sample by sample, for a buffer
    with at least two channels, and have its shape; a mono buffer is
    returned as it is by both functions. *)
Theorem stems_reconstruct (b : AudioBuffer) :
  wf_buffer b ->
  ((2 <= numberOfChannels b)%nat ->
   numberOfChannels (AudioProcessorStems.extractVocals b) = numberOfChannels b
   /\ numberOfChannels (AudioProcessorStems.extractBeats b) = numberOfChannels b
   /\ length (AudioProcessorStems.extractVocals b) = length b
   /\ length (AudioProcessorStems.extractBeats b) = length b
   /\ forall c i, (c < numberOfChannels b)%nat -> (i < length b)%nat ->
        nth i (getChannelData (AudioProcessorStems.extractVocals b) c) 0
        + nth i (getChannelData (AudioProcessorStems.extractBeats b) c) 0
        == nth i (getChannelData b c) 0)
  /\ (numberOfChannels b = 1%nat ->
      AudioProcessorStems.extractVocals b = b
      /\ AudioProcessorStems.extractBeats b = b).
Proof.
  intros _. unfold AudioProcessorStems.extractVocals, AudioProcessorStems.extractBeats.
  split; intro Hc.
  - assert (E : (numberOfChannels b <? 2)%nat = false)
      by (apply Nat.ltb_ge; exact Hc).
    rewrite E. unfold numberOfChannels, getChannelData in *.
    cbn [channelData length]. rewrite !length_map.
    repeat split.
    intros c i Hlt Hi.
    rewrite (nth_map_in _ _ c [] []) by exact Hlt.
    rewrite (nth_map_in _ _ c [] []) by exact Hlt.
    rewrite !nth_map_seq by exact Hi. ring.
  - assert (E : (numberOfChannels b <? 2)%nat = true)
      by (apply Nat.ltb_lt; lia).
    rewrite E. split; reflexivity.
Qed.

Lemma stems_reconstruct_witness :
  nth 2 (getChannelData (AudioProcessorStems.extractVocals stereoBuffer) 1) 0
  + nth 2 (getChannelData (AudioProcessorStems.extractBeats stereoBuffer) 1) 0
  == -1.
Proof.
  assert (Hwf : wf_buffer stereoBuffer)
    by (repeat constructor).
  destruct (stems_reconstruct stereoBuffer Hwf) as [H _].
  assert (H2 : (2 <= numberOfChannels stereoBuffer)%nat) by (cbn; lia).
  destruct (H H2) as (_ & _ & _ & _ & Hsum).
  apply (Hsum 1%nat 2%nat); cbn; lia.
Defined.

(** ** Crossfader *)

Lemma floor_inject_mult (k sr : Z) :
  JS.floor (inject_Z k * inject_Z sr) = (k * sr)%Z.
Proof.
  unfold JS.floor. rewrite <- inject_Z_mult. apply Qfloor_Z.
Qed.

Lemma floor_nonneg (x : Q) : 0 <= x -> (0 <= JS.floor x)%Z.
Proof.
  intro H. unfold JS.floor. change 0%Z with (Qfloor 0).
  apply Qfloor_resp_le. exact H.
Qed.

Lemma representable_zero : representable 0.
Proof. exists 0%Z, 0%Z. split; [lia | split; [lia | reflexivity]]. Qed.

Lemma floor_mul_nonneg (a b : Q) : 0 <= a -> 0 <= b -> (0 <= JS.floor (F64.mul a b))%Z.
Proof.
  intros Ha Hb. apply floor_nonneg. unfold F64.mul.
  apply round_ge_repr; [apply representable_zero|].
  apply Qmult_le_0_compat; assumption.
Qed.

Lemma startSampleOf_nonneg (sr : Z) (p : MixPoint) :
  (0 <= sr)%Z -> 0 <= time p -> (0 <= startSampleOf sr p)%Z.
Proof.
  intros Hsr Ht. apply floor_mul_nonneg; [exact Ht|].
  change 0 with (inject_Z 0). rewrite <- Zle_Qle. exact Hsr.
Qed.

Lemma createMix_returns (b1 b2 : AudioBuffer) (p1 p2 : MixPoint) :
  (1 <= numberOfChannels b1)%nat -> (1 <= numberOfChannels b2)%nat ->
  (0 < sampleRate b1)%Z ->
  AudioProcessor.createMix b1 b2 p1 p2 =
  Returns
    {| AudioProcessor.mixedData :=
         map (fun channel =>
                map (fun i =>
                       AudioProcessor.mixSample
                         (getChannelData b1 (Nat.min channel (numberOfChannels b1 - 1)))
                         (getChannelData b2 (Nat.min channel (numberOfChannels b2 - 1)))
                         (startSampleOf (sampleRate b1) p1)
                         (startSampleOf (sampleRate b1) p2)
                         (20 * sampleRate b1)%Z (Z.of_nat i))
                    (seq 0 (Z.to_nat (20 * sampleRate b1))))
             (seq 0 (Nat.max (numberOfChannels b1) (numberOfChannels b2)));
       AudioProcessor.mixedRate := sampleRate b1;
       AudioProcessor.mixedLength := (20 * sampleRate b1)%Z |}.
Proof.
  intros H1 H2 Hsr. unfold AudioProcessor.createMix.
  change 20 with (inject_Z 20). rewrite floor_inject_mult.
  assert (E0 : (Nat.max (numberOfChannels b1) (numberOfChannels b2) =? 0)%nat = false)
    by (apply Nat.eqb_neq; lia).
  assert (E1 : (20 * sampleRate b1 <=? 0)%Z = false) by (apply Z.leb_gt; lia).
  assert (E2 : (numberOfChannels b1 =? 0)%nat = false) by (apply Nat.eqb_neq; lia).
  assert (E3 : (numberOfChannels b2 =? 0)%nat = false) by (apply Nat.eqb_neq; lia).
  rewrite E0, E1, E2, E3. reflexivity.
Qed.

(** C5: for two buffers with at least one channel each and a positive
    sample rate, [createMix] returns a buffer of [20 * sampleRate] frames,
    every channel of that size, with as many channels as the larger of the
    two inputs. *)
Theorem createMix_shape (b1 b2 : AudioBuffer) (p1 p2 : MixPoint) :
  (1 <= numberOfChannels b1)%nat -> (1 <= numberOfChannels b2)%nat ->
  (0 < sampleRate b1)%Z ->
  exists m,
    AudioProcessor.createMix b1 b2 p1 p2 = Returns m
    /\ AudioProcessor.mixedLength m = (20 * sampleRate b1)%Z
    /\ AudioProcessor.mixedRate m = sampleRate b1
    /\ List.length (AudioProcessor.mixedData m)
       = Nat.max (numberOfChannels b1) (numberOfChannels b2)
    /\ Forall (fun ch => Z.of_nat (List.length ch) = (20 * sampleRate b1)%Z)
              (AudioProcessor.mixedData m).
Proof.
  intros H1 H2 Hsr. eexists. split; [apply createMix_returns; assumption|].
  cbn [AudioProcessor.mixedLength AudioProcessor.mixedRate AudioProcessor.mixedData].
  repeat split.
  - rewrite length_map, length_seq. reflexivity.
  - apply Forall_forall. intros ch Hin. apply in_map_iff in Hin.
    destruct Hin as (c & <- & _). rewrite length_map, length_seq. lia.
Qed.

Lemma createMix_shape_witness :
  exists m,
    AudioProcessor.createMix monoTrack stereoTrack (pointAt 1) (pointAt (1 # 2))
      = Returns m
    /\ AudioProcessor.mixedLength m = 40%Z
    /\ List.length (AudioProcessor.mixedData m) = 2%nat.
Proof.
  destruct (createMix_shape monoTrack stereoTrack (pointAt 1) (pointAt (1 # 2)))
    as (m & Hm & Hl & _ & Hc & _).
  - cbn. lia.
  - cbn. lia.
  - cbn. lia.
  - exists m. split; [exact Hm|]. split; [exact Hl | exact Hc].
Defined.

(** C6: with mix points at non-negative times, output sample [i] of channel
    [c] is [(sampleA * (1 - p) + sampleB * p) * 0.8] with [p = i / total];
    [sampleA] and [sampleB] are read at [start + i] from the channel
    [min (c, channels - 1)] of each track, and are zero past its end.  The
    start of a track is [Math.floor(time * sampleRate)] as the program
    computes it, on binary64 numbers ([startSampleOf]). *)
Theorem createMix_linear_crossfade (b1 b2 : AudioBuffer) (p1 p2 : MixPoint)
  (c : nat) (i : Z) :
  (1 <= numberOfChannels b1)%nat -> (1 <= numberOfChannels b2)%nat ->
  (0 < sampleRate b1)%Z ->
  0 <= time p1 -> 0 <= time p2 ->
  (c < Nat.max (numberOfChannels b1) (numberOfChannels b2))%nat ->
  (0 <= i < 20 * sampleRate b1)%Z ->
  exists m,
    AudioProcessor.createMix b1 b2 p1 p2 = Returns m
    /\ let total := (20 * sampleRate b1)%Z in
       let p := inject_Z i / inject_Z total in
       let sampleA :=
         sampleOrZero (getChannelData b1 (Nat.min c (numberOfChannels b1 - 1)))
                      (startSampleOf (sampleRate b1) p1 + i) in
       let sampleB :=
         sampleOrZero (getChannelData b2 (Nat.min c (numberOfChannels b2 - 1)))
                      (startSampleOf (sampleRate b1) p2 + i) in
       nth (Z.to_nat i) (nth c (AudioProcessor.mixedData m) []) None
       = Some ((sampleA * (1 - p) + sampleB * p) * (8 # 10)).
Proof.
  intros H1 H2 Hsr Ht1 Ht2 Hc Hi.
  eexists. split; [apply createMix_returns; assumption|].
  cbv zeta. cbn [AudioProcessor.mixedData].
  rewrite (nth_map_in _ _ c [] 0%nat) by (rewrite length_seq; exact Hc).
  rewrite seq_nth by exact Hc. cbn [Nat.add].
  rewrite nth_map_seq by lia.
  rewrite Z2Nat.id by lia.
  unfold AudioProcessor.mixSample, AudioProcessor.readOrZero, sampleOrZero.
  assert (S1 : (0 <= startSampleOf (sampleRate b1) p1)%Z)
    by (apply startSampleOf_nonneg; [lia | exact Ht1]).
  assert (S2 : (0 <= startSampleOf (sampleRate b1) p2)%Z)
    by (apply startSampleOf_nonneg; [lia | exact Ht2]).
  assert (G1 : (0 <=? startSampleOf (sampleRate b1) p1 + i)%Z = true)
    by (apply Z.leb_le; lia).
  assert (G2 : (0 <=? startSampleOf (sampleRate b1) p2 + i)%Z = true)
    by (apply Z.leb_le; lia).
  rewrite G1, G2.
  destruct (_ <? _)%Z; destruct (_ <? _)%Z; reflexivity.
Qed.

Lemma createMix_linear_crossfade_witness :
  exists m,
    AudioProcessor.createMix monoTrack stereoTrack (pointAt 1) (pointAt (1 # 2))
      = Returns m
    /\ nth 3 (nth 1 (AudioProcessor.mixedData m) []) None
       = Some ((sampleOrZero [1; 1 # 2; 1 # 4; 1 # 8; 1 # 16; 1 # 32] 5
                  * (1 - inject_Z 3 / inject_Z 40)
                + sampleOrZero [-1; -1; -1; -1] 4 * (inject_Z 3 / inject_Z 40))
               * (8 # 10)).
Proof.
  apply (createMix_linear_crossfade monoTrack stereoTrack
           (pointAt 1) (pointAt (1 # 2)) 1%nat 3%Z);
    cbn; try lia; discriminate.
Defined.

(** ** Mix-point selection *)

Lemma fold_left_invariant {A B : Type} (f : A -> B -> A) (P : A -> Prop)
  (l : list B) (a : A) :
  P a -> (forall a x, In x l -> P a -> P (f a x)) -> P (fold_left f l a).
Proof.
  revert a. induction l as [|x l IH]; intros a Ha Hstep; cbn.
  - exact Ha.
  - apply IH.
    + apply Hstep; [left; reflexivity | exact Ha].
    + intros a' y Hy. apply Hstep. right. exact Hy.
Qed.

(** The sort is stable: equal scores keep their order. *)
Example sortBy_stable :
  sortBy (fun p : Q * nat => fst p) [(1, 0%nat); (0, 1%nat); (1, 2%nat); (0, 3%nat)]
  = [(0, 1%nat); (0, 3%nat); (1, 0%nat); (1, 2%nat)].
Proof. reflexivity. Qed.

Lemma insertBy_In {A : Type} (key : A -> Q) (x y : A) (l : list A) :
  In y (insertBy key x l) -> y = x \/ In y l.
Proof.
  induction l as [|z l IH]; cbn.
  - intros [H | []]. left. symmetry. exact H.
  - destruct (JS.le (key x) (key z)); cbn.
    + intros [H | H]; [left; symmetry; exact H | right; exact H].
    + intros [H | H]; [right; left; exact H|].
      destruct (IH H) as [E | E]; [left; exact E | right; right; exact E].
Qed.

Lemma sortBy_In {A : Type} (key : A -> Q) (y : A) (l : list A) :
  In y (sortBy key l) -> In y l.
Proof.
  induction l as [|x l IH]; cbn; [tauto|].
  intro H. apply insertBy_In in H. destruct H as [-> | H]; [left; reflexivity|].
  right. apply IH. exact H.
Qed.

Lemma firstn_subset {A : Type} (n : nat) (y : A) (l : list A) :
  In y (firstn n l) -> In y l.
Proof.
  intro H. rewrite <- (firstn_skipn n l). apply in_or_app. left. exact H.
Qed.






(** On that track the selector settles on the beats at 7 s and 3 s. *)
Example findMixPoints_tenSeconds :
  let r := AudioProcessor.findMixPoints sqrtApprox everySecond everySecond
             tenSeconds tenSeconds in
  time (fst r) == 7 /\ time (snd r) == 3.
Proof. vm_compute. split; reflexivity. Qed.

(** ** Beat detector *)

Lemma floor_mul_ge (a b : Q) (k : Z) :
  (Z.abs k <= 2 ^ 53)%Z -> inject_Z k <= a * b -> (k <= JS.floor (F64.mul a b))%Z.
Proof.
  intros Hk H. unfold JS.floor, F64.mul.
  rewrite <- (Qfloor_Z k). apply Qfloor_resp_le.
  apply round_ge_repr; [apply representable_int, Hk | exact H].
Qed.

Lemma inject_Z_nonneg (z : Z) : (0 <= z)%Z -> 0 <= inject_Z z.
Proof. intro H. change 0 with (inject_Z 0). rewrite <- Zle_Qle. exact H. Qed.

Lemma floor_mul_nonpos (a b : Q) : a * b <= 0 -> (JS.floor (F64.mul a b) <= 0)%Z.
Proof.
  intro H. unfold JS.floor, F64.mul. change 0%Z with (Qfloor 0).
  apply Qfloor_resp_le. apply round_le_repr; [apply representable_zero | exact H].
Qed.

Lemma hopSizeOf_pos (sr : Z) : (100 <= sr)%Z -> (1 <= hopSizeOf sr)%Z.
Proof.
  intro H. unfold hopSizeOf, windowSizeOf.
  assert (H100 : inject_Z 100 <= inject_Z sr) by (rewrite <- Zle_Qle; exact H).
  change (inject_Z 100) with 100 in H100.
  assert (Hc : 4 # 100 <= F64.round (4 # 100)) by (vm_compute; discriminate).
  assert (Hq : inject_Z 4 <= inject_Z sr * F64.round (4 # 100)).
  { change (inject_Z 4) with 4. nra. }
  apply floor_mul_ge in Hq; [|vm_compute; discriminate].
  apply Z.div_le_lower_bound; lia.
Qed.

Lemma windowSizeOf_nonneg (sr : Z) : (0 <= sr)%Z -> (0 <= windowSizeOf sr)%Z.
Proof.
  intro H. apply floor_mul_nonneg; [apply inject_Z_nonneg, H|].
  vm_compute. discriminate.
Qed.

Lemma minBeatIntervalOf_nonneg (sr : Z) : (0 <= sr)%Z -> (0 <= minBeatIntervalOf sr)%Z.
Proof.
  intro H. apply floor_mul_nonneg; [apply inject_Z_nonneg, H|].
  vm_compute. discriminate.
Qed.

(** With a positive hop the energy loop ends: [fuel] iterations are enough
    as soon as [fuel] covers the distance still to go. *)
Lemma energyLoop_returns (sqrt : Q -> Q) (data : list Q) (w hop : Z) :
  (1 <= hop)%Z ->
  forall (fuel : nat) (i : Z) (acc : list Q),
    (Z.of_nat (List.length data) - w - i <= Z.of_nat fuel)%Z ->
    exists energies,
      AudioProcessor.energyLoop sqrt data w hop fuel i acc = Some energies.
Proof.
  intros Hhop. induction fuel as [|fuel IH]; intros i acc Hf; cbn.
  - destruct (i <? Z.of_nat (List.length data) - w)%Z eqn:E.
    + apply Z.ltb_lt in E. lia.
    + eexists. reflexivity.
  - destruct (i <? Z.of_nat (List.length data) - w)%Z eqn:E.
    + apply IH. lia.
    + eexists. reflexivity.
Qed.

(** Data no longer than the window: the loop body never runs. *)
Lemma energyLoop_short (sqrt : Q -> Q) (data : list Q) (w hop : Z) (fuel : nat) :
  (Z.of_nat (List.length data) <= w)%Z ->
  AudioProcessor.energyLoop sqrt data w hop fuel 0 [] = Some [].
Proof.
  intro H.
  assert (E : (0 <? Z.of_nat (List.length data) - w)%Z = false)
    by (apply Z.ltb_ge; lia).
  destruct fuel; cbn; rewrite E; reflexivity.
Qed.

(** With a hop of zero the loop counter never moves: no amount of fuel is
    enough once the body runs. *)
Lemma energyLoop_stuck (sqrt : Q -> Q) (data : list Q) (w : Z) :
  (w < Z.of_nat (List.length data))%Z ->
  forall (fuel : nat) (acc : list Q),
    AudioProcessor.energyLoop sqrt data w 0 fuel 0 acc = None.
Proof.
  intros H.
  assert (E : (0 <? Z.of_nat (List.length data) - w)%Z = true)
    by (apply Z.ltb_lt; lia).
  induction fuel as [|fuel IH]; intro acc; cbn; rewrite E.
  - reflexivity.
  - apply IH.
Qed.

Lemma intervalsOf_snoc (l : list Z) (x : Z) :
  l <> [] ->
  AudioProcessor.intervalsOf (l ++ [x])
  = AudioProcessor.intervalsOf l ++ [(x - last l 0)%Z].
Proof.
  induction l as [|a [|b l] IH]; intro Hne.
  - contradiction.
  - reflexivity.
  - change (AudioProcessor.intervalsOf ((a :: b :: l) ++ [x]))
      with ((b - a)%Z :: AudioProcessor.intervalsOf ((b :: l) ++ [x])).
    rewrite IH by discriminate. reflexivity.
Qed.

Lemma intervalsOf_length (l : list Z) :
  List.length (AudioProcessor.intervalsOf l) = (List.length l - 1)%nat.
Proof.
  induction l as [|a [|b l] IH]; try reflexivity.
  change (List.length (AudioProcessor.intervalsOf (a :: b :: l)))
    with (S (List.length (AudioProcessor.intervalsOf (b :: l)))).
  rewrite IH. cbn. lia.
Qed.

(** The peak scan keeps the accepted beats more than [minBeatInterval]
    apart. *)
Lemma peakScan_spaced (energies : list Q) (threshold : option Q) (hop mbi : Z) :
  spaced mbi (fst (AudioProcessor.peakScan energies threshold hop mbi)).
Proof.
  unfold AudioProcessor.peakScan.
  set (I := fun st : list Z * Z =>
              spaced mbi (fst st) /\ (fst st <> [] -> last (fst st) 0%Z = snd st)).
  assert (H : I (fold_left (AudioProcessor.peakStep energies threshold hop mbi)
                   (seq 2 (List.length energies - 4)) ([], (- mbi)%Z))).
  { apply fold_left_invariant.
    - split; [constructor | intro H; contradiction].
    - intros [bs lastBeat] i _ [Hsp Hlast]. cbn [fst snd] in *.
      unfold AudioProcessor.peakStep. cbn [fst snd].
      destruct (_ && _) eqn:E; cbn [fst snd]; [|split; assumption].
      apply andb_true_iff in E. destruct E as [_ E]. apply Z.ltb_lt in E.
      split.
      + unfold spaced in *. cbn [fst]. destruct bs as [|b bs'].
        * constructor.
        * rewrite intervalsOf_snoc by discriminate.
          apply Forall_app. split; [exact Hsp|].
          constructor; [|constructor].
          rewrite Hlast by discriminate. exact E.
      + intros _. apply last_last. }
  exact (proj1 H).
Qed.

Lemma Qcompare_inject (a b : Z) : (inject_Z a ?= inject_Z b) = (a ?= b)%Z.
Proof. unfold Qcompare. cbn. rewrite !Z.mul_1_r. reflexivity. Qed.

Lemma max_inject (a b : Z) : JS.max (inject_Z a) (inject_Z b) = inject_Z (Z.max a b).
Proof.
  unfold JS.max, Qmax, GenericMinMax.gmax, Z.max. rewrite Qcompare_inject.
  destruct (a ?= b)%Z; reflexivity.
Qed.

Lemma min_inject (a b : Z) : JS.min (inject_Z a) (inject_Z b) = inject_Z (Z.min a b).
Proof.
  unfold JS.min, Qmin, GenericMinMax.gmin, Z.min. rewrite Qcompare_inject.
  destruct (a ?= b)%Z; reflexivity.
Qed.

(** The clamp of [findBeats] yields an integer of the band. *)
Lemma clamp_bpm (v : Q) :
  JS.max 85 (JS.min 175 (inject_Z (JS.round v)))
  = inject_Z (Z.max 85 (Z.min 175 (JS.round v))).
Proof.
  change 85 with (inject_Z 85). change 175 with (inject_Z 175).
  rewrite min_inject, max_inject. reflexivity.
Qed.

Lemma sum_from_ge (l : list Z) (acc : Q) :
  Forall (fun d => (0 < d)%Z) l ->
  acc <= fold_left (fun s v => s + v) (map inject_Z l) acc.
Proof.
  revert acc. induction l as [|x l IH]; intros acc Hl; cbn.
  - apply Qle_refl.
  - inversion Hl as [|? ? Hx Hl']; subst.
    eapply Qle_trans; [|apply IH; exact Hl'].
    assert (inject_Z 0 < inject_Z x) by (rewrite <- Zlt_Qlt; exact Hx).
    change (inject_Z 0) with 0 in *. lra.
Qed.

Lemma mean_pos (l : list Z) :
  l <> [] -> Forall (fun d => (0 < d)%Z) l -> 0 < AudioProcessor.mean l.
Proof.
  intros Hne Hl. unfold AudioProcessor.mean, AudioProcessor.sumQ.
  destruct l as [|x l]; [contradiction|].
  inversion Hl as [|? ? Hx Hl']; subst.
  apply Qlt_shift_div_l.
  - change 0 with (inject_Z 0). rewrite <- Zlt_Qlt. cbn [List.length]. lia.
  - rewrite Qmult_0_l. cbn [map fold_left].
    eapply Qlt_le_trans; [|apply sum_from_ge; exact Hl'].
    assert (inject_Z 0 < inject_Z x) by (rewrite <- Zlt_Qlt; exact Hx).
    change (inject_Z 0) with 0 in *. lra.
Qed.

Lemma intervalsOf_nonempty (bs : list Z) :
  (2 <= List.length bs)%nat -> AudioProcessor.intervalsOf bs <> [].
Proof.
  intros H E. apply (f_equal (@List.length Z)) in E.
  rewrite intervalsOf_length in E. cbn in E. lia.
Qed.

Lemma calculateBPM_finite (bs : list Z) (sr : Z) :
  increasing bs ->
  exists v, AudioProcessor.calculateBPM bs sr = Some v
            /\ ((List.length bs < 2)%nat -> v = 120).
Proof.
  intro Hinc. unfold AudioProcessor.calculateBPM.
  destruct (List.length bs <? 2)%nat eqn:E.
  - exists 120. split; reflexivity.
  - apply Nat.ltb_ge in E.
    pose proof (mean_pos _ (intervalsOf_nonempty bs E) Hinc) as Hm.
    rewrite JS_div_nonzero by lra.
    eexists. split; [reflexivity | intro; lia].
Qed.

Lemma calculateConfidence_range (sqrt : Q -> Q) (bs : list Z) :
  increasing bs ->
  exists c, AudioProcessor.calculateConfidence sqrt bs = Some c
            /\ 3 # 10 <= c /\ c <= 1
            /\ ((List.length bs < 4)%nat -> c = 3 # 10).
Proof.
  intro Hinc. unfold AudioProcessor.calculateConfidence.
  destruct (List.length bs <? 4)%nat eqn:E.
  - exists (3 # 10). repeat split; try reflexivity; discriminate.
  - apply Nat.ltb_ge in E.
    assert (E2 : (2 <= List.length bs)%nat) by lia.
    pose proof (mean_pos _ (intervalsOf_nonempty bs E2) Hinc) as Hm.
    rewrite JS_div_nonzero by lra.
    eexists. split; [reflexivity|]. split; [apply JS_max_ge_l|].
    split; [|intro; lia].
    apply Q.max_lub; [discriminate | apply JS_min_le_l].
Qed.

Lemma spaced_increasing (gap : Z) (bs : list Z) :
  (0 <= gap)%Z -> spaced gap bs -> increasing bs.
Proof.
  intros Hg Hs. unfold spaced, increasing in *.
  eapply Forall_impl; [|exact Hs]. cbn. intros d Hd. lia.
Qed.

(** When [findBeats] is given a positive hop, or data that fit in one
    window, [length data] iterations are enough for its energy loop. *)
Lemma findBeats_energyLoop_returns (sqrt : Q -> Q) (data : list Q) (sr : Z)
  (fuel : nat) :
  (0 < sr)%Z ->
  (1 <= hopSizeOf sr)%Z \/ (Z.of_nat (List.length data) <= windowSizeOf sr)%Z ->
  (List.length data <= fuel)%nat ->
  exists energies,
    AudioProcessor.energyLoop sqrt data (windowSizeOf sr) (hopSizeOf sr) fuel 0 []
    = Some energies.
Proof.
  intros Hsr [Hhop | Hshort] Hfuel.
  - apply energyLoop_returns; [exact Hhop|].
    pose proof (windowSizeOf_nonneg sr). lia.
  - eexists. apply energyLoop_short. exact Hshort.
Qed.

(** The limit of the detector: at 50 Hz the hop size is
    [floor(floor(2) / 4) = 0], the energy loop never advances over three
    samples, and nothing is returned, whatever the fuel.  (The sample rate
    of an [AudioBuffer] is far above the 100 Hz from which the hop is
    positive.) *)
Lemma findBeats_low_rate_never_returns :
  forall (sqrt : Q -> Q) (fuel : nat),
    AudioProcessor.findBeats sqrt fuel [0; 0; 0] 50 = None.
Proof.
  intros sqrt fuel. unfold AudioProcessor.findBeats.
  assert (Ew : JS.floor (F64.mul (inject_Z 50) (F64.round (4 # 100))) = 2%Z)
    by (vm_compute; reflexivity).
  rewrite Ew. change (2 / 4)%Z with 0%Z.
  rewrite energyLoop_stuck; [reflexivity | cbn; lia].
Qed.

(** A hop that is not positive never lets the loop counter reach the end. *)
Lemma energyLoop_no_progress (sqrt : Q -> Q) (data : list Q) (w hop : Z) :
  (hop <= 0)%Z ->
  forall (fuel : nat) (i : Z) (acc : list Q),
    (i < Z.of_nat (List.length data) - w)%Z ->
    AudioProcessor.energyLoop sqrt data w hop fuel i acc = None.
Proof.
  intros Hhop. induction fuel as [|fuel IH]; intros i acc Hi; cbn;
    (assert (E : (i <? Z.of_nat (List.length data) - w)%Z = true)
       by (apply Z.ltb_lt; exact Hi)); rewrite E.
  - reflexivity.
  - apply IH. lia.
Qed.

(** Whenever [findBeats] returns, at any sample rate and with any fuel, its
    beats are strictly increasing and more than the minimum interval
    apart. *)
Lemma findBeats_partial (sqrt : Q -> Q) (data : list Q) (sr : Z) (fuel : nat)
  (bi : BeatInfo) :
  AudioProcessor.findBeats sqrt fuel data sr = Some bi ->
  increasing (beats bi) /\ spaced (minBeatIntervalOf sr) (beats bi).
Proof.
  unfold AudioProcessor.findBeats.
  fold (windowSizeOf sr). fold (hopSizeOf sr). fold (minBeatIntervalOf sr).
  destruct (AudioProcessor.energyLoop sqrt data (windowSizeOf sr) (hopSizeOf sr)
              fuel 0 []) as [energies|] eqn:He; [|discriminate].
  intro H. injection H as <-. cbn [beats].
  split; [|apply peakScan_spaced].
  destruct (Z_lt_dec 0 (hopSizeOf sr)) as [Hpos | Hnpos].
  - apply (spaced_increasing (minBeatIntervalOf sr)); [|apply peakScan_spaced].
    apply minBeatIntervalOf_nonneg.
    destruct (Z_lt_dec sr 0) as [Hneg | Hok]; [|lia].
    exfalso. unfold hopSizeOf in Hpos.
    assert (Hq : inject_Z sr * F64.round (4 # 100) <= 0).
    { assert (inject_Z sr <= inject_Z 0) by (rewrite <- Zle_Qle; lia).
      assert (0 <= F64.round (4 # 100)) by (vm_compute; discriminate).
      change (inject_Z 0) with 0 in *. nra. }
    apply floor_mul_nonpos in Hq. fold (windowSizeOf sr) in Hq.
    assert (windowSizeOf sr / 4 <= 0)%Z
      by (apply Z.div_le_upper_bound; lia).
    lia.
  - destruct (Z_lt_dec 0 (Z.of_nat (List.length data) - windowSizeOf sr))
      as [Hrun | Hstop].
    + rewrite energyLoop_no_progress in He by lia. discriminate He.
    + assert (energies = []).
      { rewrite energyLoop_short in He by lia.
        injection He as <-. reflexivity. }
      subst energies. cbn. constructor.
Qed.

(** [findBeats] returns its [BeatInfo] within [length data] iterations of
    the energy loop when the hop is positive or the data fit in a window. *)
Lemma findBeats_returns (sqrt : Q -> Q) (data : list Q) (sr : Z) (fuel : nat) :
  (0 < sr)%Z ->
  (1 <= hopSizeOf sr)%Z \/ (Z.of_nat (List.length data) <= windowSizeOf sr)%Z ->
  (List.length data <= fuel)%nat ->
  exists bi, AudioProcessor.findBeats sqrt fuel data sr = Some bi.
Proof.
  intros Hsr Hdom Hfuel.
  destruct (findBeats_energyLoop_returns sqrt data sr fuel Hsr Hdom Hfuel)
    as [energies He].
  unfold AudioProcessor.findBeats.
  fold (windowSizeOf sr). fold (hopSizeOf sr). rewrite He.
  eexists. reflexivity.
Qed.

(** What [findBeats] puts in [bpm] and [beatConfidence], from its beats. *)
Lemma findBeats_fields (sqrt : Q -> Q) (data : list Q) (sr : Z) (fuel : nat)
  (bi : BeatInfo) :
  AudioProcessor.findBeats sqrt fuel data sr = Some bi ->
  bpm bi = match AudioProcessor.calculateBPM (beats bi) sr with
           | Some v => Some (JS.max 85 (JS.min 175 (inject_Z (JS.round v))))
           | None => None
           end
  /\ beatConfidence bi = AudioProcessor.calculateConfidence sqrt (beats bi).
Proof.
  unfold AudioProcessor.findBeats.
  destruct (AudioProcessor.energyLoop _ _ _ _ _ _ _); [|discriminate].
  intro H. injection H as <-. split; reflexivity.
Qed.

(** C7: for every sample array and sample rate, the [BeatInfo] that
    [findBeats] returns has an integer [bpm] in [85 .. 175], the value of
    [calculateBPM] rounded to nearest and clamped, which is 120
    when fewer than two beats were found, and a confidence in [0.3 .. 1],
    which is 0.3 when fewer than four beats were found; and [findBeats] does
    return, within [length data] iterations of its energy loop, for every
    positive sample rate that gives a hop of at least one sample (any rate
    from 100 Hz on) or data no longer than one window. *)
Theorem findBeats_bpm_confidence (sqrt : Q -> Q) (data : list Q) (sr : Z) :
  (forall fuel bi,
     AudioProcessor.findBeats sqrt fuel data sr = Some bi ->
     exists z c,
       bpm bi = Some (inject_Z z) /\ (85 <= z <= 175)%Z
       /\ (exists v, AudioProcessor.calculateBPM (beats bi) sr = Some v
                     /\ z = Z.max 85 (Z.min 175 (JS.round v)))
       /\ ((List.length (beats bi) < 2)%nat -> z = 120%Z)
       /\ beatConfidence bi = Some c /\ 3 # 10 <= c /\ c <= 1
       /\ ((List.length (beats bi) < 4)%nat -> c = 3 # 10))
  /\ ((0 < sr)%Z ->
      (1 <= hopSizeOf sr)%Z \/ (Z.of_nat (List.length data) <= windowSizeOf sr)%Z ->
      forall fuel, (List.length data <= fuel)%nat ->
      exists bi, AudioProcessor.findBeats sqrt fuel data sr = Some bi).
Proof.
  split.
  - intros fuel bi Hbi.
    destruct (findBeats_partial sqrt data sr fuel bi Hbi) as [Hinc _].
    destruct (findBeats_fields sqrt data sr fuel bi Hbi) as [Hb Hc].
    destruct (calculateBPM_finite (beats bi) sr Hinc) as (v & Hv & Hdef).
    destruct (calculateConfidence_range sqrt (beats bi) Hinc)
      as (c & Hcc & Hlo & Hhi & Hc3).
    rewrite Hv, clamp_bpm in Hb. rewrite Hcc in Hc.
    exists (Z.max 85 (Z.min 175 (JS.round v))), c.
    split; [exact Hb|]. split; [lia|].
    split; [exists v; split; [exact Hv | reflexivity]|].
    split; [intro Hlt; rewrite (Hdef Hlt); reflexivity|].
    repeat split; assumption.
  - intros Hsr Hdom fuel Hfuel. apply findBeats_returns; assumption.
Qed.

Lemma findBeats_bpm_confidence_witness :
  exists bi z c,
    AudioProcessor.findBeats sqrtApprox 250 burstTrack 100 = Some bi
    /\ bpm bi = Some (inject_Z z) /\ (85 <= z <= 175)%Z
    /\ beatConfidence bi = Some c /\ 3 # 10 <= c /\ c <= 1.
Proof.
  destruct (findBeats_bpm_confidence sqrtApprox burstTrack 100) as [Hp Hr].
  destruct (Hr eq_refl) with (fuel := 250%nat) as [bi Hbi].
  - left. vm_compute. discriminate.
  - vm_compute. repeat constructor.
  - destruct (Hp 250%nat bi Hbi) as (z & c & H2 & H3 & _ & _ & H5 & H6 & H7 & _).
    exists bi, z, c. repeat split; try assumption; apply H3.
Defined.

(** On [burstTrack] the detector finds the five bursts, 120 BPM, and full
    confidence. *)
Example findBeats_burstTrack :
  exists bi,
    AudioProcessor.findBeats sqrtApprox 250 burstTrack 100 = Some bi
    /\ beats bi = [10; 60; 110; 160; 210]%Z
    /\ option_map Qred (bpm bi) = Some 120
    /\ option_map Qred (beatConfidence bi) = Some 1.
Proof. eexists. split; [vm_compute; reflexivity|]. vm_compute. auto. Qed.

(** Two seconds of silence at 44100 Hz would be costly to run; a scaled-down
    silence shows the defaults: no beat, 120 BPM, confidence 0.3. *)
Example findBeats_silence :
  AudioProcessor.findBeats sqrtApprox 200 (repeat 0 200) 100
  = Some {| bpm := Some 120; beats := []; beatConfidence := Some (3 # 10) |}.
Proof. vm_compute. reflexivity. Qed.

Lemma spaced_weaken (gap gap' : Z) (bs : list Z) :
  (gap' <= gap)%Z -> spaced gap bs -> spaced gap' bs.
Proof.
  intros Hg Hs. unfold spaced in *.
  eapply Forall_impl; [|exact Hs]. cbn. intros d Hd. lia.
Qed.

(** [Math.floor(sampleRate * 0.35)] on binary64 numbers is the floor of the
    exact product or one less: the literal 0.35 is a little less than
    35/100. *)
Lemma minBeatIntervalOf_bounds (sr : Z) :
  (0 <= sr <= 2 ^ 32)%Z ->
  (JS.floor (inject_Z sr * (35 # 100)) - 1 <= minBeatIntervalOf sr
   <= JS.floor (inject_Z sr * (35 # 100)))%Z.
Proof.
  intros [H0 H1].
  assert (P32 : (2 ^ 32 = 4294967296)%Z) by reflexivity.
  assert (P53 : (2 ^ 53 = 9007199254740992)%Z) by reflexivity.
  rewrite P32 in H1.
  assert (Q0 : 0 <= inject_Z sr) by (apply inject_Z_nonneg, H0).
  assert (Q1 : inject_Z sr <= 4294967296).
  { change 4294967296 with (inject_Z 4294967296). rewrite <- Zle_Qle. exact H1. }
  assert (Ed : F64.round (35 # 100) == 6305039478318694 # 18014398509481984)
    by (vm_compute; reflexivity).
  set (k := JS.floor (inject_Z sr * (35 # 100))).
  assert (Ek : k = (35 * sr / 100)%Z).
  { unfold k, JS.floor.
    assert (E : inject_Z sr * (35 # 100) == (35 * sr) # 100).
    { unfold Qeq, Qmult, inject_Z. cbn [Qnum Qden]. lia. }
    rewrite (Qfloor_comp _ _ E). reflexivity. }
  pose proof (Z.div_mod (35 * sr) 100 ltac:(lia)) as Hdm.
  pose proof (Z.mod_pos_bound (35 * sr) 100 ltac:(lia)) as Hmb.
  rewrite <- Ek in Hdm.
  assert (Hk0 : (0 <= k)%Z) by lia.
  assert (Hk1 : (k <= sr)%Z) by lia.
  assert (Hr : (20 * k <= 7 * sr <= 20 * k + 19)%Z) by lia.
  assert (Qr1 : inject_Z (20 * k) <= inject_Z (7 * sr)) by (rewrite <- Zle_Qle; lia).
  assert (Qr2 : inject_Z (7 * sr) <= inject_Z (20 * k + 19)) by (rewrite <- Zle_Qle; lia).
  rewrite inject_Z_plus, !inject_Z_mult in *.
  change (inject_Z 20) with 20 in *. change (inject_Z 7) with 7 in *.
  change (inject_Z 19) with 19 in *.
  unfold minBeatIntervalOf. split.
  - apply floor_mul_ge; [lia|]. rewrite Ed.
    unfold Z.sub. rewrite inject_Z_plus, inject_Z_opp.
    change (inject_Z 1) with 1. lra.
  - assert (Hc : F64.mul (inject_Z sr) (F64.round (35 # 100))
                 <= inject_Z (32 * k + 31) * F64.pow2 (-5)).
    { unfold F64.mul. apply round_le_repr.
      - exists (32 * k + 31)%Z, (-5)%Z. split; [lia|]. split; [lia | reflexivity].
      - rewrite Ed. change (F64.pow2 (-5)) with (1 # 32).
        rewrite inject_Z_plus, inject_Z_mult.
        change (inject_Z 32) with 32. change (inject_Z 31) with 31. lra. }
    assert (Hlt : F64.mul (inject_Z sr) (F64.round (35 # 100)) < inject_Z (k + 1)).
    { eapply Qle_lt_trans; [exact Hc|]. change (F64.pow2 (-5)) with (1 # 32).
      rewrite !inject_Z_plus, inject_Z_mult.
      change (inject_Z 32) with 32. change (inject_Z 31) with 31.
      change (inject_Z 1) with 1. lra. }
    unfold JS.floor.
    pose proof (Qfloor_le (F64.mul (inject_Z sr) (F64.round (35 # 100)))) as Hf.
    assert (Hz : inject_Z (Qfloor (F64.mul (inject_Z sr) (F64.round (35 # 100))))
                 < inject_Z (k + 1)) by lra.
    rewrite <- Zlt_Qlt in Hz. lia.
Qed.

(** C8 as stated fails: the program's [Math.floor(sampleRate * 0.35)] is
    the floor of a binary64 product, 62 at 180 Hz, where [180 * 0.35] is
    62.99999999999999, and 15434 at 44100 Hz, where [44100 * 0.35] is
    15434.999999999998.  On [closeBursts], at 180 Hz, it returns two beats
    exactly [floor(0.35 * 180) = 63] samples apart, which is not more than
    that spacing; at 44100 Hz the hop of 441 samples divides
    [floor(0.35 * 44100) = 15435]. *)
Lemma findBeats_beats_at_exact_floor :
  exists bi,
    AudioProcessor.findBeats sqrtApprox 90 closeBursts 180 = Some bi
    /\ beats bi = [10; 73]%Z
    /\ minBeatIntervalOf 180 = 62%Z
    /\ JS.floor (inject_Z 180 * (35 # 100)) = 63%Z
    /\ ~ spaced (JS.floor (inject_Z 180 * (35 # 100))) (beats bi)
    /\ minBeatIntervalOf 44100 = 15434%Z
    /\ JS.floor (inject_Z 44100 * (35 # 100)) = 15435%Z
    /\ (hopSizeOf 44100 * 35 = 15435)%Z.
Proof.
  eexists. split; [vm_compute; reflexivity|]. cbn [beats].
  split; [reflexivity|]. split; [vm_compute; reflexivity|].
  split; [reflexivity|]. split.
  - intro H. unfold spaced in H. cbn in H. inversion H as [|d l Hd _]. lia.
  - repeat split; vm_compute; reflexivity.
Qed.

(** C8, amended: for every input, the beats list that [findBeats] returns is
    strictly increasing, with consecutive beats more than
    [Math.floor(sampleRate * 0.35)] samples apart, the product being the
    binary64 one; for a sample rate up to [2^32] that bound is
    [floor(0.35 * sampleRate)] or one less, so that consecutive beats are
    at least [floor(0.35 * sampleRate)] samples apart.  And [findBeats]
    does return, within [length data] iterations of its energy loop, for
    every positive sample rate that gives a hop of at least one sample or
    data no longer than one window. *)
Theorem findBeats_beats_spaced (sqrt : Q -> Q) (data : list Q) (sr : Z) :
  (forall fuel bi,
     AudioProcessor.findBeats sqrt fuel data sr = Some bi ->
     increasing (beats bi)
     /\ spaced (minBeatIntervalOf sr) (beats bi)
     /\ ((0 <= sr <= 2 ^ 32)%Z ->
         spaced (JS.floor (inject_Z sr * (35 # 100)) - 1) (beats bi)))
  /\ ((0 <= sr <= 2 ^ 32)%Z ->
      (JS.floor (inject_Z sr * (35 # 100)) - 1 <= minBeatIntervalOf sr
       <= JS.floor (inject_Z sr * (35 # 100)))%Z)
  /\ ((0 < sr)%Z ->
      (1 <= hopSizeOf sr)%Z \/ (Z.of_nat (List.length data) <= windowSizeOf sr)%Z ->
      forall fuel, (List.length data <= fuel)%nat ->
      exists bi, AudioProcessor.findBeats sqrt fuel data sr = Some bi).
Proof.
  split; [|split].
  - intros fuel bi Hbi.
    destruct (findBeats_partial sqrt data sr fuel bi Hbi) as [Hi Hs].
    split; [exact Hi|]. split; [exact Hs|].
    intro Hsr. apply (spaced_weaken (minBeatIntervalOf sr)); [|exact Hs].
    apply minBeatIntervalOf_bounds, Hsr.
  - apply minBeatIntervalOf_bounds.
  - intros Hsr Hdom fuel Hfuel. apply findBeats_returns; assumption.
Qed.

Lemma findBeats_beats_spaced_witness :
  exists bi,
    AudioProcessor.findBeats sqrtApprox 250 burstTrack 100 = Some bi
    /\ increasing (beats bi) /\ spaced 35 (beats bi) /\ spaced 34 (beats bi).
Proof.
  destruct (findBeats_beats_spaced sqrtApprox burstTrack 100) as (Hp & _ & Hr).
  destruct (Hr eq_refl) with (fuel := 250%nat) as [bi Hbi].
  - left. vm_compute. discriminate.
  - vm_compute. repeat constructor.
  - exists bi. split; [exact Hbi|].
    destruct (Hp 250%nat bi Hbi) as (Hi & Hs & Hw).
    split; [exact Hi|]. split; [exact Hs|].
    apply Hw. split; vm_compute; discriminate.
Defined.

(** ** Container encoder *)

Lemma leBytes_length (n : nat) (v : Z) : List.length (leBytes n v) = n.
Proof. revert v. induction n as [|n IH]; intro v; cbn; [|rewrite IH]; reflexivity. Qed.

Lemma setNth_app (done todo : list Z) (x v : Z) :
  AudioProcessor.setNth (done ++ x :: todo) (List.length done) v
  = done ++ v :: todo.
Proof.
  induction done as [|d done IH]; cbn; [reflexivity|]. rewrite IH. reflexivity.
Qed.

(** A store right after the part [done] overwrites the next byte. *)
Lemma setUint8_next (done todo : list Z) (x v : Z) :
  AudioProcessor.setUint8 (done ++ x :: todo) (Z.of_nat (List.length done)) v
  = Some (done ++ (v mod 256)%Z :: todo).
Proof.
  unfold AudioProcessor.setUint8.
  assert (E : (0 <=? Z.of_nat (List.length done))%Z
              && (Z.of_nat (List.length done)
                  <? Z.of_nat (List.length (done ++ x :: todo)))%Z = true).
  { apply andb_true_iff. split; [apply Z.leb_le; lia|].
    apply Z.ltb_lt. rewrite length_app. cbn. lia. }
  rewrite E, Nat2Z.id, setNth_app. reflexivity.
Qed.

Lemma snoc_offset (done : list Z) (x : Z) :
  (Z.of_nat (List.length done) + 1)%Z = Z.of_nat (List.length (done ++ [x])).
Proof. rewrite length_app. cbn. lia. Qed.

(** Stores that follow each other fill the buffer from left to right:
    writing [n] bytes at the end of [done] replaces the next [n] bytes. *)
Lemma setLE_next (n : nat) :
  forall (done pre todo : list Z) (v : Z),
    List.length pre = n ->
    AudioProcessor.setLE n (done ++ pre ++ todo) (Z.of_nat (List.length done)) v
    = Some (done ++ leBytes n v ++ todo).
Proof.
  induction n as [|n IH]; intros done pre todo v Hlen.
  - destruct pre; [reflexivity | discriminate].
  - destruct pre as [|x pre]; [discriminate|]. cbn in Hlen.
    injection Hlen as Hlen.
    cbn [AudioProcessor.setLE leBytes app].
    rewrite setUint8_next.
    rewrite (snoc_offset done (v mod 256)%Z).
    replace (done ++ (v mod 256)%Z :: pre ++ todo)
      with ((done ++ [(v mod 256)%Z]) ++ pre ++ todo)
      by (rewrite <- app_assoc; reflexivity).
    rewrite IH by exact Hlen. rewrite <- app_assoc. reflexivity.
Qed.

Lemma writeString_next (s : string) :
  forall (done pre todo : list Z),
    List.length pre = List.length (strBytes s) ->
    AudioProcessor.writeString (done ++ pre ++ todo)
      (Z.of_nat (List.length done)) s
    = Some (done ++ strBytes s ++ todo).
Proof.
  induction s as [|c s IH]; intros done pre todo Hlen.
  - destruct pre; [reflexivity | discriminate].
  - destruct pre as [|x pre]; [discriminate|]. cbn in Hlen.
    injection Hlen as Hlen.
    cbn [AudioProcessor.writeString strBytes app].
    rewrite setUint8_next.
    rewrite Z.mod_small
      by (pose proof (Ascii.nat_ascii_bounded c); lia).
    rewrite (snoc_offset done (Z.of_nat (Ascii.nat_of_ascii c))).
    replace (done ++ Z.of_nat (Ascii.nat_of_ascii c) :: pre ++ todo)
      with ((done ++ [Z.of_nat (Ascii.nat_of_ascii c)]) ++ pre ++ todo)
      by (rewrite <- app_assoc; reflexivity).
    rewrite IH by exact Hlen. rewrite <- app_assoc. reflexivity.
Qed.

Lemma setLE_at (n : nat) (view : list Z) (off v : Z) (done pre todo : list Z) :
  view = done ++ pre ++ todo -> List.length pre = n ->
  off = Z.of_nat (List.length done) ->
  AudioProcessor.setLE n view off v = Some (done ++ leBytes n v ++ todo).
Proof. intros -> Hn ->. apply setLE_next. exact Hn. Qed.

Lemma writeString_at (s : string) (view : list Z) (off : Z)
  (done pre todo : list Z) :
  view = done ++ pre ++ todo -> List.length pre = List.length (strBytes s) ->
  off = Z.of_nat (List.length done) ->
  AudioProcessor.writeString view off s = Some (done ++ strBytes s ++ todo).
Proof. intros -> Hn ->. apply writeString_next. exact Hn. Qed.

Lemma headerBytes_length (len channels sr : Z) :
  List.length (headerBytes len channels sr) = 44%nat.
Proof. reflexivity. Qed.

(** One store of the header: [d] is what is written so far, [k] the number
    of header bytes left after this store. *)
Ltac store_le n d k rest :=
  rewrite (setLE_at n _ _ _ d (repeat 0%Z n) (repeat 0%Z k ++ rest))
    by reflexivity;
  cbn [AudioProcessor.andThen].

Ltac store_str s d k rest :=
  rewrite (writeString_at s _ _ d (repeat 0%Z 4) (repeat 0%Z k ++ rest))
    by reflexivity;
  cbn [AudioProcessor.andThen].

Lemma writeHeader_fills (rest : list Z) (len channels sr : Z) :
  AudioProcessor.writeHeader (repeat 0%Z 44 ++ rest) len channels sr
  = Some (headerBytes len channels sr ++ rest).
Proof.
  unfold AudioProcessor.writeHeader, AudioProcessor.setUint32,
    AudioProcessor.setUint16.
  set (d1 := strBytes "RIFF").
  set (d2 := d1 ++ leBytes 4 (36 + len * channels * 2)).
  set (d3 := d2 ++ strBytes "WAVE").
  set (d4 := d3 ++ strBytes "fmt ").
  set (d5 := d4 ++ leBytes 4 16).
  set (d6 := d5 ++ leBytes 2 1).
  set (d7 := d6 ++ leBytes 2 channels).
  set (d8 := d7 ++ leBytes 4 sr).
  set (d9 := d8 ++ leBytes 4 (sr * channels * 2)).
  set (d10 := d9 ++ leBytes 2 (channels * 2)).
  set (d11 := d10 ++ leBytes 2 16).
  set (d12 := d11 ++ strBytes "data").
  store_str "RIFF"%string (@nil Z) 40%nat rest.
  store_le 4%nat d1 36%nat rest.
  store_str "WAVE"%string d2 32%nat rest.
  store_str "fmt "%string d3 28%nat rest.
  store_le 4%nat d4 24%nat rest.
  store_le 2%nat d5 22%nat rest.
  store_le 2%nat d6 20%nat rest.
  store_le 4%nat d7 16%nat rest.
  store_le 4%nat d8 12%nat rest.
  store_le 2%nat d9 10%nat rest.
  store_le 2%nat d10 8%nat rest.
  store_str "data"%string d11 4%nat rest.
  store_le 4%nat d12 0%nat rest.
  reflexivity.
Qed.

Lemma flat_map_length_const {A : Type} (f : A -> list Z) (m : nat) (l : list A) :
  (forall x, List.length (f x) = m) ->
  List.length (flat_map f l) = (m * List.length l)%nat.
Proof.
  intro Hf. induction l as [|x l IH]; cbn; [lia|].
  rewrite length_app, Hf, IH. lia.
Qed.

Lemma frameBytes_length (b : AudioBuffer) (i : nat) :
  List.length (frameBytes b i) = (2 * numberOfChannels b)%nat.
Proof.
  unfold frameBytes. rewrite (flat_map_length_const _ 2).
  - rewrite length_seq. reflexivity.
  - intro c. apply leBytes_length.
Qed.

Lemma pcmBytes_length (b : AudioBuffer) :
  List.length (pcmBytes b) = (2 * numberOfChannels b * length b)%nat.
Proof.
  unfold pcmBytes. rewrite (flat_map_length_const _ (2 * numberOfChannels b)).
  - rewrite length_seq. reflexivity.
  - intro i. apply frameBytes_length.
Qed.

(** The inner loop writes the samples of a frame one after the other. *)
Lemma writeChannels_fills (b : AudioBuffer) (i : nat) :
  forall (cs : list nat) (done pre todo : list Z),
    List.length pre = (2 * List.length cs)%nat ->
    fold_left
      (fun acc channel =>
         AudioProcessor.andThen acc (fun s =>
         AudioProcessor.andThen
           (AudioProcessor.setInt16 (fst s) (snd s)
              (AudioProcessor.scaledSample b i channel))
           (fun v => Some (v, snd s + 2)%Z)))
      cs (Some (done ++ pre ++ todo, Z.of_nat (List.length done)))
    = Some ((done ++ flat_map (sampleBytes b i) cs) ++ todo,
            Z.of_nat (List.length (done ++ flat_map (sampleBytes b i) cs))).
Proof.
  induction cs as [|c cs IH]; intros done pre todo Hlen.
  - destruct pre; [|discriminate]. cbn. rewrite !app_nil_r. reflexivity.
  - destruct pre as [|x1 [|x2 pre]]; try (cbn in Hlen; lia).
    cbn [fold_left AudioProcessor.andThen fst snd].
    unfold AudioProcessor.setInt16.
    rewrite (setLE_at 2 _ _ _ done [x1; x2] (pre ++ todo))
      by reflexivity.
    cbn [AudioProcessor.andThen].
    fold (sampleBytes b i c).
    replace (Z.of_nat (List.length done) + 2)%Z
      with (Z.of_nat (List.length (done ++ sampleBytes b i c)))
      by (rewrite length_app; unfold sampleBytes; rewrite leBytes_length; lia).
    rewrite app_assoc.
    rewrite IH by (cbn in Hlen; lia).
    cbn [flat_map]. rewrite !app_assoc. reflexivity.
Qed.

Lemma writeFrame_fills (b : AudioBuffer) (i : nat) (done pre todo : list Z) :
  List.length pre = (2 * numberOfChannels b)%nat ->
  AudioProcessor.writeFrame b i
    (done ++ pre ++ todo, Z.of_nat (List.length done))
  = Some ((done ++ frameBytes b i) ++ todo,
          Z.of_nat (List.length (done ++ frameBytes b i))).
Proof.
  intro Hlen. unfold AudioProcessor.writeFrame, frameBytes.
  apply writeChannels_fills. rewrite length_seq. exact Hlen.
Qed.

(** The outer loop writes the frames one after the other. *)
Lemma writeFrames_fills (b : AudioBuffer) :
  forall (frames : list nat) (done pre todo : list Z),
    List.length pre = (2 * numberOfChannels b * List.length frames)%nat ->
    fold_left (fun acc i => AudioProcessor.andThen acc (AudioProcessor.writeFrame b i))
      frames (Some (done ++ pre ++ todo, Z.of_nat (List.length done)))
    = Some ((done ++ flat_map (frameBytes b) frames) ++ todo,
            Z.of_nat (List.length (done ++ flat_map (frameBytes b) frames))).
Proof.
  induction frames as [|i frames IH]; intros done pre todo Hlen.
  - cbn in Hlen. rewrite Nat.mul_0_r in Hlen.
    destruct pre; [|discriminate]. cbn. rewrite !app_nil_r. reflexivity.
  - cbn [fold_left AudioProcessor.andThen].
    rewrite <- (firstn_skipn (2 * numberOfChannels b) pre), <- app_assoc.
    rewrite writeFrame_fills
      by (rewrite length_firstn; cbn [List.length] in Hlen; lia).
    rewrite IH
      by (rewrite length_skipn; cbn [List.length] in Hlen; lia).
    cbn [flat_map]. rewrite !app_assoc. reflexivity.
Qed.

(** The encoder returns the header followed by the interleaved samples. *)
Lemma audioBufferToWav_bytes (b : AudioBuffer) :
  AudioProcessor.audioBufferToWav b
  = Some (headerBytes (Z.of_nat (length b)) (Z.of_nat (numberOfChannels b))
            (sampleRate b)
          ++ pcmBytes b).
Proof.
  unfold AudioProcessor.audioBufferToWav.
  replace (Z.to_nat (44 + Z.of_nat (length b) * Z.of_nat (numberOfChannels b) * 2))
    with (44 + 2 * numberOfChannels b * length b)%nat by lia.
  rewrite repeat_app, writeHeader_fills.
  cbn [AudioProcessor.andThen]. unfold AudioProcessor.writeFrames.
  set (h := headerBytes _ _ _).
  change 44%Z with (Z.of_nat (List.length h)).
  rewrite <- (app_nil_r (repeat 0%Z (2 * numberOfChannels b * length b))).
  rewrite writeFrames_fills by (rewrite repeat_length, length_seq; reflexivity).
  cbn [AudioProcessor.andThen fst]. rewrite app_nil_r. reflexivity.
Qed.

Lemma leValue_leBytes (n : nat) (v : Z) :
  leValue (leBytes n v) = (v mod 256 ^ Z.of_nat n)%Z.
Proof.
  revert v. induction n as [|n IH]; intro v.
  - cbn. rewrite Z.mod_1_r. reflexivity.
  - cbn [leBytes leValue fold_right]. fold (leValue (leBytes n (v / 256))).
    rewrite IH, Nat2Z.inj_succ, Z.pow_succ_r by lia.
    rewrite Z.rem_mul_r by lia. reflexivity.
Qed.

(** Reading [n] bytes at [off] decodes the [n] bytes found there. *)
Lemma getLE_window (n : nat) :
  forall (view : list Z) (off : nat),
    (off + n <= List.length view)%nat ->
    getLE n view (Z.of_nat off) = Some (leValue (firstn n (skipn off view))).
Proof.
  induction n as [|n IH]; intros view off Hlen.
  - reflexivity.
  - cbn [getLE]. unfold getUint8.
    assert (E : (0 <=? Z.of_nat off)%Z = true) by (apply Z.leb_le; lia).
    rewrite E, Nat2Z.id.
    replace (Z.of_nat off + 1)%Z with (Z.of_nat (S off)) by lia.
    rewrite IH by lia.
    destruct (skipn off view) as [|x tl] eqn:Es.
    + apply (f_equal (@List.length Z)) in Es. rewrite length_skipn in Es.
      cbn in Es. lia.
    + assert (Hx : nth_error view off = Some x).
      { rewrite <- (firstn_skipn off view), Es.
        rewrite nth_error_app2 by (rewrite length_firstn; lia).
        rewrite length_firstn.
        replace (off - Nat.min off (List.length view))%nat with 0%nat by lia.
        reflexivity. }
      assert (Ht : skipn (S off) view = tl).
      { change (S off) with (1 + off)%nat.
        rewrite <- skipn_skipn, Es. reflexivity. }
      rewrite Hx, Ht. reflexivity.
Qed.

Lemma skipn_flat_map_const {A : Type} (f : A -> list Z) (m : nat) :
  (forall x, List.length (f x) = m) ->
  forall (k : nat) (l : list A),
    skipn (m * k) (flat_map f l) = flat_map f (skipn k l).
Proof.
  intro Hf. induction k as [|k IH]; intro l.
  - rewrite Nat.mul_0_r. reflexivity.
  - destruct l as [|x l]; cbn [flat_map skipn].
    + apply skipn_nil.
    + replace (m * S k)%nat with (List.length (f x) + m * k)%nat
        by (rewrite Hf; lia).
      rewrite skipn_app, Nat.add_comm, Nat.add_sub.
      rewrite skipn_all2 by lia. apply IH.
Qed.

Lemma skipn_seq_cons (n i : nat) :
  (i < n)%nat -> skipn i (seq 0 n) = i :: seq (S i) (n - S i).
Proof.
  intro Hi. rewrite skipn_seq. cbn [Nat.add].
  replace (n - i)%nat with (S (n - S i)) by lia. reflexivity.
Qed.

(** Where sample [c] of frame [i] lies in the data chunk. *)
Lemma pcmBytes_window (b : AudioBuffer) (i c : nat) :
  (i < length b)%nat -> (c < numberOfChannels b)%nat ->
  firstn 2 (skipn (2 * (i * numberOfChannels b + c)) (pcmBytes b))
  = sampleBytes b i c.
Proof.
  intros Hi Hc.
  replace (2 * (i * numberOfChannels b + c))%nat
    with (2 * c + 2 * numberOfChannels b * i)%nat by lia.
  rewrite <- skipn_skipn. unfold pcmBytes.
  rewrite (skipn_flat_map_const _ (2 * numberOfChannels b))
    by (intro; apply frameBytes_length).
  rewrite skipn_seq_cons by exact Hi. cbn [flat_map].
  rewrite skipn_app, frameBytes_length.
  replace (2 * c - 2 * numberOfChannels b)%nat with 0%nat by lia.
  cbn [skipn]. unfold frameBytes at 1.
  rewrite (skipn_flat_map_const _ 2) by (intro; apply leBytes_length).
  rewrite skipn_seq_cons by exact Hc. cbn [flat_map].
  rewrite <- !app_assoc.
  rewrite firstn_app, (firstn_all2 (n := 2)) by (unfold sampleBytes; rewrite leBytes_length; lia).
  unfold sampleBytes at 2. rewrite leBytes_length. cbn [Nat.sub firstn].
  apply app_nil_r.
Qed.

Lemma trunc_bounds (q : Q) (m : Z) :
  (0 <= m)%Z -> - inject_Z m <= q -> q <= inject_Z m ->
  (- m <= JS.trunc q <= m)%Z.
Proof.
  intros Hm Hlo Hhi. unfold JS.trunc.
  destruct (Qle_bool 0 q) eqn:E.
  - apply Qle_bool_iff in E. split.
    + pose proof (Qfloor_resp_le 0 q E) as H. change (Qfloor 0) with 0%Z in H. lia.
    + pose proof (Qfloor_resp_le q (inject_Z m) Hhi) as H.
      rewrite Qfloor_Z in H. exact H.
  - assert (Hneg : q <= 0).
    { apply Qlt_le_weak, Qnot_le_lt. intro H. apply Qle_bool_iff in H. congruence. }
    split.
    + pose proof (Qceiling_resp_le (inject_Z (- m)) q) as H.
      rewrite Qceiling_Z in H. apply H. rewrite inject_Z_opp. exact Hlo.
    + pose proof (Qceiling_resp_le q 0 Hneg) as H.
      change (Qceiling 0) with 0%Z in H. lia.
Qed.

Lemma clamp_bounds (s : Q) :
  - inject_Z 32767 <= JS.max (-1) (JS.min 1 s) * 32767
  /\ JS.max (-1) (JS.min 1 s) * 32767 <= inject_Z 32767.
Proof.
  assert (Hlo : -1 <= JS.max (-1) (JS.min 1 s)) by apply JS_max_ge_l.
  assert (Hhi : JS.max (-1) (JS.min 1 s) <= 1).
  { apply Q.max_lub; [discriminate | apply JS_min_le_l]. }
  change (inject_Z 32767) with 32767. split; lra.
Qed.

(** C3 as stated fails: for the sample 0.5 the encoder stores
    [0.5 * 32767 = 16383.5] through [setInt16], which truncates to 16383;
    rounding to nearest gives 16384. *)
Lemma audioBufferToWav_truncates_not_rounds :
  nth_error (getChannelData halfSample 0) 0 = Some (1 # 2)
  /\ exists out,
       AudioProcessor.audioBufferToWav halfSample = Some out
       /\ getInt16 out (44 + (0 * 1 + 0) * 2) = Some 16383%Z
       /\ JS.round (JS.max (-1) (JS.min 1 (1 # 2)) * 32767) = 16384%Z.
Proof.
  split; [reflexivity|]. eexists. split; [vm_compute; reflexivity|].
  split; vm_compute; reflexivity.
Qed.

(** C3, amended: the 16-bit little-endian sample at byte offset
    [44 + (i * channels + c) * 2] is [clamp(s, -1, 1) * 32767] truncated
    towards zero, where [s] is sample [i] of channel [c]. *)
Theorem audioBufferToWav_sample (b : AudioBuffer) (i c : nat) (s : Q) :
  (i < length b)%nat -> (c < numberOfChannels b)%nat ->
  nth_error (getChannelData b c) i = Some s ->
  exists out,
    AudioProcessor.audioBufferToWav b = Some out
    /\ getInt16 out (44 + (Z.of_nat i * Z.of_nat (numberOfChannels b)
                           + Z.of_nat c) * 2)
       = Some (JS.trunc (JS.max (-1) (JS.min 1 s) * 32767)).
Proof.
  intros Hi Hc Hs. eexists. split; [apply audioBufferToWav_bytes|].
  set (h := headerBytes _ _ _).
  replace (44 + (Z.of_nat i * Z.of_nat (numberOfChannels b) + Z.of_nat c) * 2)%Z
    with (Z.of_nat (2 * (i * numberOfChannels b + c) + 44)) by lia.
  unfold getInt16. rewrite getLE_window.
  - rewrite <- skipn_skipn.
    replace (skipn 44 (h ++ pcmBytes b)) with (pcmBytes b)
      by (rewrite skipn_app; reflexivity).
    rewrite pcmBytes_window by assumption.
    unfold sampleBytes. rewrite leValue_leBytes.
    unfold AudioProcessor.scaledSample. rewrite Hs.
    cbn [AudioProcessor.toInt].
    destruct (clamp_bounds s) as [Hlo Hhi].
    pose proof (trunc_bounds _ 32767 ltac:(lia) Hlo Hhi) as Ht.
    set (v := JS.trunc (JS.max (-1) (JS.min 1 s) * 32767)) in *.
    change (256 ^ Z.of_nat 2)%Z with 65536%Z.
    destruct (Z_lt_dec v 0) as [Hneg | Hpos].
    + replace (v mod 65536)%Z with (v + 65536)%Z
        by (apply Z.mod_unique with (-1)%Z; lia).
      assert (E : (v + 65536 <? 32768)%Z = false) by (apply Z.ltb_ge; lia).
      rewrite E. f_equal. lia.
    + rewrite Z.mod_small by lia.
      assert (E : (v <? 32768)%Z = true) by (apply Z.ltb_lt; lia).
      rewrite E. reflexivity.
  - rewrite length_app, pcmBytes_length. subst h. rewrite headerBytes_length.
    nia.
Qed.

Lemma audioBufferToWav_sample_witness :
  exists out,
    AudioProcessor.audioBufferToWav stereoBuffer = Some out
    /\ getInt16 out (44 + (Z.of_nat 2 * Z.of_nat (numberOfChannels stereoBuffer)
                           + Z.of_nat 1) * 2)
       = Some (JS.trunc (JS.max (-1) (JS.min 1 (-1)) * 32767)).
Proof.
  apply (audioBufferToWav_sample stereoBuffer 2 1 (-1)).
  - cbn. lia.
  - cbn. lia.
  - reflexivity.
Defined.

(** The encoder never fails, and returns [44 + N * C * 2] bytes. *)
Lemma audioBufferToWav_length (b : AudioBuffer) :
  exists out,
    AudioProcessor.audioBufferToWav b = Some out
    /\ List.length out = (44 + length b * numberOfChannels b * 2)%nat.
Proof.
  eexists. split; [apply audioBufferToWav_bytes|].
  rewrite length_app, pcmBytes_length. cbn [List.length headerBytes].
  change (List.length (headerBytes (Z.of_nat (length b))
            (Z.of_nat (numberOfChannels b)) (sampleRate b))) with 44%nat.
  lia.
Qed.

(** A header field: [n] bytes at [off] of the encoded buffer decode to [v]
    once [v] fits the field. *)
Lemma header_field (h pcm : list Z) (n off : nat) (v : Z) :
  List.length h = 44%nat -> (off + n <= 44)%nat ->
  firstn n (skipn off h) = leBytes n v ->
  (0 <= v < 256 ^ Z.of_nat n)%Z ->
  getLE n (h ++ pcm) (Z.of_nat off) = Some v.
Proof.
  intros Hh Hoff Hbytes Hv.
  rewrite getLE_window by (rewrite length_app; lia).
  rewrite skipn_app, firstn_app, Hbytes, length_skipn, Hh.
  replace (off - 44)%nat with 0%nat by lia.
  replace (n - (44 - off))%nat with 0%nat by lia.
  cbn [skipn firstn]. rewrite app_nil_r, leValue_leBytes.
  rewrite Z.mod_small by exact Hv. reflexivity.
Qed.

(** C4: for a buffer of [N] frames, [C] channels and sample rate [R] whose
    sizes fit the header fields, the encoder returns exactly
    [44 + N * C * 2] bytes that start with "RIFF" and carry, little-endian,
    chunkSize [36 + dataSize], "WAVE", "fmt ", the format-chunk size 16, the
    PCM tag 1, [C], [R], byteRate [R * C * 2], blockAlign [C * 2],
    16 bits per sample, "data" and dataSize [N * C * 2]. *)
Theorem audioBufferToWav_header (b : AudioBuffer) :
  let N := Z.of_nat (length b) in
  let C := Z.of_nat (numberOfChannels b) in
  let R := sampleRate b in
  (0 <= R < 2 ^ 32)%Z -> (R * C * 2 < 2 ^ 32)%Z ->
  (36 + N * C * 2 < 2 ^ 32)%Z -> (C * 2 < 2 ^ 16)%Z ->
  exists out,
    AudioProcessor.audioBufferToWav b = Some out
    /\ Z.of_nat (List.length out) = (44 + N * C * 2)%Z
    /\ firstn 4 out = strBytes "RIFF"
    /\ getLE 4 out 4 = Some (36 + N * C * 2)%Z
    /\ firstn 8 (skipn 8 out) = strBytes "WAVEfmt "
    /\ getLE 4 out 16 = Some 16%Z
    /\ getLE 2 out 20 = Some 1%Z
    /\ getLE 2 out 22 = Some C
    /\ getLE 4 out 24 = Some R
    /\ getLE 4 out 28 = Some (R * C * 2)%Z
    /\ getLE 2 out 32 = Some (C * 2)%Z
    /\ getLE 2 out 34 = Some 16%Z
    /\ firstn 4 (skipn 36 out) = strBytes "data"
    /\ getLE 4 out 40 = Some (N * C * 2)%Z.
Proof.
  cbv zeta. intros HR HB HD HA.
  eexists. split; [apply audioBufferToWav_bytes|].
  set (N := Z.of_nat (length b)) in *.
  set (C := Z.of_nat (numberOfChannels b)) in *.
  set (R := sampleRate b) in *.
  assert (HN : (0 <= N)%Z) by (subst N; lia).
  assert (HC : (0 <= C)%Z) by (subst C; lia).
  change (2 ^ 32)%Z with 4294967296%Z in *.
  change (2 ^ 16)%Z with 65536%Z in *.
  assert (Hh : List.length (headerBytes N C R) = 44%nat) by reflexivity.
  split.
  { rewrite length_app, pcmBytes_length, Hh. subst N C. lia. }
  split; [reflexivity|].
  split.
  { apply (header_field _ _ 4 4); [exact Hh | lia | reflexivity|].
    change (256 ^ Z.of_nat 4)%Z with 4294967296%Z. nia. }
  split; [reflexivity|].
  split.
  { apply (header_field _ _ 4 16); [exact Hh | lia | reflexivity|].
    change (256 ^ Z.of_nat 4)%Z with 4294967296%Z. lia. }
  split.
  { apply (header_field _ _ 2 20); [exact Hh | lia | reflexivity|].
    change (256 ^ Z.of_nat 2)%Z with 65536%Z. lia. }
  split.
  { apply (header_field _ _ 2 22); [exact Hh | lia | reflexivity|].
    change (256 ^ Z.of_nat 2)%Z with 65536%Z. lia. }
  split.
  { apply (header_field _ _ 4 24); [exact Hh | lia | reflexivity|].
    change (256 ^ Z.of_nat 4)%Z with 4294967296%Z. lia. }
  split.
  { apply (header_field _ _ 4 28); [exact Hh | lia | reflexivity|].
    change (256 ^ Z.of_nat 4)%Z with 4294967296%Z. nia. }
  split.
  { apply (header_field _ _ 2 32); [exact Hh | lia | reflexivity|].
    change (256 ^ Z.of_nat 2)%Z with 65536%Z. lia. }
  split.
  { apply (header_field _ _ 2 34); [exact Hh | lia | reflexivity|].
    change (256 ^ Z.of_nat 2)%Z with 65536%Z. lia. }
  split; [reflexivity|].
  apply (header_field _ _ 4 40); [exact Hh | lia | reflexivity|].
  change (256 ^ Z.of_nat 4)%Z with 4294967296%Z. nia.
Qed.

Lemma audioBufferToWav_header_witness :
  exists out,
    AudioProcessor.audioBufferToWav silentSecond = Some out
    /\ Z.of_nat (List.length out) = (44 + 8 * 1 * 2)%Z
    /\ firstn 4 out = strBytes "RIFF"
    /\ getLE 4 out 40 = Some 16%Z.
Proof.
  destruct (audioBufferToWav_header silentSecond)
    as (out & H1 & H2 & H3 & _ & _ & _ & _ & _ & _ & _ & _ & _ & _ & H14).
  - cbn. lia.
  - cbn. lia.
  - cbn. lia.
  - cbn. lia.
  - exists out. repeat split; assumption.
Defined.

(** The tag bytes are the ASCII codes of "RIFF". *)
Example riff_tag : strBytes "RIFF" = [82; 73; 70; 70]%Z.
Proof. reflexivity. Qed.

(** * Further properties of the code *)

(** ** Tempo compatibility and progress stages *)

Lemma Qle_bool_comp (a a' b b' : Q) :
  a == a' -> b == b' -> Qle_bool a b = Qle_bool a' b'.
Proof.
  intros Ha Hb.
  destruct (Qle_bool a b) eqn:E1; destruct (Qle_bool a' b') eqn:E2;
    try reflexivity.
  - apply Qle_bool_iff in E1. rewrite Ha, Hb in E1.
    apply Qle_bool_iff in E1. congruence.
  - apply Qle_bool_iff in E2. rewrite <- Ha, <- Hb in E2.
    apply Qle_bool_iff in E2. congruence.
Qed.

Lemma Qabs_minus_sym (a b : Q) : Qabs (a - b) == Qabs (b - a).
Proof.
  rewrite <- (Qabs_opp (a - b)).
  assert (E : - (a - b) == b - a) by ring. rewrite E. reflexivity.
Qed.

Lemma Qmin_sym (a b : Q) : Qmin a b == Qmin b a.
Proof. apply Q.min_comm. Qed.

(** The verdict does not depend on the order of the two tempos. *)
Theorem evaluateBpmCompatibility_symmetric (bpm1 bpm2 : Q) :
  Page.evaluateBpmCompatibility bpm1 bpm2
  = Page.evaluateBpmCompatibility bpm2 bpm1.
Proof.
  unfold Page.evaluateBpmCompatibility, JS.div, JS.abs, JS.min, JS.le.
  pose proof (Qabs_minus_sym bpm1 bpm2) as Ha.
  pose proof (Qmin_sym bpm1 bpm2) as Hm.
  assert (Ez : Qeq_bool (Qmin bpm1 bpm2) 0 = Qeq_bool (Qmin bpm2 bpm1) 0).
  { destruct (Qeq_bool (Qmin bpm1 bpm2) 0) eqn:E1;
      destruct (Qeq_bool (Qmin bpm2 bpm1) 0) eqn:E2; try reflexivity.
    - apply Qeq_bool_iff in E1. rewrite Hm in E1.
      apply Qeq_bool_iff in E1. congruence.
    - apply Qeq_bool_iff in E2. rewrite <- Hm in E2.
      apply Qeq_bool_iff in E2. congruence. }
  rewrite Ez. destruct (Qeq_bool (Qmin bpm2 bpm1) 0) eqn:E; [reflexivity|].
  assert (Hq : Qabs (bpm1 - bpm2) / Qmin bpm1 bpm2 * 100
               == Qabs (bpm2 - bpm1) / Qmin bpm2 bpm1 * 100)
    by (rewrite Ha, Hm; reflexivity).
  rewrite (Qle_bool_comp _ _ 5 5 Hq (Qeq_refl 5)).
  rewrite (Qle_bool_comp _ _ 10 10 Hq (Qeq_refl 10)).
  reflexivity.
Qed.

(** For two positive tempos the verdict compares the difference with 5%
    and 10% of the slower one. *)
Lemma evaluateBpmCompatibility_positive (bpm1 bpm2 : Q) :
  0 < bpm1 -> 0 < bpm2 ->
  let d := Qabs (bpm1 - bpm2) in
  let m := Qmin bpm1 bpm2 in
  (d * 100 <= 5 * m -> Page.evaluateBpmCompatibility bpm1 bpm2 = Page.excellent)
  /\ (5 * m < d * 100 -> d * 100 <= 10 * m ->
      Page.evaluateBpmCompatibility bpm1 bpm2 = Page.mid)
  /\ (10 * m < d * 100 -> Page.evaluateBpmCompatibility bpm1 bpm2 = Page.poor).
Proof.
  intros H1 H2. cbv zeta.
  assert (Hm : 0 < Qmin bpm1 bpm2).
  { destruct (Q.min_spec bpm1 bpm2) as [[_ E] | [_ E]]; rewrite E; assumption. }
  unfold Page.evaluateBpmCompatibility, JS.abs, JS.min.
  rewrite JS_div_nonzero by lra.
  set (d := Qabs (bpm1 - bpm2)) in *. set (m := Qmin bpm1 bpm2) in *.
  assert (Hdiv : forall k, d / m * 100 <= k <-> d * 100 <= k * m).
  { intro k. split; intro H.
    - assert (E : d * 100 == (d / m * 100) * m) by (field; lra).
      rewrite E. apply Qmult_le_compat_r; [exact H | lra].
    - assert (E : d / m * 100 == (d * 100) / m) by (field; lra).
      rewrite E. apply Qle_shift_div_r; [exact Hm | exact H]. }
  repeat split; intros.
  - assert (E : JS.le (d / m * 100) 5 = true) by (apply JS_le_spec, Hdiv; assumption).
    rewrite E. reflexivity.
  - assert (E5 : JS.le (d / m * 100) 5 = false).
    { destruct (JS.le (d / m * 100) 5) eqn:E; [|reflexivity].
      apply JS_le_spec, Hdiv in E. lra. }
    assert (E10 : JS.le (d / m * 100) 10 = true) by (apply JS_le_spec, Hdiv; assumption).
    rewrite E5, E10. reflexivity.
  - assert (E5 : JS.le (d / m * 100) 5 = false).
    { destruct (JS.le (d / m * 100) 5) eqn:E; [|reflexivity].
      apply JS_le_spec, Hdiv in E. lra. }
    assert (E10 : JS.le (d / m * 100) 10 = false).
    { destruct (JS.le (d / m * 100) 10) eqn:E; [|reflexivity].
      apply JS_le_spec, Hdiv in E. lra. }
    rewrite E5, E10. reflexivity.
Qed.

(** Tempos inside the band that [findBeats] reports, [85 .. 175]: at most
    4 BPM apart they are always "excellent", more than 17.5 BPM apart
    always "poor". *)
Theorem evaluateBpmCompatibility_in_band (bpm1 bpm2 : Q) :
  85 <= bpm1 <= 175 -> 85 <= bpm2 <= 175 ->
  (Qabs (bpm1 - bpm2) <= 4 ->
   Page.evaluateBpmCompatibility bpm1 bpm2 = Page.excellent)
  /\ (35 # 2 < Qabs (bpm1 - bpm2) ->
      Page.evaluateBpmCompatibility bpm1 bpm2 = Page.poor).
Proof.
  intros [L1 U1] [L2 U2].
  destruct (evaluateBpmCompatibility_positive bpm1 bpm2) as (He & _ & Hp);
    [lra | lra |].
  assert (Hm : 85 <= Qmin bpm1 bpm2 <= 175).
  { destruct (Q.min_spec bpm1 bpm2) as [[_ E] | [_ E]]; rewrite E; split; assumption. }
  split; intro H; [apply He | apply Hp]; lra.
Qed.

Lemma evaluateBpmCompatibility_in_band_witness :
  Page.evaluateBpmCompatibility 128 124 = Page.excellent
  /\ Page.evaluateBpmCompatibility 90 170 = Page.poor.
Proof.
  split.
  - apply (evaluateBpmCompatibility_in_band 128 124);
      [split; discriminate | split; discriminate | vm_compute; discriminate].
  - apply (evaluateBpmCompatibility_in_band 90 170);
      [split; discriminate | split; discriminate | vm_compute; reflexivity].
Defined.

(** A tempo of zero never rates better than "poor": the percentage is not
    a finite number. *)
Theorem evaluateBpmCompatibility_zero (bpm : Q) :
  0 <= bpm ->
  Page.evaluateBpmCompatibility 0 bpm = Page.poor
  /\ Page.evaluateBpmCompatibility bpm 0 = Page.poor.
Proof.
  intro H.
  assert (E : Page.evaluateBpmCompatibility 0 bpm = Page.poor).
  { unfold Page.evaluateBpmCompatibility, JS.div, JS.min.
    assert (Ez : Qeq_bool (Qmin 0 bpm) 0 = true)
      by (apply Qeq_bool_iff, Q.min_l; exact H).
    rewrite Ez. reflexivity. }
  split; [exact E|].
  unfold Page.evaluateBpmCompatibility, JS.div, JS.min.
  assert (Ez : Qeq_bool (Qmin bpm 0) 0 = true)
    by (apply Qeq_bool_iff, Q.min_r; exact H).
  rewrite Ez. reflexivity.
Qed.

Lemma evaluateBpmCompatibility_zero_witness :
  Page.evaluateBpmCompatibility 0 0 = Page.poor.
Proof.
  apply (evaluateBpmCompatibility_zero 0). discriminate.
Defined.

(** The stage shown never goes back when the progress grows, and the
    percentage shown for a progress in [0 .. 1] stays in [0 .. 100]. *)
Theorem stageOfProgress_monotone (p q : Q) :
  p <= q ->
  (stageRank (Page.stageOfProgress p) <= stageRank (Page.stageOfProgress q))%nat
  /\ (Page.percentOfProgress p <= Page.percentOfProgress q)%Z
  /\ (0 <= p -> q <= 1 ->
      (0 <= Page.percentOfProgress p)%Z /\ (Page.percentOfProgress q <= 100)%Z).
Proof.
  intro Hpq. split; [|split].
  - unfold Page.stageOfProgress.
    destruct (JS.le p (3 # 10)) eqn:P1; destruct (JS.le q (3 # 10)) eqn:Q1;
    destruct (JS.le p (7 # 10)) eqn:P2; destruct (JS.le q (7 # 10)) eqn:Q2;
    destruct (JS.lt p 1) eqn:P3; destruct (JS.lt q 1) eqn:Q3;
    cbn; try lia; exfalso;
    repeat match goal with
    | H : JS.le _ _ = true |- _ => apply JS_le_spec in H
    | H : JS.lt _ _ = true |- _ => apply JS_lt_spec in H
    | H : JS.le ?a ?b = false |- _ =>
        assert (b < a)
          by (apply Qnot_le_lt; intro Hc; apply JS_le_spec in Hc; congruence);
        clear H
    | H : JS.lt ?a ?b = false |- _ =>
        assert (b <= a)
          by (apply Qnot_lt_le; intro Hc; apply JS_lt_spec in Hc; congruence);
        clear H
    end; lra.
  - unfold Page.percentOfProgress, JS.round. apply Qfloor_resp_le.
    apply Qplus_le_compat; [|apply Qle_refl].
    apply Qmult_le_compat_r; [exact Hpq | discriminate].
  - intros H0 H1. unfold Page.percentOfProgress, JS.round. split.
    + assert (Hq : 0 <= p * 100 + (1 # 2)) by nra.
      apply Qfloor_resp_le in Hq. exact Hq.
    + assert (Hq : q * 100 + (1 # 2) <= 100 + (1 # 2)) by nra.
      apply Qfloor_resp_le in Hq. exact Hq.
Qed.

Lemma stageOfProgress_monotone_witness :
  (stageRank (Page.stageOfProgress (5 # 10))
   <= stageRank (Page.stageOfProgress (9 # 10)))%nat.
Proof.
  apply (stageOfProgress_monotone (5 # 10) (9 # 10)). discriminate.
Defined.

(** ** The guarded three-category classifier *)

Lemma classifyWithTrainedModel_facts (rms tempo peakAmp brightness : Q) :
  let ea := EnergyDetectorGuarded.classifyWithTrainedModel rms tempo peakAmp brightness in
  sumsToOne 0 ea
  /\ confidenceIsMaxProb ea
  /\ 4 # 10 <= confidence ea /\ confidence ea <= 1
  /\ (class_id ea < 3)%nat
  /\ energy_level ea = nth (class_id ea) EnergyDetectorGuarded.energyLevels ""%string.
Proof.
  cbv zeta. unfold EnergyDetectorGuarded.classifyWithTrainedModel.
  generalize (JS.min 1 (rms * 3)).
  generalize (JS.max 0 (JS.min 1 ((tempo - 60) / 120))).
  generalize (JS.min 1 (peakAmp * (3 # 2))).
  generalize (JS.max 0 (JS.min 1 ((brightness - 1000) / 6000))).
  intros nb np nt nr. unfold EnergyDetectorGuarded.bump.
  destruct (JS.lt nr (3 # 10)); [|destruct (JS.lt nr (6 # 10))];
  (destruct (JS.lt nt (3 # 10)); [|destruct (JS.lt nt (7 # 10))]);
  (destruct (JS.lt np (4 # 10)); [|destruct (JS.lt np (7 # 10))]);
  (destruct (JS.lt nb (3 # 10)); [|destruct (JS.lt nb (7 # 10))]);
  (split; [eexists; split; [reflexivity | vm_compute; discriminate]|]);
  (split; [eexists; split; [reflexivity | vm_compute; reflexivity]|]);
  (split; [vm_compute; discriminate|]);
  (split; [vm_compute; discriminate|]);
  (split; [vm_compute; lia | reflexivity]).
Qed.

(** Whatever the four features, the three scores are the four weights
    0.4, 0.3, 0.2 and 0.1 shared out: they sum to 1, so the probabilities
    are the scores; the confidence is the largest probability and is at
    least 0.4. *)
Theorem classifyWithTrainedModel_normalized (rms tempo peakAmp brightness : Q) :
  let ea := EnergyDetectorGuarded.classifyWithTrainedModel rms tempo peakAmp brightness in
  sumsToOne 0 ea
  /\ confidenceIsMaxProb ea
  /\ 4 # 10 <= confidence ea /\ confidence ea <= 1
  /\ (class_id ea < 3)%nat
  /\ energy_level ea = nth (class_id ea) EnergyDetectorGuarded.energyLevels ""%string.
Proof. apply classifyWithTrainedModel_facts. Qed.

(** The sampling loop visits exactly [n] samples when the last of them is
    still inside the data, and keeps its two accumulators non-negative. *)
Lemma sampleLoop_count (data : list Q) (step : nat) :
  forall (n i : nat) (st : Q * Q * nat),
    (n = 0 \/ i + (n - 1) * step < List.length data)%nat ->
    0 <= fst (fst st) -> 0 <= snd (fst st) ->
    let r := EnergyDetectorGuarded.sampleLoop data step n i st in
    snd r = (snd st + n)%nat /\ 0 <= fst (fst r) /\ 0 <= snd (fst r).
Proof.
  induction n as [|n IH]; intros i [[ss pk] cnt] Hin Hss Hpk; cbn [fst snd] in *.
  - cbn. repeat split; try assumption. lia.
  - cbn [EnergyDetectorGuarded.sampleLoop].
    assert (E : (i <? List.length data)%nat = true) by (apply Nat.ltb_lt; lia).
    rewrite E.
    edestruct (IH (i + step)%nat
                 (ss + nth i data 0 * nth i data 0,
                  (if JS.gt (JS.abs (nth i data 0)) pk
                   then JS.abs (nth i data 0) else pk), S cnt))
      as (Hc & Hs & Hp).
    + destruct n as [|n]; [left; reflexivity | right]. cbn in Hin |- *. nia.
    + cbn [fst snd]. nra.
    + cbn [fst snd]. destruct (JS.gt _ _); [apply Qabs_nonneg | exact Hpk].
    + cbn [fst snd] in *. cbv zeta in *. repeat split; try assumption.
      rewrite Hc. lia.
Qed.

(** For a buffer that passes the three checks, the loop of [analyzeEnergy]
    visits exactly [min(10000, length)] samples: the mean square it hands
    to [Math.sqrt] is a quotient by a positive count. *)
Theorem analyzeEnergy_sample_count (data : list Q) :
  data <> [] ->
  let sampleSize := Nat.min (Z.to_nat 10000) (List.length data) in
  let step := Nat.max 1 (List.length data / sampleSize) in
  let r := EnergyDetectorGuarded.sampleLoop data step sampleSize 0 (0, 0, 0%nat) in
  snd r = sampleSize /\ (1 <= snd r)%nat /\ (Z.of_nat (snd r) <= 10000)%Z
  /\ 0 <= fst (fst r) /\ 0 <= snd (fst r).
Proof.
  intro Hne. cbv zeta.
  set (len := List.length data).
  assert (Hlen : (1 <= len)%nat).
  { subst len. destruct data; [contradiction | cbn; lia]. }
  set (n := Nat.min (Z.to_nat 10000) len).
  assert (Hn : (1 <= n <= len)%nat /\ (Z.of_nat n <= 10000)%Z).
  { subst n. lia. }
  destruct (sampleLoop_count data (Nat.max 1 (len / n)) n 0 (0, 0, 0%nat))
    as (Hc & Hs & Hp).
  - right. fold len.
    pose proof (Nat.Div0.mul_div_le len n) as Hq.
    assert (1 <= len / n)%nat by (apply Nat.div_le_lower_bound; lia).
    rewrite Nat.max_r by lia. cbn [Nat.add]. nia.
  - cbn. discriminate.
  - cbn. discriminate.
  - cbv zeta in *. cbn [fst snd] in *. rewrite Hc.
    repeat split; try assumption; lia.
Qed.

Lemma analyzeEnergy_sample_count_witness :
  snd (EnergyDetectorGuarded.sampleLoop [1 # 2; -1 # 4; 3 # 4]
         (Nat.max 1 (3 / Nat.min (Z.to_nat 10000) 3))
         (Nat.min (Z.to_nat 10000) 3) 0 (0, 0, 0%nat))
  = Nat.min (Z.to_nat 10000) 3.
Proof.
  apply (analyzeEnergy_sample_count [1 # 2; -1 # 4; 3 # 4]). discriminate.
Defined.

(** Whatever the buffer, and whatever [Math.sqrt] returns, the guarded
    [analyzeEnergy] returns an analysis whose probabilities sum to 1, whose
    confidence lies in [0.4 .. 1] and whose label is one of the three
    categories, at the position [class_id]. *)
Theorem analyzeEnergy_guarded_analysis (sqrt : Q -> Q) (b : AudioBuffer) :
  exists ea,
    EnergyDetectorGuarded.analyzeEnergy sqrt b = Returns ea
    /\ sumsToOne 0 ea
    /\ 4 # 10 <= confidence ea /\ confidence ea <= 1
    /\ (class_id ea < 3)%nat
    /\ energy_level ea = nth (class_id ea) EnergyDetectorGuarded.energyLevels ""%string.
Proof.
  assert (Hfb : sumsToOne 0 EnergyDetectorGuarded.fallback
                /\ 4 # 10 <= confidence EnergyDetectorGuarded.fallback
                /\ confidence EnergyDetectorGuarded.fallback <= 1
                /\ (class_id EnergyDetectorGuarded.fallback < 3)%nat
                /\ energy_level EnergyDetectorGuarded.fallback
                   = nth (class_id EnergyDetectorGuarded.fallback)
                         EnergyDetectorGuarded.energyLevels ""%string).
  { split; [eexists; split; [reflexivity | vm_compute; discriminate]|].
    repeat split; try (vm_compute; discriminate). cbn. lia. }
  unfold EnergyDetectorGuarded.analyzeEnergy, EnergyDetectorGuarded.analyzeBody.
  destruct (length b =? 0)%nat; [eexists; split; [reflexivity | exact Hfb]|].
  destruct (numberOfChannels b =? 0)%nat; [eexists; split; [reflexivity | exact Hfb]|].
  destruct (List.length (nth 0 (channelData b) []) =? 0)%nat;
    [eexists; split; [reflexivity | exact Hfb]|].
  destruct (EnergyDetectorGuarded.sampleLoop _ _ _ _ _) as [[ss pk] cnt].
  eexists. split; [reflexivity|].
  match goal with
  | |- context [EnergyDetectorGuarded.classifyWithTrainedModel ?r ?t ?p ?br] =>
      destruct (classifyWithTrainedModel_facts r t p br)
        as (H1 & _ & H3 & H4 & H5 & H6)
  end.
  repeat split; assumption.
Qed.

(** ** The five-category classifier on features in range *)

Lemma abs_cases (x : Q) :
  (0 <= x /\ JS.abs x == x) \/ (x <= 0 /\ JS.abs x == - x).
Proof.
  destruct (Qlt_le_dec x 0) as [H | H]; [right | left]; split.
  - apply Qlt_le_weak, H.
  - apply Qabs_neg, Qlt_le_weak, H.
  - exact H.
  - apply Qabs_pos, H.
Qed.

(** The binary64 operations preserve the order of their arguments. *)
Lemma F64_add_mono (x x' y y' : Q) :
  x <= x' -> y <= y' -> F64.add x y <= F64.add x' y'.
Proof. intros Hx Hy. apply round_le. lra. Qed.

Lemma F64_sub_mono (x x' y y' : Q) :
  x <= x' -> y' <= y -> F64.sub x y <= F64.sub x' y'.
Proof. intros Hx Hy. apply round_le. lra. Qed.

Lemma F64_mul_mono (x x' w : Q) :
  0 <= w -> x <= x' -> F64.mul x w <= F64.mul x' w.
Proof. intros Hw Hx. apply round_le. nra. Qed.

Lemma JS_min_mono (x x' : Q) : x <= x' -> JS.min x 1 <= JS.min x' 1.
Proof.
  intro H. apply Q.min_glb.
  - eapply Qle_trans; [apply JS_min_le_l | exact H].
  - apply JS_min_le_r.
Qed.

Lemma JS_abs_upper (x L U : Q) : L <= x -> x <= U -> JS.abs x <= Qmax (- L) U.
Proof.
  intros HL HU. apply Qabs_Qle_condition.
  pose proof (Q.le_max_l (- L) U). pose proof (Q.le_max_r (- L) U). split; lra.
Qed.

Lemma JS_abs_lower (x L : Q) : L <= x -> Qmax 0 L <= JS.abs x.
Proof.
  intro HL. apply Q.max_lub; [apply Qabs_nonneg|].
  eapply Qle_trans; [exact HL | apply Qle_Qabs].
Qed.

(** Bounds of an expression of binary64 operations from the bounds of its
    variables in the context: [bound_lo] solves [?l <= e] and [bound_hi]
    solves [e <= ?u], choosing [?l] and [?u]. *)
Ltac bound_lo :=
  lazymatch goal with
  | |- _ <= F64.add _ _ => eapply F64_add_mono; [bound_lo | bound_lo]
  | |- _ <= F64.sub _ _ => eapply F64_sub_mono; [bound_lo | bound_hi]
  | |- _ <= F64.mul _ _ =>
      eapply F64_mul_mono; [vm_compute; discriminate | bound_lo]
  | |- _ <= F64.div _ _ =>
      eapply F64_div_mono; [vm_compute; reflexivity | bound_lo]
  | |- _ <= JS.min _ 1 => eapply JS_min_mono; bound_lo
  | |- _ <= JS.abs _ => eapply JS_abs_lower; bound_lo
  | |- _ <= ?x => tryif is_var x then eassumption else apply Qle_refl
  end
with bound_hi :=
  lazymatch goal with
  | |- F64.add _ _ <= _ => eapply F64_add_mono; [bound_hi | bound_hi]
  | |- F64.sub _ _ <= _ => eapply F64_sub_mono; [bound_hi | bound_lo]
  | |- F64.mul _ _ <= _ =>
      eapply F64_mul_mono; [vm_compute; discriminate | bound_hi]
  | |- F64.div _ _ <= _ =>
      eapply F64_div_mono; [vm_compute; reflexivity | bound_hi]
  | |- JS.min _ 1 <= _ => apply JS_min_le_r
  | |- JS.abs _ <= _ => eapply JS_abs_upper; [bound_lo | bound_hi]
  | |- ?x <= _ => tryif is_var x then eassumption else apply Qle_refl
  end.

Ltac at_least := eapply Qle_trans; [|bound_lo]; [vm_compute; discriminate].
Ltac at_most := eapply Qle_trans; [bound_hi|]; [vm_compute; discriminate].

(** The five scores for features in range: they lie in [-1 .. 1], the
    first, fourth and fifth are not negative, and their total lies in
    [0.4 .. 5]. *)
Lemma scores_in_range (features : list Q) :
  featuresInRange features ->
  exists a b c d e,
    EnergyDetector.scores features = [a; b; c; d; e]
    /\ 0 <= a /\ a <= 1 /\ -1 <= b /\ b <= 1 /\ -1 <= c /\ c <= 1
    /\ 0 <= d /\ d <= 1 /\ 0 <= e /\ e <= 1
    /\ 2 # 5 <= EnergyDetector.totalScore [a; b; c; d; e]
    /\ EnergyDetector.totalScore [a; b; c; d; e] <= 5.
Proof.
  intros (Hr0 & Hr1 & Hc & Hz & Ht0 & Ht1 & Hp & Hb).
  unfold EnergyDetector.scores, EnergyDetector.totalScore.
  set (r := EnergyDetector.feat features 0) in *.
  set (c := EnergyDetector.feat features 1) in *.
  set (z := EnergyDetector.feat features 2) in *.
  set (t := EnergyDetector.feat features 5) in *.
  set (pk := EnergyDetector.feat features 6) in *.
  set (bs := EnergyDetector.feat features 9) in *.
  clearbody r c z t pk bs.
  do 5 eexists. split; [reflexivity|]. cbn [fold_left].
  split; [at_least|]. split; [at_most|]. split; [at_least|]. split; [at_most|].
  split; [at_least|]. split; [at_most|]. split; [at_least|]. split; [at_most|].
  split; [at_least|]. split; [at_most|]. split; [|at_most].
  destruct (Qlt_le_dec r (F64.round (6 # 10))) as [Hlow | Hhigh].
  - apply Qlt_le_weak in Hlow. clear Hr1. at_least.
  - clear Hr0. at_least.
Qed.

(** For features in range the five-category classifier is well defined:
    the total score lies in [0.4 .. 5], so the five probabilities are
    finite numbers, and they sum to 1 within [1e-6]; the confidence lies in
    [0 .. 1], and the largest probability is the confidence divided by the
    total score. *)
Theorem predictEnergyLevel_in_range (features : list Q) :
  List.length features = 25%nat ->
  featuresInRange features ->
  let ea := EnergyDetector.predictEnergyLevel features in
  let total := EnergyDetector.totalScore (EnergyDetector.scores features) in
  2 # 5 <= total /\ total <= 5
  /\ sumsToOne (1 # 1000000) ea
  /\ 0 <= confidence ea /\ confidence ea <= 1
  /\ exists m, probMax (probabilities ea) = Some m
               /\ m == F64.div (confidence ea) total.
Proof.
  intros _ Hr. cbv zeta.
  destruct (scores_in_range features Hr)
    as (a & b & c & d & e & Hsc & Ha0 & Ha1 & Hb0 & Hb1 & Hc0 & Hc1
        & Hd0 & Hd1 & He0 & He1 & Ht0 & Ht1).
  unfold EnergyDetector.predictEnergyLevel.
  cbn [confidence probabilities]. rewrite Hsc.
  set (t := EnergyDetector.totalScore [a; b; c; d; e]) in *.
  assert (Et : Qabs t == t) by (apply Qabs_pos; lra).
  destruct (findBest_spec a b c d e) as (Hk & Hbest & Ha & _).
  cbv zeta in *.
  split; [exact Ht0|]. split; [exact Ht1|]. split; [|split; [|split]].
  - apply (probSum_normalize a b c d e); fold t; rewrite Et; [lra|].
    assert (Ba : Qabs a <= 1) by (apply Qabs_le_of_bounds; lra).
    assert (Bb : Qabs b <= 1) by (apply Qabs_le_of_bounds; lra).
    assert (Bc : Qabs c <= 1) by (apply Qabs_le_of_bounds; lra).
    assert (Bd : Qabs d <= 1) by (apply Qabs_le_of_bounds; lra).
    assert (Be : Qabs e <= 1) by (apply Qabs_le_of_bounds; lra).
    lra.
  - lra.
  - rewrite Hbest.
    destruct (fst (EnergyDetector.findBest [a; b; c; d; e]))
      as [|[|[|[|[|k]]]]]; cbn [nth]; try assumption; lia.
  - apply (probMax_normalize a b c d e). fold t. lra.
Qed.

Lemma predictEnergyLevel_in_range_witness :
  0 <= confidence (EnergyDetector.predictEnergyLevel ordinaryFeatures)
  /\ confidence (EnergyDetector.predictEnergyLevel ordinaryFeatures) <= 1
  /\ sumsToOne (1 # 1000000) (EnergyDetector.predictEnergyLevel ordinaryFeatures).
Proof.
  destruct (predictEnergyLevel_in_range ordinaryFeatures)
    as (_ & _ & Hs & H0 & H1 & _).
  - reflexivity.
  - repeat split; vm_compute; discriminate.
  - split; [exact H0 | split; [exact H1 | exact Hs]].
Defined.

(** The "probabilities" are not confined to [0 .. 1]: for a loud track
    (RMS of 0.7 or more) at the top tempo 180 with a zero-crossing rate of
    0.1 or more, the score of "Lounge" is at most -0.09 and its entry among
    the probabilities is a negative number, at most -0.01. *)
Theorem predictEnergyLevel_negative_probability (features : list Q) :
  List.length features = 25%nat ->
  featuresInRange features ->
  F64.round (7 # 10) <= EnergyDetector.feat features 0 ->
  180 <= EnergyDetector.feat features 5 ->
  F64.round (1 # 10) <= EnergyDetector.feat features 2 ->
  nth 1 (EnergyDetector.scores features) 0 <= - (9 # 100)
  /\ exists p,
       nth 1 (probabilities (EnergyDetector.predictEnergyLevel features))
           (""%string, None)
       = ("Lounge"%string, Some p)
       /\ p <= - (1 # 100).
Proof.
  intros _ Hr Hrms Ht Hz.
  destruct (scores_in_range features Hr)
    as (a & b & c & d & e & Hsc & _ & _ & _ & _ & _ & _ & _ & _ & _ & _ & Ht0 & Ht1).
  assert (Hb : nth 1 (EnergyDetector.scores features) 0 <= - (9 # 100)).
  { destruct Hr as (_ & Hr1 & _ & _ & _ & Ht1' & _ & _).
    unfold EnergyDetector.scores. cbn [nth].
    set (r := EnergyDetector.feat features 0) in *.
    set (z := EnergyDetector.feat features 2) in *.
    set (t := EnergyDetector.feat features 5) in *.
    clearbody r z t. at_most. }
  split; [exact Hb|].
  unfold EnergyDetector.predictEnergyLevel. cbn [probabilities].
  rewrite Hsc in *. cbn [nth] in Hb.
  set (T := EnergyDetector.totalScore [a; b; c; d; e]) in *.
  unfold EnergyDetector.normalize. fold T.
  cbn [seq combine map fst snd nth].
  rewrite quotient_nonzero by lra.
  eexists. split; [reflexivity|].
  apply (Qle_trans _ (F64.round (- (9 # 500)))); [|vm_compute; discriminate].
  apply round_le. apply Qle_shift_div_r; [lra | nra].
Qed.

Lemma predictEnergyLevel_negative_probability_witness :
  exists p,
    nth 1 (probabilities (EnergyDetector.predictEnergyLevel loudFeatures))
        (""%string, None)
    = ("Lounge"%string, Some p)
    /\ p <= - (1 # 100).
Proof.
  apply (predictEnergyLevel_negative_probability loudFeatures).
  - reflexivity.
  - repeat split; vm_compute; discriminate.
  - vm_compute. discriminate.
  - vm_compute. discriminate.
  - vm_compute. discriminate.
Defined.

(** ** Time-domain features of the five-category classifier *)

Lemma max_cases (x y : Q) :
  (x <= y /\ JS.max x y == y) \/ (y <= x /\ JS.max x y == x).
Proof.
  destruct (Q.max_spec x y) as [[H E] | [H E]]; [left | right]; split;
    try exact E; try exact H. apply Qlt_le_weak, H.
Qed.

Lemma min_cases (x y : Q) :
  (x <= y /\ JS.min x y == x) \/ (y <= x /\ JS.min x y == y).
Proof.
  destruct (Q.min_spec x y) as [[H E] | [H E]]; [left | right]; split;
    try exact E; try exact H. apply Qlt_le_weak, H.
Qed.

(** The loops of [calculatePeakAmplitude] and [calculateDynamicRange], run
    side by side: the extremes straddle zero and stay within the peak, and
    the peak stays within their distance. *)
Lemma peak_range_invariant (data : list Q) :
  forall (p mn mx : Q),
    mn <= 0 -> 0 <= mx -> p <= mx - mn -> mx <= p -> - p <= mn ->
    let p' := fold_left (fun peak x => JS.max peak (JS.abs x)) data p in
    let st := fold_left EnergyDetectorFeatures.rangeStep data (mn, mx) in
    fst st <= 0 /\ 0 <= snd st /\ p' <= snd st - fst st
    /\ snd st <= p' /\ - p' <= fst st /\ p <= p'
    /\ Forall (fun x => JS.abs x <= p') data.
Proof.
  induction data as [|x data IH]; intros p mn mx H1 H2 H3 H4 H5; cbn [fold_left].
  - cbn. repeat split; try assumption; try apply Qle_refl. constructor.
  - unfold EnergyDetectorFeatures.rangeStep at 2. cbn [fst snd].
    destruct (max_cases p (JS.abs x)) as [[Hp Ep] | [Hp Ep]];
    destruct (min_cases mn x) as [[Hn En] | [Hn En]];
    destruct (max_cases mx x) as [[Hm Em] | [Hm Em]];
    destruct (abs_cases x) as [[Hx Ex] | [Hx Ex]];
    (edestruct (IH (JS.max p (JS.abs x)) (JS.min mn x) (JS.max mx x))
       as (I1 & I2 & I3 & I4 & I5 & I6 & I7);
     [lra | lra | lra | lra | lra |
      cbv zeta in *; repeat split; try assumption; try lra;
      constructor; [lra | exact I7]]).
Qed.

(** The peak amplitude bounds every sample, and the dynamic range lies
    between the peak and twice the peak: both extremes start at zero, so a
    signal of one sign has a range equal to its peak. *)
Theorem peak_and_dynamic_range (channelData : list Q) :
  let peak := EnergyDetectorFeatures.calculatePeakAmplitude channelData in
  let range := EnergyDetectorFeatures.calculateDynamicRange channelData in
  0 <= peak
  /\ Forall (fun x => JS.abs x <= peak) channelData
  /\ peak <= range /\ range <= 2 * peak.
Proof.
  cbv zeta.
  unfold EnergyDetectorFeatures.calculatePeakAmplitude,
    EnergyDetectorFeatures.calculateDynamicRange.
  destruct (peak_range_invariant channelData 0 0 0)
    as (I1 & I2 & I3 & I4 & I5 & I6 & I7); try lra.
  cbv zeta in *. repeat split; try assumption; lra.
Qed.

Lemma count_if_le {A : Type} (test : A -> bool) (l : list A) (c0 : nat) :
  (fold_left (fun c i => if test i then S c else c) l c0 <= c0 + List.length l)%nat.
Proof.
  revert c0. induction l as [|x l IH]; intro c0; cbn [fold_left List.length].
  - lia.
  - destruct (test x).
    + specialize (IH (S c0)). lia.
    + specialize (IH c0). lia.
Qed.

Lemma count_if_none {A : Type} (test : A -> bool) (l : list A) (c0 : nat) :
  (forall x, In x l -> test x = false) ->
  fold_left (fun c i => if test i then S c else c) l c0 = c0.
Proof.
  revert c0. induction l as [|x l IH]; intros c0 H; cbn [fold_left].
  - reflexivity.
  - rewrite (H x) by (left; reflexivity). apply IH.
    intros y Hy. apply H. right. exact Hy.
Qed.

(** The zero-crossing rate of a non-empty signal lies in [0 .. 1), that of
    an empty one is not a number, and a signal without negative sample has
    none. *)
Theorem calculateZeroCrossingRate_range (channelData : list Q) :
  (channelData = [] ->
   EnergyDetectorFeatures.calculateZeroCrossingRate channelData = None)
  /\ (channelData <> [] ->
      exists z,
        EnergyDetectorFeatures.calculateZeroCrossingRate channelData = Some z
        /\ 0 <= z /\ z < 1)
  /\ (Forall (fun x => 0 <= x) channelData ->
      EnergyDetectorFeatures.countCrossings channelData = 0%nat).
Proof.
  split; [|split].
  - intros ->. reflexivity.
  - intro Hne. unfold EnergyDetectorFeatures.calculateZeroCrossingRate.
    assert (Hlen : (1 <= List.length channelData)%nat).
    { destruct channelData; [contradiction | cbn; lia]. }
    assert (Hpos : 0 < inject_Z (Z.of_nat (List.length channelData))).
    { change 0 with (inject_Z 0). rewrite <- Zlt_Qlt. lia. }
    rewrite JS_div_nonzero by lra.
    eexists. split; [reflexivity|].
    assert (Hc : (EnergyDetectorFeatures.countCrossings channelData
                  <= List.length channelData - 1)%nat).
    { unfold EnergyDetectorFeatures.countCrossings.
      pose proof (count_if_le
                    (fun i => EnergyDetectorFeatures.crosses
                                (nth i channelData 0) (nth (i - 1) channelData 0))
                    (seq 1 (List.length channelData - 1)) 0) as H.
      rewrite length_seq in H. exact H. }
    split.
    + apply Qle_shift_div_l; [exact Hpos|]. rewrite Qmult_0_l.
      change 0 with (inject_Z 0). rewrite <- Zle_Qle. lia.
    + apply Qlt_shift_div_r; [exact Hpos|]. rewrite Qmult_1_l.
      rewrite <- Zlt_Qlt. lia.
  - intro Hall. unfold EnergyDetectorFeatures.countCrossings.
    apply count_if_none. intros i Hi. apply in_seq in Hi.
    assert (Hnth : forall k, 0 <= nth k channelData 0).
    { intro k. destruct (Nat.lt_ge_cases k (List.length channelData)) as [Hk | Hk].
      - rewrite Forall_forall in Hall. apply Hall, nth_In, Hk.
      - rewrite nth_overflow by exact Hk. discriminate. }
    unfold EnergyDetectorFeatures.crosses.
    assert (Hneg : forall k, JS.lt (nth k channelData 0) 0 = false).
    { intro k. destruct (JS.lt (nth k channelData 0) 0) eqn:E; [|reflexivity].
      apply JS_lt_spec in E. specialize (Hnth k). lra. }
    pose proof (Hneg (i - 1)%nat) as E1. pose proof (Hneg i) as E2.
    rewrite E1, E2, andb_false_r. reflexivity.
Qed.

Lemma calculateZeroCrossingRate_range_witness :
  exists z,
    EnergyDetectorFeatures.calculateZeroCrossingRate [1 # 2; -1 # 2; 1 # 4] = Some z
    /\ 0 <= z /\ z < 1.
Proof.
  apply (calculateZeroCrossingRate_range [1 # 2; -1 # 2; 1 # 4]). discriminate.
Defined.

Lemma fold_seq_invariant {A : Type} (f : A -> nat -> A) (P : nat -> A -> Prop) :
  forall (n s : nat) (a : A),
    P s a ->
    (forall i a, (s <= i < s + n)%nat -> P i a -> P (S i) (f a i)) ->
    P (s + n)%nat (fold_left f (seq s n) a).
Proof.
  induction n as [|n IH]; intros s a Ha Hstep; cbn [seq fold_left].
  - rewrite Nat.add_0_r. exact Ha.
  - replace (s + S n)%nat with (S s + n)%nat by lia. apply IH.
    + apply Hstep; [lia | exact Ha].
    + intros i a' Hi. apply Hstep. lia.
Qed.

Lemma last_in_list (l : list Z) : l <> [] -> In (last l 0%Z) l.
Proof.
  intro H. rewrite (app_removelast_last 0%Z H) at 2.
  apply in_or_app. right. left. reflexivity.
Qed.

Lemma findPeaks_facts (array : list Q) :
  let peaks := EnergyDetectorFeatures.findPeaks array in
  Forall (fun i => (1 <= i)%nat /\ (i + 1 < List.length array)%nat
                   /\ isPeak array i) peaks
  /\ spaced 1 (map Z.of_nat peaks)
  /\ (forall i, (1 <= i)%nat -> (i + 1 < List.length array)%nat ->
                isPeak array i -> In i peaks).
Proof.
  cbv zeta. unfold EnergyDetectorFeatures.findPeaks.
  set (n := (List.length array - 2)%nat).
  set (Inv := fun (s : nat) (peaks : list nat) =>
                Forall (fun i => (1 <= i < s)%nat /\ isPeak array i) peaks
                /\ spaced 1 (map Z.of_nat peaks)
                /\ (forall i, (1 <= i < s)%nat -> isPeak array i -> In i peaks)).
  assert (H : Inv (1 + n)%nat
                (fold_left
                   (fun peaks i =>
                      if JS.gt (nth i array 0) (nth (i - 1) array 0)
                         && JS.gt (nth i array 0) (nth (i + 1) array 0)
                      then peaks ++ [i] else peaks)
                   (seq 1 n) [])).
  { apply fold_seq_invariant.
    - split; [constructor|]. split; [constructor|]. intros i Hi. lia.
    - intros i peaks Hi (Hall & Hsp & Hcompl).
      destruct (JS.gt (nth i array 0) (nth (i - 1) array 0)) eqn:E1;
        [destruct (JS.gt (nth i array 0) (nth (i + 1) array 0)) eqn:E2|];
        cbn [andb].
      + apply JS_gt_spec in E1. apply JS_gt_spec in E2.
        assert (Hpk : isPeak array i) by (split; assumption).
        split; [|split].
        * apply Forall_app. split.
          -- eapply Forall_impl; [|exact Hall]. cbn. intros j [Hj Hp].
             split; [lia | exact Hp].
          -- constructor; [|constructor]. split; [lia | exact Hpk].
        * unfold spaced in *. rewrite map_app. cbn [map].
          destruct peaks as [|p0 peaks']; [constructor|].
          rewrite intervalsOf_snoc by discriminate.
          apply Forall_app. split; [exact Hsp|].
          constructor; [|constructor].
          pose proof (last_in_list (map Z.of_nat (p0 :: peaks')) ltac:(discriminate))
            as Hlast.
          apply in_map_iff in Hlast. destruct Hlast as (j & Hj & Hin).
          rewrite <- Hj.
          rewrite Forall_forall in Hall. destruct (Hall j Hin) as [Hjr [_ Hj2]].
          assert (j <> i - 1)%nat.
          { intros ->. replace (i - 1 + 1)%nat with i in Hj2 by lia. lra. }
          lia.
        * intros k Hk Hp. apply in_or_app.
          destruct (Nat.eq_dec k i) as [-> | Hne]; [right; left; reflexivity|].
          left. apply Hcompl; [lia | exact Hp].
      + apply JS_gt_spec in E1. apply JS_gt_false in E2.
        split; [|split; [exact Hsp|]].
        * eapply Forall_impl; [|exact Hall]. cbn. intros j [Hj Hp].
          split; [lia | exact Hp].
        * intros k Hk Hp.
          destruct (Nat.eq_dec k i) as [-> | Hne];
            [destruct Hp as [_ Hp]; lra | apply Hcompl; [lia | exact Hp]].
      + apply JS_gt_false in E1.
        split; [|split; [exact Hsp|]].
        * eapply Forall_impl; [|exact Hall]. cbn. intros j [Hj Hp].
          split; [lia | exact Hp].
        * intros k Hk Hp.
          destruct (Nat.eq_dec k i) as [-> | Hne];
            [destruct Hp as [Hp _]; lra | apply Hcompl; [lia | exact Hp]]. }
  destruct H as (Hall & Hsp & Hcompl).
  split; [|split; [exact Hsp|]].
  - eapply Forall_impl; [|exact Hall]. cbn. intros j [Hj Hp].
    subst n. repeat split; try lia; apply Hp.
  - intros i H1 H2 Hp. apply Hcompl; [subst n; lia | exact Hp].
Qed.

(** [findPeaks] returns exactly the positions, from 1 to [length - 2],
    that exceed both neighbours, in increasing order; two of them are never
    next to each other. *)
Theorem findPeaks_spec (array : list Q) :
  let peaks := EnergyDetectorFeatures.findPeaks array in
  Forall (fun i => (1 <= i)%nat /\ (i + 1 < List.length array)%nat
                   /\ isPeak array i) peaks
  /\ spaced 1 (map Z.of_nat peaks)
  /\ (forall i, (1 <= i)%nat -> (i + 1 < List.length array)%nat ->
                isPeak array i -> In i peaks).
Proof. apply findPeaks_facts. Qed.

Lemma findPeaks_spec_witness :
  In 1%nat (EnergyDetectorFeatures.findPeaks [0; 1; 0; 2; 0]).
Proof.
  apply (findPeaks_spec [0; 1; 0; 2; 0]).
  - lia.
  - cbn. lia.
  - split; reflexivity.
Defined.

(** For a sample rate of at least 40 Hz the hop of [estimateTempo] is at
    least one sample: its energy loop ends within [length channelData]
    iterations, and the tempo returned is a finite number in [60 .. 180]:
    120 when the energy curve has fewer than two peaks, and otherwise the
    quotient [60 * sampleRate / (avgInterval * hopSize)], which is finite,
    clamped. *)
Theorem estimateTempo_range (sqrt : Q -> Q) (channelData : list Q) (sr : Z)
  (fuel : nat) :
  (40 <= sr)%Z -> (List.length channelData <= fuel)%nat ->
  let windowSize := JS.floor (F64.mul (inject_Z sr) (F64.round (1 # 10))) in
  let hopSize := (windowSize / 4)%Z in
  exists energies tempo,
    AudioProcessor.energyLoop sqrt channelData windowSize hopSize fuel 0 []
    = Some energies
    /\ EnergyDetectorFeatures.estimateTempo sqrt fuel channelData sr
       = Some (Some tempo)
    /\ 60 <= tempo /\ tempo <= 180
    /\ ((List.length (EnergyDetectorFeatures.findPeaks energies) < 2)%nat ->
        tempo = 120)
    /\ ((2 <= List.length (EnergyDetectorFeatures.findPeaks energies))%nat ->
        let avgInterval :=
          AudioProcessor.mean
            (AudioProcessor.intervalsOf
               (map Z.of_nat (EnergyDetectorFeatures.findPeaks energies))) in
        0 < avgInterval * inject_Z hopSize
        /\ tempo = JS.max 60 (JS.min 180 (60 * inject_Z sr
                                          / (avgInterval * inject_Z hopSize)))).
Proof.
  intros Hsr Hfuel. cbv zeta. unfold EnergyDetectorFeatures.estimateTempo.
  set (w := JS.floor (F64.mul (inject_Z sr) (F64.round (1 # 10)))).
  assert (Hw : (4 <= w)%Z).
  { assert (H40 : inject_Z 40 <= inject_Z sr) by (rewrite <- Zle_Qle; exact Hsr).
    change (inject_Z 40) with 40 in H40.
    assert (Hc : 1 # 10 <= F64.round (1 # 10)) by (vm_compute; discriminate).
    apply floor_mul_ge; [vm_compute; discriminate|].
    change (inject_Z 4) with 4. nra. }
  assert (Hhop : (1 <= w / 4)%Z) by (apply Z.div_le_lower_bound; lia).
  destruct (energyLoop_returns sqrt channelData w (w / 4) Hhop fuel 0 [])
    as [energies He]; [lia|].
  rewrite He. exists energies.
  destruct (findPeaks_facts energies) as (_ & Hsp & _). cbv zeta in Hsp.
  set (peaks := EnergyDetectorFeatures.findPeaks energies) in *.
  destruct (List.length peaks <? 2)%nat eqn:E.
  - apply Nat.ltb_lt in E. exists 120.
    split; [reflexivity|]. split; [reflexivity|].
    split; [discriminate|]. split; [discriminate|].
    split; [reflexivity | intro; lia].
  - apply Nat.ltb_ge in E.
    assert (Hinc : increasing (map Z.of_nat peaks))
      by (apply (spaced_increasing 1); [lia | exact Hsp]).
    assert (Hm : 0 < AudioProcessor.mean
                       (AudioProcessor.intervalsOf (map Z.of_nat peaks))).
    { apply mean_pos; [|exact Hinc].
      apply intervalsOf_nonempty. rewrite length_map. exact E. }
    assert (Hh : 0 < inject_Z (w / 4)).
    { change 0 with (inject_Z 0). rewrite <- Zlt_Qlt. lia. }
    rewrite JS_div_nonzero by nra.
    eexists. split; [reflexivity|]. split; [reflexivity|].
    split; [apply JS_max_ge_l|].
    split; [apply Q.max_lub; [discriminate | apply JS_min_le_l]|].
    split; [intro; lia|]. intros _. split; [nra | reflexivity].
Qed.

Lemma estimateTempo_range_witness :
  exists energies tempo,
    AudioProcessor.energyLoop sqrtApprox burstTrack 10 2 250 0 [] = Some energies
    /\ EnergyDetectorFeatures.estimateTempo sqrtApprox 250 burstTrack 100
       = Some (Some tempo)
    /\ 60 <= tempo /\ tempo <= 180.
Proof.
  destruct (estimateTempo_range sqrtApprox burstTrack 100 250)
    as (energies & tempo & He & Ht & Hlo & Hhi & _).
  - lia.
  - vm_compute. repeat constructor.
  - exists energies, tempo. repeat split; assumption.
Defined.

(** ** Candidates and their scores *)

(** Inside the window the position score lies in [0.5 .. 1]; it is 1 in
    the middle of the window and 0.5 at both ends. *)
Theorem getPositionScore_range (t dur startPct endPct : Q) :
  0 < dur -> startPct < endPct ->
  dur * startPct <= t -> t <= dur * endPct ->
  1 # 2 <= AudioProcessor.getPositionScore t dur startPct endPct
  /\ AudioProcessor.getPositionScore t dur startPct endPct <= 1
  /\ (t == dur * ((startPct + endPct) / 2) ->
      AudioProcessor.getPositionScore t dur startPct endPct == 1)
  /\ (t == dur * startPct \/ t == dur * endPct ->
      AudioProcessor.getPositionScore t dur startPct endPct == 1 # 2).
Proof.
  intros Hd Hw Hlo Hhi. unfold AudioProcessor.getPositionScore.
  set (x := (t / dur - startPct) / (endPct - startPct)).
  assert (Ex : x * (endPct - startPct) * dur == t - startPct * dur)
    by (unfold x; field; split; lra).
  assert (X0 : 0 <= x).
  { unfold x. apply Qle_shift_div_l; [lra|]. rewrite Qmult_0_l.
    assert (startPct <= t / dur) by (apply Qle_shift_div_l; [exact Hd | lra]).
    lra. }
  assert (X1 : x <= 1).
  { unfold x. apply Qle_shift_div_r; [lra|]. rewrite Qmult_1_l.
    assert (t / dur <= endPct) by (apply Qle_shift_div_r; [exact Hd | lra]).
    lra. }
  clearbody x.
  destruct (abs_cases (x - (1 # 2))) as [[H E] | [H E]]; rewrite E;
    (split; [lra|]); (split; [lra|]); split.
  - intro Ht. rewrite Ht in Ex.
    assert (Hm : dur * ((startPct + endPct) / 2) - startPct * dur
                 == (1 # 2) * (endPct - startPct) * dur) by field.
    rewrite Hm in Ex. 
    assert (x == 1 # 2); [|lra].
    apply (Qmult_inj_r _ _ ((endPct - startPct) * dur)); [nra|].
    rewrite !Qmult_assoc. exact Ex.
  - intros [Ht | Ht]; rewrite Ht in Ex.
    + assert (x == 0); [|lra].
      apply (Qmult_inj_r _ _ ((endPct - startPct) * dur)); [nra|].
      rewrite !Qmult_assoc, Ex. ring.
    + assert (x == 1); [|lra].
      apply (Qmult_inj_r _ _ ((endPct - startPct) * dur)); [nra|].
      rewrite !Qmult_assoc, Ex. ring.
  - intro Ht. rewrite Ht in Ex.
    assert (Hm : dur * ((startPct + endPct) / 2) - startPct * dur
                 == (1 # 2) * (endPct - startPct) * dur) by field.
    rewrite Hm in Ex.
    assert (x == 1 # 2); [|lra].
    apply (Qmult_inj_r _ _ ((endPct - startPct) * dur)); [nra|].
    rewrite !Qmult_assoc. exact Ex.
  - intros [Ht | Ht]; rewrite Ht in Ex.
    + assert (x == 0); [|lra].
      apply (Qmult_inj_r _ _ ((endPct - startPct) * dur)); [nra|].
      rewrite !Qmult_assoc, Ex. ring.
    + assert (x == 1); [|lra].
      apply (Qmult_inj_r _ _ ((endPct - startPct) * dur)); [nra|].
      rewrite !Qmult_assoc, Ex. ring.
Qed.

Lemma getPositionScore_range_witness :
  1 # 2 <= AudioProcessor.getPositionScore 7 10 (6 # 10) (85 # 100)
  /\ AudioProcessor.getPositionScore 7 10 (6 # 10) (85 # 100) <= 1.
Proof.
  destruct (getPositionScore_range 7 10 (6 # 10) (85 # 100)) as (H1 & H2 & _);
    try (vm_compute; first [reflexivity | discriminate]).
  split; assumption.
Defined.

Lemma insertBy_HdRel {A : Type} (key : A -> Q) (a x : A) (l : list A) :
  key a <= key x -> HdRel (fun u v => key u <= key v) a l ->
  HdRel (fun u v => key u <= key v) a (insertBy key x l).
Proof.
  intros Hax Hl. destruct l as [|y l]; cbn.
  - constructor. exact Hax.
  - destruct (JS.le (key x) (key y)); constructor.
    + exact Hax.
    + inversion Hl. assumption.
Qed.

Lemma insertBy_sorted {A : Type} (key : A -> Q) (x : A) (l : list A) :
  Sorted (fun u v => key u <= key v) l ->
  Sorted (fun u v => key u <= key v) (insertBy key x l).
Proof.
  induction l as [|y l IH]; intro Hs; cbn.
  - repeat constructor.
  - destruct (JS.le (key x) (key y)) eqn:E.
    + apply JS_le_spec in E. constructor; [exact Hs | constructor; exact E].
    + assert (Hyx : key y <= key x).
      { apply Qlt_le_weak, Qnot_le_lt. intro H. apply JS_le_spec in H. congruence. }
      inversion Hs as [|? ? Hs' Hhd]; subst.
      constructor; [apply IH; exact Hs'|].
      apply insertBy_HdRel; assumption.
Qed.

Lemma sortBy_sorted {A : Type} (key : A -> Q) (l : list A) :
  Sorted (fun u v => key u <= key v) (sortBy key l).
Proof.
  induction l as [|x l IH]; cbn; [constructor|].
  apply insertBy_sorted. exact IH.
Qed.

Lemma firstn_sorted {A : Type} (R : A -> A -> Prop) (n : nat) (l : list A) :
  Sorted R l -> Sorted R (firstn n l).
Proof.
  revert l. induction n as [|n IH]; intros l Hs; [constructor|].
  destruct l as [|x l]; [constructor|]. cbn.
  inversion Hs as [|? ? Hs' Hhd]; subst.
  constructor; [apply IH; exact Hs'|].
  destruct n; [constructor|]. destruct l as [|y l]; [constructor|].
  cbn. constructor. inversion Hhd. assumption.
Qed.

(** The time of a beat, multiplied back by the sample rate and floored,
    is the beat or the sample before it: the quotient and the product are
    rounded, and [29 / 100 * 100] is 28.999999999999996. *)
Lemma beat_startSample (beat sr : Z) :
  (0 <= beat <= 2 ^ 32)%Z -> (0 < sr <= 2 ^ 32)%Z ->
  (beat - 1
   <= JS.floor (F64.mul (F64.div (inject_Z beat) (inject_Z sr)) (inject_Z sr))
   <= beat)%Z.
Proof.
  intros [Hb0 Hb1] [Hs0 Hs1].
  assert (P32 : (2 ^ 32 = 4294967296)%Z) by reflexivity.
  assert (P53 : (2 ^ 53 = 9007199254740992)%Z) by reflexivity.
  rewrite P32 in Hb1, Hs1.
  assert (Qb0 : 0 <= inject_Z beat) by (apply inject_Z_nonneg, Hb0).
  assert (Qb1 : inject_Z beat <= 4294967296).
  { change 4294967296 with (inject_Z 4294967296). rewrite <- Zle_Qle. exact Hb1. }
  assert (Qs0 : 1 <= inject_Z sr).
  { change 1 with (inject_Z 1). rewrite <- Zle_Qle. lia. }
  assert (Qs1 : inject_Z sr <= 4294967296).
  { change 4294967296 with (inject_Z 4294967296). rewrite <- Zle_Qle. exact Hs1. }
  set (b := inject_Z beat) in *. set (s := inject_Z sr) in *.
  set (q := b / s).
  assert (Eq : q * s == b) by (unfold q; field; lra).
  assert (Hq0 : 0 <= q).
  { unfold q. apply Qle_shift_div_l; lra. }
  destruct (round_err q q) as [L U]; [rewrite Qabs_pos by exact Hq0; apply Qle_refl|].
  change (F64.round q) with (F64.div b s) in L, U. set (t := F64.div b s) in *.
  assert (Ets : t * s - b == (t - q) * s) by (rewrite <- Eq; ring).
  assert (Lts : - ((1 # 1000000000000000) * b + (1 # 100000000000000000000) * s)
                <= t * s - b).
  { rewrite Ets.
    assert (H : - ((1 # 1000000000000000) * q + (1 # 100000000000000000000)) * s
                <= (t - q) * s) by (apply Qmult_le_compat_r; lra).
    assert (E : - ((1 # 1000000000000000) * q + (1 # 100000000000000000000)) * s
                == - ((1 # 1000000000000000) * (q * s)
                      + (1 # 100000000000000000000) * s)) by ring.
    rewrite E, Eq in H. exact H. }
  assert (Uts : t * s - b
                <= (1 # 1000000000000000) * b + (1 # 100000000000000000000) * s).
  { rewrite Ets.
    assert (H : (t - q) * s
                <= ((1 # 1000000000000000) * q + (1 # 100000000000000000000)) * s)
      by (apply Qmult_le_compat_r; lra).
    assert (E : ((1 # 1000000000000000) * q + (1 # 100000000000000000000)) * s
                == (1 # 1000000000000000) * (q * s)
                   + (1 # 100000000000000000000) * s) by ring.
    rewrite E, Eq in H. exact H. }
  split.
  - apply floor_mul_ge; [lia|].
    unfold Z.sub. rewrite inject_Z_plus, inject_Z_opp.
    change (inject_Z 1) with 1. fold b. lra.
  - assert (Hc : F64.mul t s <= inject_Z (2 * beat + 1) * F64.pow2 (-1)).
    { unfold F64.mul. apply round_le_repr.
      - exists (2 * beat + 1)%Z, (-1)%Z. split; [lia|]. split; [lia | reflexivity].
      - change (F64.pow2 (-1)) with (1 # 2).
        rewrite inject_Z_plus, inject_Z_mult. fold b.
        change (inject_Z 2) with 2. change (inject_Z 1) with 1. lra. }
    unfold JS.floor. pose proof (Qfloor_le (F64.mul t s)) as Hf.
    assert (Hz : inject_Z (Qfloor (F64.mul t s)) < inject_Z (beat + 1)).
    { eapply Qle_lt_trans; [exact Hf|]. eapply Qle_lt_trans; [exact Hc|].
      change (F64.pow2 (-1)) with (1 # 2).
      rewrite !inject_Z_plus, inject_Z_mult. fold b.
      change (inject_Z 2) with 2. change (inject_Z 1) with 1. lra. }
    rewrite <- Zlt_Qlt in Hz. lia.
Qed.

(** Both cases occur: at 100 Hz the window of the beat 29 starts at the
    sample 28, the one of the beat 30 at the sample 30; at 44100 Hz the mix
    point of the beat 15435 starts at the sample 15434. *)
Example startSample_of_beats :
  JS.floor (F64.mul (F64.div 29 100) 100) = 28%Z
  /\ JS.floor (F64.mul (F64.div 30 100) 100) = 30%Z
  /\ startSampleOf 44100 (pointAt (F64.div 15435 44100)) = 15434%Z.
Proof. repeat split; vm_compute; reflexivity. Qed.

(** [findCandidates] returns at most five points, the best score first;
    each lies at one of the beats (at the time [beat / sampleRate], a
    binary64 quotient) and carries the energy [calculateEnergy] finds at that
    time, times its position score; the window of that energy starts at
    [Math.floor(time * sampleRate)], which is the beat or the sample before
    it. *)
Theorem findCandidates_best_first (sqrt : Q -> Q) (bi : BeatInfo) (b : AudioBuffer)
  (startPct endPct : Q) :
  let cs := AudioProcessor.findCandidates sqrt bi b startPct endPct in
  (List.length cs <= 5)%nat
  /\ bestFirst cs
  /\ Forall (fun c =>
               exists beat,
                 In beat (beats bi)
                 /\ time c = F64.div (inject_Z beat) (inject_Z (sampleRate b))
                 /\ energy c = AudioProcessor.calculateEnergy sqrt b (time c)
                 /\ score c
                    = energy c
                      * AudioProcessor.getPositionScore (time c) (duration b)
                          startPct endPct
                 /\ ((0 <= beat <= 2 ^ 32)%Z -> (0 < sampleRate b <= 2 ^ 32)%Z ->
                     (beat - 1 <= startSampleOf (sampleRate b) c <= beat)%Z)) cs.
Proof.
  cbv zeta. unfold AudioProcessor.findCandidates.
  split; [apply firstn_le_length|]. split.
  - unfold bestFirst. apply firstn_sorted.
    eapply Sorted_ind with (P := fun l => Sorted (fun a b0 => score b0 <= score a) l);
      [constructor | | apply (sortBy_sorted (fun c => - score c))].
    intros a l _ IH Hhd. constructor; [exact IH|].
    destruct Hhd; constructor. lra.
  - apply Forall_forall. intros p Hp.
    apply firstn_subset, sortBy_In in Hp. revert p Hp. apply Forall_forall.
    apply (fold_left_invariant _
             (fun acc => Forall
                (fun c => exists beat,
                     In beat (beats bi)
                     /\ time c = F64.div (inject_Z beat) (inject_Z (sampleRate b))
                     /\ energy c = AudioProcessor.calculateEnergy sqrt b (time c)
                     /\ score c
                        = energy c
                          * AudioProcessor.getPositionScore (time c) (duration b)
                              startPct endPct
                     /\ ((0 <= beat <= 2 ^ 32)%Z ->
                         (0 < sampleRate b <= 2 ^ 32)%Z ->
                         (beat - 1 <= startSampleOf (sampleRate b) c <= beat)%Z))
                acc)); [constructor|].
    intros acc beat Hin Hacc. unfold AudioProcessor.candidateStep.
    destruct (JS.ge _ _ && JS.le _ _); [|exact Hacc].
    apply Forall_app. split; [exact Hacc|].
    constructor; [|constructor]. exists beat. cbn [time energy score].
    split; [exact Hin|]. split; [reflexivity|]. split; [reflexivity|].
    split; [reflexivity|]. intros Hb Hs. unfold startSampleOf. cbn [time].
    apply beat_startSample; assumption.
Qed.

Lemma findCandidates_best_first_witness :
  let cs := AudioProcessor.findCandidates sqrtApprox everySecond tenSeconds
              (6 # 10) (85 # 100) in
  (List.length cs <= 5)%nat /\ bestFirst cs
  /\ Forall (fun c => exists beat : Z,
               (beat - 1 <= startSampleOf (sampleRate tenSeconds) c <= beat)%Z) cs.
Proof.
  destruct (findCandidates_best_first sqrtApprox everySecond tenSeconds
              (6 # 10) (85 # 100)) as (Hl & Hb & Hall).
  cbv zeta. split; [exact Hl|]. split; [exact Hb|].
  eapply Forall_impl; [|exact Hall]. cbv beta.
  intros c (beat & Hin & _ & _ & _ & Hs). exists beat.
  apply Hs.
  - cbn [beats everySecond] in Hin.
    repeat (destruct Hin as [<- | Hin]; [split; vm_compute; discriminate|]).
    contradiction.
  - split; vm_compute; [reflexivity | discriminate].
Defined.

Lemma fold_left_prefix {A B : Type} (f : A -> B -> A) (P : list B -> A -> Prop)
  (l : list B) (a : A) :
  P [] a ->
  (forall pre x a, P pre a -> P (pre ++ [x]) (f a x)) ->
  P l (fold_left f l a).
Proof.
  intros H0 Hstep.
  assert (G : forall l pre a, P pre a -> P (pre ++ l) (fold_left f l a)).
  { clear l a H0. induction l as [|x l IH]; intros pre a Ha; cbn.
    - rewrite app_nil_r. exact Ha.
    - replace (pre ++ x :: l) with ((pre ++ [x]) ++ l)
        by (rewrite <- app_assoc; reflexivity).
      apply IH, Hstep, Ha. }
  apply (G l [] a H0).
Qed.

(** The pairing loops of [findMixPoints] keep the best positive pair score
    seen so far, together with the pair that reached it. *)
Lemma pairing_invariant (c1 c2 : list MixPoint) (init : MixPoint * MixPoint) :
  let st := fold_left (fun st p1 => fold_left (AudioProcessor.pairStep p1) c2 st)
              c1 (0, init) in
  ((fst st == 0 /\ snd st = init)
   \/ (0 < fst st /\ fst st == pairScore (fst (snd st)) (snd (snd st))
       /\ In (fst (snd st)) c1 /\ In (snd (snd st)) c2))
  /\ forall p1 p2, In p1 c1 -> In p2 c2 -> pairScore p1 p2 <= fst st.
Proof.
  cbv zeta.
  set (Good := fun (st : Q * (MixPoint * MixPoint)) =>
                 (fst st == 0 /\ snd st = init)
                 \/ (0 < fst st /\ fst st == pairScore (fst (snd st)) (snd (snd st))
                     /\ In (fst (snd st)) c1 /\ In (snd (snd st)) c2)).
  assert (H : forall done1,
             (forall p, In p done1 -> In p c1) ->
             let st := fold_left
                         (fun st p1 => fold_left (AudioProcessor.pairStep p1) c2 st)
                         done1 (0, init) in
             Good st
             /\ forall p1 p2, In p1 done1 -> In p2 c2 -> pairScore p1 p2 <= fst st).
  { intros done1. cbv zeta.
    apply (fold_left_prefix
             (fun st p1 => fold_left (AudioProcessor.pairStep p1) c2 st)
             (fun done1 st =>
                (forall p, In p done1 -> In p c1) ->
                Good st
                /\ forall p1 p2, In p1 done1 -> In p2 c2 -> pairScore p1 p2 <= fst st)).
    - intros _. split; [left; split; reflexivity|]. intros p1 p2 [].
    - intros pre p1 st IH Hsub.
      destruct IH as [Hgood Hmax].
      { intros p Hp. apply Hsub, in_or_app. left. exact Hp. }
      assert (Hp1 : In p1 c1) by (apply Hsub, in_or_app; right; left; reflexivity).
      assert (Hin :
        let st' := fold_left (AudioProcessor.pairStep p1) c2 st in
        Good st'
        /\ (forall q1 q2, In q1 pre -> In q2 c2 -> pairScore q1 q2 <= fst st')
        /\ (forall q2, In q2 c2 -> pairScore p1 q2 <= fst st')).
      { cbv zeta.
        assert (Hgen : forall done2,
                  (forall q, In q done2 -> In q c2) ->
                  let st' := fold_left (AudioProcessor.pairStep p1) done2 st in
                  Good st'
                  /\ (forall q1 q2, In q1 pre -> In q2 c2 ->
                                    pairScore q1 q2 <= fst st')
                  /\ (forall q2, In q2 done2 -> pairScore p1 q2 <= fst st')).
        { intro done2. cbv zeta.
          apply (fold_left_prefix (AudioProcessor.pairStep p1)
                   (fun done2 st' =>
                      (forall q, In q done2 -> In q c2) ->
                      Good st'
                      /\ (forall q1 q2, In q1 pre -> In q2 c2 ->
                                        pairScore q1 q2 <= fst st')
                      /\ (forall q2, In q2 done2 -> pairScore p1 q2 <= fst st'))).
          - intros _. split; [exact Hgood|]. split; [exact Hmax|]. intros q2 [].
          - intros pre2 p2 st' IH2 Hsub2.
            destruct IH2 as (G2 & M2 & N2).
            { intros q Hq. apply Hsub2, in_or_app. left. exact Hq. }
            assert (Hp2 : In p2 c2)
              by (apply Hsub2, in_or_app; right; left; reflexivity).
            assert (Hnonneg : 0 <= fst st').
            { destruct G2 as [[E _] | [Hpos _]]; [rewrite E; apply Qle_refl|].
              apply Qlt_le_weak, Hpos. }
            unfold AudioProcessor.pairStep. cbv zeta.
            change ((1 - JS.abs (energy p1 - energy p2)) * score p1 * score p2)
              with (pairScore p1 p2).
            destruct (JS.gt (pairScore p1 p2) (fst st')) eqn:E.
            + apply JS_gt_spec in E. unfold Good. cbn [fst snd]. split; [|split].
              * right. repeat split; try assumption; try apply Qeq_refl. lra.
              * intros q1 q2 Hq1 Hq2. specialize (M2 q1 q2 Hq1 Hq2). lra.
              * intros q2 Hq2. apply in_app_or in Hq2.
                destruct Hq2 as [Hq2 | [<- | []]]; [|apply Qle_refl].
                specialize (N2 q2 Hq2). lra.
            + apply JS_gt_false in E. split; [exact G2|]. split; [exact M2|].
              intros q2 Hq2. apply in_app_or in Hq2.
              destruct Hq2 as [Hq2 | [<- | []]]; [apply N2; exact Hq2 | exact E]. }
        apply (Hgen c2). intros q Hq. exact Hq. }
      cbv zeta in Hin. destruct Hin as (G' & M' & N').
      split; [exact G'|].
      intros q1 q2 Hq1 Hq2. apply in_app_or in Hq1.
      destruct Hq1 as [Hq1 | [<- | []]]; [apply M' | apply N']; assumption. }
  apply (H c1). intros p Hp. exact Hp.
Qed.

(** [findMixPoints] returns a pair with the largest pair score among all
    pairs of candidates, as soon as one pair has a positive score; with
    candidates on both sides, the two points returned are candidates. *)
Theorem findMixPoints_best_pair (sqrt : Q -> Q) (bi1 bi2 : BeatInfo)
  (b1 b2 : AudioBuffer) :
  let c1 := AudioProcessor.findCandidates sqrt bi1 b1 (6 # 10) (85 # 100) in
  let c2 := AudioProcessor.findCandidates sqrt bi2 b2 (15 # 100) (5 # 10) in
  let r := AudioProcessor.findMixPoints sqrt bi1 bi2 b1 b2 in
  (c1 <> [] -> c2 <> [] -> In (fst r) c1 /\ In (snd r) c2)
  /\ (forall p1 p2, In p1 c1 -> In p2 c2 -> 0 < pairScore p1 p2 ->
                    pairScore p1 p2 <= pairScore (fst r) (snd r)).
Proof.
  cbv zeta. unfold AudioProcessor.findMixPoints.
  set (c1 := AudioProcessor.findCandidates sqrt bi1 b1 (6 # 10) (85 # 100)).
  set (c2 := AudioProcessor.findCandidates sqrt bi2 b2 (15 # 100) (5 # 10)).
  set (init := (hd _ c1, hd _ c2)).
  destruct (pairing_invariant c1 c2 init) as [Hgood Hmax]. cbv zeta in *.
  set (st := fold_left _ c1 (0, init)) in *.
  split.
  - intros H1 H2. destruct Hgood as [[_ E] | (_ & _ & I1 & I2)].
    + rewrite E. subst init. cbn [fst snd].
      destruct c1; [contradiction|]. destruct c2; [contradiction|].
      split; left; reflexivity.
    + split; assumption.
  - intros p1 p2 Hp1 Hp2 Hpos. specialize (Hmax p1 p2 Hp1 Hp2).
    destruct Hgood as [[E _] | (_ & E & _)]; [lra|].
    rewrite <- E. exact Hmax.
Qed.

Lemma findMixPoints_best_pair_witness :
  let c1 := AudioProcessor.findCandidates sqrtApprox everySecond tenSeconds
              (6 # 10) (85 # 100) in
  let c2 := AudioProcessor.findCandidates sqrtApprox everySecond tenSeconds
              (15 # 100) (5 # 10) in
  let r := AudioProcessor.findMixPoints sqrtApprox everySecond everySecond
             tenSeconds tenSeconds in
  In (fst r) c1 /\ In (snd r) c2.
Proof.
  apply (findMixPoints_best_pair sqrtApprox everySecond everySecond
           tenSeconds tenSeconds); vm_compute; discriminate.
Defined.

(** ** More on the container encoder *)

Lemma leBytes_range (n : nat) (v : Z) :
  Forall (fun x => (0 <= x < 256)%Z) (leBytes n v).
Proof.
  revert v. induction n as [|n IH]; intro v; cbn; constructor.
  - apply Z.mod_pos_bound. lia.
  - apply IH.
Qed.

Lemma strBytes_range (s : string) :
  Forall (fun x => (0 <= x < 256)%Z) (strBytes s).
Proof.
  induction s as [|c s IH]; cbn; constructor; [|exact IH].
  pose proof (Ascii.nat_ascii_bounded c). lia.
Qed.

Lemma flat_map_Forall {A : Type} (P : Z -> Prop) (f : A -> list Z) (l : list A) :
  (forall x, Forall P (f x)) -> Forall P (flat_map f l).
Proof.
  intro H. induction l as [|x l IH]; cbn; [constructor|].
  apply Forall_app. split; [apply H | exact IH].
Qed.

(** A header field decodes to the value stored, modulo the width of the
    field. *)
Lemma header_field_wraps (h pcm : list Z) (n off : nat) (v : Z) :
  List.length h = 44%nat -> (off + n <= 44)%nat ->
  firstn n (skipn off h) = leBytes n v ->
  getLE n (h ++ pcm) (Z.of_nat off) = Some (v mod 256 ^ Z.of_nat n)%Z.
Proof.
  intros Hh Hoff Hbytes.
  rewrite getLE_window by (rewrite length_app; lia).
  rewrite skipn_app, firstn_app, Hbytes, length_skipn, Hh.
  replace (off - 44)%nat with 0%nat by lia.
  replace (n - (44 - off))%nat with 0%nat by lia.
  cbn [skipn firstn]. rewrite app_nil_r, leValue_leBytes. reflexivity.
Qed.

(** Whatever the buffer, the encoder succeeds, every byte it returns lies
    in [0 .. 255], and a size that does not fit its header field is stored
    modulo [2^32] (chunk size, sample rate, byte rate, data size) or
    [2^16] (channel count, block align). *)
Theorem audioBufferToWav_wraps (b : AudioBuffer) :
  let N := Z.of_nat (length b) in
  let C := Z.of_nat (numberOfChannels b) in
  let R := sampleRate b in
  exists out,
    AudioProcessor.audioBufferToWav b = Some out
    /\ Forall (fun x => (0 <= x < 256)%Z) out
    /\ getLE 4 out 4 = Some ((36 + N * C * 2) mod 2 ^ 32)%Z
    /\ getLE 2 out 22 = Some (C mod 2 ^ 16)%Z
    /\ getLE 4 out 24 = Some (R mod 2 ^ 32)%Z
    /\ getLE 4 out 28 = Some ((R * C * 2) mod 2 ^ 32)%Z
    /\ getLE 2 out 32 = Some ((C * 2) mod 2 ^ 16)%Z
    /\ getLE 4 out 40 = Some ((N * C * 2) mod 2 ^ 32)%Z.
Proof.
  cbv zeta. eexists. split; [apply audioBufferToWav_bytes|].
  set (N := Z.of_nat (length b)). set (C := Z.of_nat (numberOfChannels b)).
  set (R := sampleRate b).
  assert (Hh : List.length (headerBytes N C R) = 44%nat) by reflexivity.
  split.
  { apply Forall_app. split.
    - unfold headerBytes.
      repeat (apply Forall_app; split);
        first [apply leBytes_range | apply strBytes_range].
    - unfold pcmBytes. apply flat_map_Forall. intro i.
      unfold frameBytes. apply flat_map_Forall. intro c. apply leBytes_range. }
  repeat split.
  - apply (header_field_wraps _ _ 4 4); [exact Hh | lia | reflexivity].
  - apply (header_field_wraps _ _ 2 22); [exact Hh | lia | reflexivity].
  - apply (header_field_wraps _ _ 4 24); [exact Hh | lia | reflexivity].
  - apply (header_field_wraps _ _ 4 28); [exact Hh | lia | reflexivity].
  - apply (header_field_wraps _ _ 2 32); [exact Hh | lia | reflexivity].
  - apply (header_field_wraps _ _ 4 40); [exact Hh | lia | reflexivity].
Qed.

(** The 16-bit value found at the place of sample [c] of frame [i] is the
    integer handed to [setInt16], also when the slot is absent. *)
Lemma getInt16_stored (b : AudioBuffer) (i c : nat) :
  (i < length b)%nat -> (c < numberOfChannels b)%nat ->
  exists out,
    AudioProcessor.audioBufferToWav b = Some out
    /\ getInt16 out (44 + (Z.of_nat i * Z.of_nat (numberOfChannels b)
                           + Z.of_nat c) * 2)
       = Some (AudioProcessor.toInt (AudioProcessor.scaledSample b i c)).
Proof.
  intros Hi Hc. eexists. split; [apply audioBufferToWav_bytes|].
  set (h := headerBytes _ _ _).
  replace (44 + (Z.of_nat i * Z.of_nat (numberOfChannels b) + Z.of_nat c) * 2)%Z
    with (Z.of_nat (2 * (i * numberOfChannels b + c) + 44)) by lia.
  unfold getInt16. rewrite getLE_window.
  - rewrite <- skipn_skipn.
    replace (skipn 44 (h ++ pcmBytes b)) with (pcmBytes b)
      by (rewrite skipn_app; reflexivity).
    rewrite pcmBytes_window by assumption.
    unfold sampleBytes. rewrite leValue_leBytes.
    assert (Ht : (- 32767 <= AudioProcessor.toInt (AudioProcessor.scaledSample b i c)
                  <= 32767)%Z).
    { unfold AudioProcessor.scaledSample.
      destruct (nth_error (getChannelData b c) i) as [s|]; cbn [AudioProcessor.toInt].
      - destruct (clamp_bounds s) as [Hlo Hhi].
        apply (trunc_bounds _ 32767 ltac:(lia) Hlo Hhi).
      - lia. }
    set (v := AudioProcessor.toInt (AudioProcessor.scaledSample b i c)) in *.
    change (256 ^ Z.of_nat 2)%Z with 65536%Z.
    destruct (Z_lt_dec v 0) as [Hneg | Hpos].
    + replace (v mod 65536)%Z with (v + 65536)%Z
        by (apply Z.mod_unique with (-1)%Z; lia).
      assert (E : (v + 65536 <? 32768)%Z = false) by (apply Z.ltb_ge; lia).
      rewrite E. f_equal. lia.
    + rewrite Z.mod_small by lia.
      assert (E : (v <? 32768)%Z = true) by (apply Z.ltb_lt; lia).
      rewrite E. reflexivity.
  - rewrite length_app, pcmBytes_length. subst h. rewrite headerBytes_length.
    nia.
Qed.

Lemma trunc_comp (q q' : Q) : q == q' -> JS.trunc q = JS.trunc q'.
Proof.
  intro H. unfold JS.trunc.
  rewrite (Qle_bool_comp 0 0 q q' (Qeq_refl 0) H).
  destruct (Qle_bool 0 q'); [apply Qfloor_comp | apply Qceiling_comp]; exact H.
Qed.

Lemma trunc_close (q : Q) :
  Qabs (inject_Z (JS.trunc q) - q) < 1
  /\ (0 <= q -> (0 <= JS.trunc q)%Z) /\ (q <= 0 -> (JS.trunc q <= 0)%Z).
Proof.
  unfold JS.trunc. destruct (Qle_bool 0 q) eqn:E.
  - apply Qle_bool_iff in E.
    pose proof (Qfloor_le q) as H1. pose proof (Qlt_floor q) as H2.
    rewrite inject_Z_plus in H2. change (inject_Z 1) with 1 in H2.
    split; [|split].
    + apply Qabs_Qlt_condition. split; lra.
    + intros _. pose proof (Qfloor_resp_le 0 q E) as H. exact H.
    + intro Hq. pose proof (Qfloor_resp_le q 0 Hq) as H. exact H.
  - assert (Hneg : q < 0).
    { apply Qnot_le_lt. intro H. apply Qle_bool_iff in H. congruence. }
    pose proof (Qle_ceiling q) as H1. pose proof (Qceiling_lt q) as H2.
    unfold Z.sub in H2. rewrite inject_Z_plus, inject_Z_opp in H2.
    change (inject_Z 1) with 1 in H2.
    split; [|split].
    + apply Qabs_Qlt_condition. split; lra.
    + intro Hq. lra.
    + intros _. pose proof (Qceiling_resp_le q 0 (Qlt_le_weak _ _ Hneg)) as H.
      exact H.
Qed.

(** Decoding what the encoder wrote for the sample [s] gives an integer of
    [-32767 .. 32767] less than one step away from [clamp(s) * 32767], of
    the sign of [s]; samples at or beyond full scale are clipped to
    [32767] and [-32767]. *)
Theorem audioBufferToWav_clips (b : AudioBuffer) (i c : nat) (s : Q) :
  (i < length b)%nat -> (c < numberOfChannels b)%nat ->
  nth_error (getChannelData b c) i = Some s ->
  exists out v,
    AudioProcessor.audioBufferToWav b = Some out
    /\ getInt16 out (44 + (Z.of_nat i * Z.of_nat (numberOfChannels b)
                           + Z.of_nat c) * 2) = Some v
    /\ (- 32767 <= v <= 32767)%Z
    /\ Qabs (inject_Z v - JS.max (-1) (JS.min 1 s) * 32767) < 1
    /\ (0 <= s -> (0 <= v)%Z) /\ (s <= 0 -> (v <= 0)%Z)
    /\ (1 <= s -> v = 32767%Z) /\ (s <= -1 -> v = (- 32767)%Z).
Proof.
  intros Hi Hc Hs.
  destruct (getInt16_stored b i c Hi Hc) as (out & Hout & Hget).
  unfold AudioProcessor.scaledSample in Hget. rewrite Hs in Hget.
  cbn [AudioProcessor.toInt] in Hget.
  exists out, (JS.trunc (JS.max (-1) (JS.min 1 s) * 32767)).
  split; [exact Hout|]. split; [exact Hget|].
  destruct (clamp_bounds s) as [Hlo Hhi].
  destruct (trunc_close (JS.max (-1) (JS.min 1 s) * 32767)) as (Hc1 & Hc2 & Hc3).
  split; [apply (trunc_bounds _ 32767 ltac:(lia) Hlo Hhi)|].
  split; [exact Hc1|].
  split; [|split; [|split]].
  - intro H0. apply Hc2.
    destruct (min_cases 1 s) as [[_ E] | [_ E]];
    destruct (max_cases (-1) (JS.min 1 s)) as [[? E'] | [? E']];
      rewrite E'; try rewrite E; lra.
  - intro H0. apply Hc3.
    destruct (min_cases 1 s) as [[? E] | [? E]]; [lra|].
    destruct (max_cases (-1) (JS.min 1 s)) as [[? E'] | [? E']];
      rewrite E'; try rewrite E; lra.
  - intro H1.
    assert (E : JS.max (-1) (JS.min 1 s) * 32767 == 32767).
    { assert (E1 : JS.min 1 s == 1) by (apply Q.min_l; exact H1).
      assert (E2 : JS.max (-1) (JS.min 1 s) == 1).
      { unfold JS.max. rewrite Q.max_r; [exact E1 | rewrite E1; discriminate]. }
      rewrite E2. reflexivity. }
    rewrite (trunc_comp _ _ E). reflexivity.
  - intro H1.
    assert (E : JS.max (-1) (JS.min 1 s) * 32767 == - (32767)).
    { assert (E1 : JS.min 1 s == s) by (apply Q.min_r; lra).
      assert (E2 : JS.max (-1) (JS.min 1 s) == -1).
      { unfold JS.max. rewrite Q.max_l; [reflexivity | rewrite E1; exact H1]. }
      rewrite E2. reflexivity. }
    rewrite (trunc_comp _ _ E). reflexivity.
Qed.

Lemma audioBufferToWav_clips_witness :
  exists out v,
    AudioProcessor.audioBufferToWav hotBuffer = Some out
    /\ getInt16 out (44 + (Z.of_nat 1 * Z.of_nat (numberOfChannels hotBuffer)
                           + Z.of_nat 0) * 2) = Some v
    /\ v = (- 32767)%Z.
Proof.
  destruct (audioBufferToWav_clips hotBuffer 1 0 (-2))
    as (out & v & H1 & H2 & _ & _ & _ & _ & _ & H8).
  - cbn. lia.
  - cbn. lia.
  - reflexivity.
  - exists out, v. split; [exact H1|]. split; [exact H2|]. apply H8. discriminate.
Defined.

(** A frame for which a channel holds no sample is encoded as silence: the
    encoder does not fail on a channel shorter than the announced length. *)
Theorem audioBufferToWav_absent_slot (b : AudioBuffer) (i c : nat) :
  (i < length b)%nat -> (c < numberOfChannels b)%nat ->
  nth_error (getChannelData b c) i = None ->
  exists out,
    AudioProcessor.audioBufferToWav b = Some out
    /\ getInt16 out (44 + (Z.of_nat i * Z.of_nat (numberOfChannels b)
                           + Z.of_nat c) * 2) = Some 0%Z.
Proof.
  intros Hi Hc Hs.
  destruct (getInt16_stored b i c Hi Hc) as (out & Hout & Hget).
  unfold AudioProcessor.scaledSample in Hget. rewrite Hs in Hget.
  exists out. split; assumption.
Qed.

Lemma audioBufferToWav_absent_slot_witness :
  exists out,
    AudioProcessor.audioBufferToWav shortChannel = Some out
    /\ getInt16 out (44 + (Z.of_nat 1 * Z.of_nat (numberOfChannels shortChannel)
                           + Z.of_nat 0) * 2) = Some 0%Z.
Proof.
  apply (audioBufferToWav_absent_slot shortChannel 1 0).
  - cbn. lia.
  - cbn. lia.
  - reflexivity.
Defined.

(** ** More on the crossfader *)

Lemma createMix_sample (b1 b2 : AudioBuffer) (p1 p2 : MixPoint) (c : nat) (i : Z) :
  (1 <= numberOfChannels b1)%nat -> (1 <= numberOfChannels b2)%nat ->
  (0 < sampleRate b1)%Z ->
  (c < Nat.max (numberOfChannels b1) (numberOfChannels b2))%nat ->
  (0 <= i < 20 * sampleRate b1)%Z ->
  exists m,
    AudioProcessor.createMix b1 b2 p1 p2 = Returns m
    /\ nth (Z.to_nat i) (nth c (AudioProcessor.mixedData m) []) None
       = AudioProcessor.mixSample
           (getChannelData b1 (Nat.min c (numberOfChannels b1 - 1)))
           (getChannelData b2 (Nat.min c (numberOfChannels b2 - 1)))
           (startSampleOf (sampleRate b1) p1)
           (startSampleOf (sampleRate b1) p2)
           (20 * sampleRate b1)%Z i.
Proof.
  intros H1 H2 Hsr Hc Hi.
  eexists. split; [apply createMix_returns; assumption|].
  cbn [AudioProcessor.mixedData].
  rewrite (nth_map_in _ _ c [] 0%nat) by (rewrite length_seq; exact Hc).
  rewrite seq_nth by exact Hc. cbn [Nat.add].
  rewrite nth_map_seq by lia.
  rewrite Z2Nat.id by lia. reflexivity.
Qed.

Lemma withinUnit_channel (b : AudioBuffer) (c : nat) :
  withinUnit b -> Forall (fun x => -1 <= x /\ x <= 1) (getChannelData b c).
Proof.
  intro H. unfold getChannelData.
  destruct (Nat.lt_ge_cases c (List.length (channelData b))) as [Hc | Hc].
  - unfold withinUnit in H. rewrite Forall_forall in H. apply H, nth_In, Hc.
  - rewrite nth_overflow by exact Hc. constructor.
Qed.

Lemma readOrZero_unit (data : list Q) (index : Z) :
  Forall (fun x => -1 <= x /\ x <= 1) data -> (0 <= index)%Z ->
  exists v, AudioProcessor.readOrZero data index = Some v /\ -1 <= v /\ v <= 1.
Proof.
  intros Hd Hi. unfold AudioProcessor.readOrZero.
  destruct (index <? Z.of_nat (List.length data))%Z eqn:E.
  - assert (E0 : (0 <=? index)%Z = true) by (apply Z.leb_le; exact Hi).
    rewrite E0. eexists. split; [reflexivity|].
    apply Z.ltb_lt in E. unfold sampleAt.
    rewrite Forall_forall in Hd. apply Hd, nth_In. lia.
  - exists 0. repeat split; discriminate.
Qed.

(** With both tracks inside [-1 .. 1] and mix points at non-negative
    times, every sample of the basic crossfade is a finite number inside
    [-0.8 .. 0.8]: the mix cannot clip. *)
Theorem createMix_headroom (b1 b2 : AudioBuffer) (p1 p2 : MixPoint)
  (c : nat) (i : Z) :
  (1 <= numberOfChannels b1)%nat -> (1 <= numberOfChannels b2)%nat ->
  (0 < sampleRate b1)%Z ->
  withinUnit b1 -> withinUnit b2 ->
  0 <= time p1 -> 0 <= time p2 ->
  (c < Nat.max (numberOfChannels b1) (numberOfChannels b2))%nat ->
  (0 <= i < 20 * sampleRate b1)%Z ->
  exists m v,
    AudioProcessor.createMix b1 b2 p1 p2 = Returns m
    /\ nth (Z.to_nat i) (nth c (AudioProcessor.mixedData m) []) None = Some v
    /\ - (8 # 10) <= v /\ v <= 8 # 10.
Proof.
  intros H1 H2 Hsr Hu1 Hu2 Ht1 Ht2 Hc Hi.
  destruct (createMix_sample b1 b2 p1 p2 c i H1 H2 Hsr Hc Hi) as (m & Hm & Hs).
  assert (Hsr' : 0 < inject_Z (sampleRate b1)).
  { change 0 with (inject_Z 0). rewrite <- Zlt_Qlt. exact Hsr. }
  assert (S1 : (0 <= startSampleOf (sampleRate b1) p1 + i)%Z).
  { pose proof (startSampleOf_nonneg (sampleRate b1) p1 ltac:(lia) Ht1). lia. }
  assert (S2 : (0 <= startSampleOf (sampleRate b1) p2 + i)%Z).
  { pose proof (startSampleOf_nonneg (sampleRate b1) p2 ltac:(lia) Ht2). lia. }
  destruct (readOrZero_unit _ _ (withinUnit_channel b1 (Nat.min c (numberOfChannels b1 - 1)) Hu1) S1)
    as (a & Ea & La & Ua).
  destruct (readOrZero_unit _ _ (withinUnit_channel b2 (Nat.min c (numberOfChannels b2 - 1)) Hu2) S2)
    as (b & Eb & Lb & Ub).
  unfold AudioProcessor.mixSample in Hs. rewrite Ea, Eb in Hs.
  exists m. eexists. split; [exact Hm|]. split; [exact Hs|].
  set (p := inject_Z i / inject_Z (20 * sampleRate b1)).
  assert (Htot : 0 < inject_Z (20 * sampleRate b1)).
  { change 0 with (inject_Z 0). rewrite <- Zlt_Qlt. lia. }
  assert (P0 : 0 <= p).
  { unfold p. apply Qle_shift_div_l; [exact Htot|]. rewrite Qmult_0_l.
    change 0 with (inject_Z 0). rewrite <- Zle_Qle. lia. }
  assert (P1 : p <= 1).
  { unfold p. apply Qle_shift_div_r; [exact Htot|]. rewrite Qmult_1_l.
    rewrite <- Zle_Qle. lia. }
  clearbody p. split; nra.
Qed.

Lemma createMix_headroom_witness :
  exists m v,
    AudioProcessor.createMix monoTrack stereoTrack (pointAt 1) (pointAt (1 # 2))
      = Returns m
    /\ nth (Z.to_nat 3) (nth 1 (AudioProcessor.mixedData m) []) None = Some v
    /\ - (8 # 10) <= v /\ v <= 8 # 10.
Proof.
  apply (createMix_headroom monoTrack stereoTrack (pointAt 1) (pointAt (1 # 2)) 1 3);
    try (cbn; lia); try discriminate.
  - repeat constructor; discriminate.
  - repeat constructor; discriminate.
Defined.

(** ** More on the stems *)

Lemma extractVocals_channels (b : AudioBuffer) :
  numberOfChannels (AudioProcessorStems.extractVocals b) = numberOfChannels b.
Proof.
  unfold AudioProcessorStems.extractVocals.
  destruct (numberOfChannels b <? 2)%nat; [reflexivity|].
  unfold numberOfChannels. cbn [channelData]. apply length_map.
Qed.

Lemma extractBeats_channels (b : AudioBuffer) :
  numberOfChannels (AudioProcessorStems.extractBeats b) = numberOfChannels b.
Proof.
  unfold AudioProcessorStems.extractBeats.
  destruct (numberOfChannels b <? 2)%nat; [reflexivity|].
  unfold numberOfChannels. cbn [channelData]. apply length_map.
Qed.

Lemma extractVocals_channel (b : AudioBuffer) (c : nat) :
  (2 <= numberOfChannels b)%nat -> (c < numberOfChannels b)%nat ->
  getChannelData (AudioProcessorStems.extractVocals b) c
  = map (fun i => AudioProcessorStems.centerPart b i) (seq 0 (length b)).
Proof.
  intros H2 Hc. unfold AudioProcessorStems.extractVocals.
  assert (E : (numberOfChannels b <? 2)%nat = false) by (apply Nat.ltb_ge; exact H2).
  rewrite E. unfold getChannelData at 1. cbn [channelData].
  rewrite (nth_map_in _ _ c [] []) by exact Hc. reflexivity.
Qed.

Lemma extractBeats_channel (b : AudioBuffer) (c : nat) :
  (2 <= numberOfChannels b)%nat -> (c < numberOfChannels b)%nat ->
  getChannelData (AudioProcessorStems.extractBeats b) c
  = map (fun i => nth i (getChannelData b c) 0 - AudioProcessorStems.centerPart b i)
        (seq 0 (length b)).
Proof.
  intros H2 Hc. unfold AudioProcessorStems.extractBeats.
  assert (E : (numberOfChannels b <? 2)%nat = false) by (apply Nat.ltb_ge; exact H2).
  rewrite E. unfold getChannelData at 1. cbn [channelData].
  rewrite (nth_map_in _ _ c [] []) by exact Hc. reflexivity.
Qed.

(** Mid/side reading of the split of a buffer with two channels or more:
    every vocal channel holds 0.4 (L + R); the instrumental pair keeps the
    side signal L - R and 20% of the mid signal L + R. *)
Theorem stems_mid_side (b : AudioBuffer) (c i : nat) :
  (2 <= numberOfChannels b)%nat -> (c < numberOfChannels b)%nat ->
  (i < length b)%nat ->
  let L := nth i (getChannelData b 0) 0 in
  let R := nth i (getChannelData b 1) 0 in
  let beatsAt k := nth i (getChannelData (AudioProcessorStems.extractBeats b) k) 0 in
  nth i (getChannelData (AudioProcessorStems.extractVocals b) c) 0
    == (4 # 10) * (L + R)
  /\ beatsAt 0%nat - beatsAt 1%nat == L - R
  /\ beatsAt 0%nat + beatsAt 1%nat == (2 # 10) * (L + R).
Proof.
  intros H2 Hc Hi. cbv zeta.
  rewrite extractVocals_channel by assumption.
  rewrite !extractBeats_channel by lia.
  rewrite !nth_map_seq by exact Hi.
  unfold AudioProcessorStems.centerPart.
  repeat split; field.
Qed.

Lemma stems_mid_side_witness :
  nth 2 (getChannelData (AudioProcessorStems.extractVocals stereoBuffer) 1) 0
  == (4 # 10) * (nth 2 (getChannelData stereoBuffer 0) 0
                 + nth 2 (getChannelData stereoBuffer 1) 0).
Proof.
  apply (stems_mid_side stereoBuffer 1 2); cbn; lia.
Defined.

(** [removeVocals] keeps the shape of a buffer with two channels or more
    and returns only samples inside [-1 .. 1]; a mono buffer comes back as
    it is. *)
Theorem removeVocals_clipped (b : AudioBuffer) :
  ((2 <= numberOfChannels b)%nat ->
   numberOfChannels (AudioProcessorStems.removeVocals b) = numberOfChannels b
   /\ length (AudioProcessorStems.removeVocals b) = length b
   /\ sampleRate (AudioProcessorStems.removeVocals b) = sampleRate b
   /\ wf_buffer (AudioProcessorStems.removeVocals b)
   /\ withinUnit (AudioProcessorStems.removeVocals b))
  /\ (numberOfChannels b = 1%nat -> AudioProcessorStems.removeVocals b = b).
Proof.
  unfold AudioProcessorStems.removeVocals. split; intro H.
  - assert (E : (numberOfChannels b <? 2)%nat = false) by (apply Nat.ltb_ge; exact H).
    rewrite E. unfold numberOfChannels, wf_buffer, withinUnit.
    cbn [channelData length sampleRate].
    rewrite length_map, length_seq. repeat split.
    + apply Forall_forall. intros ch Hin. apply in_map_iff in Hin.
      destruct Hin as (c & <- & _). rewrite length_map, length_seq. reflexivity.
    + apply Forall_forall. intros ch Hin. apply in_map_iff in Hin.
      destruct Hin as (c & <- & _).
      apply Forall_forall. intros x Hx. apply in_map_iff in Hx.
      destruct Hx as (i & <- & _). split; [apply JS_max_ge_l|].
      apply Q.max_lub; [discriminate | apply JS_min_le_l].
  - assert (E : (numberOfChannels b <? 2)%nat = true) by (apply Nat.ltb_lt; lia).
    rewrite E. reflexivity.
Qed.

Lemma removeVocals_clipped_witness :
  withinUnit (AudioProcessorStems.removeVocals stereoBuffer).
Proof.
  destruct (removeVocals_clipped stereoBuffer) as [H _].
  apply H. cbn. lia.
Defined.

Lemma readOrZero_some (data : list Q) (index : Z) :
  (0 <= index)%Z ->
  AudioProcessor.readOrZero data index = Some (sampleOrZero data index).
Proof.
  intro H. unfold AudioProcessor.readOrZero, sampleOrZero.
  assert (E : (0 <=? index)%Z = true) by (apply Z.leb_le; exact H).
  rewrite E. destruct (index <? Z.of_nat (List.length data))%Z; reflexivity.
Qed.

(** During the first 40% of the mix the second track has weight zero. *)
Lemma stemSample_first_part (v1D v2D b1D b2D : list Q) (s1 s2 total i : Z) :
  (0 < total)%Z -> (0 <= i)%Z -> (10 * i < 4 * total)%Z ->
  (0 <= s1)%Z -> (0 <= s2)%Z ->
  exists v,
    AudioProcessorStems.stemSample v1D v2D b1D b2D s1 s2 total i = Some v
    /\ v == (sampleOrZero v1D (s1 + i) * (1 - 2 * (inject_Z i / inject_Z total))
             + sampleOrZero b1D (s1 + i)) * (8 # 10).
Proof.
  intros Ht Hi Hp Hs1 Hs2. unfold AudioProcessorStems.stemSample.
  rewrite !readOrZero_some by lia.
  set (p := inject_Z i / inject_Z total).
  assert (Htot : 0 < inject_Z total).
  { change 0 with (inject_Z 0). rewrite <- Zlt_Qlt. exact Ht. }
  assert (P0 : 0 <= p).
  { unfold p. apply Qle_shift_div_l; [exact Htot|]. rewrite Qmult_0_l.
    change 0 with (inject_Z 0). rewrite <- Zle_Qle. exact Hi. }
  assert (P1 : p < 4 # 10).
  { unfold p. apply Qlt_shift_div_r; [exact Htot|].
    assert (H : inject_Z (10 * i) < inject_Z (4 * total))
      by (rewrite <- Zlt_Qlt; exact Hp).
    rewrite !inject_Z_mult in H.
    change (inject_Z 10) with 10 in H. change (inject_Z 4) with 4 in H. nra. }
  clearbody p.
  eexists. split; [reflexivity|].
  assert (Eb : AudioProcessorStems.beatFades p = (1, 0)).
  { unfold AudioProcessorStems.beatFades.
    assert (E : JS.lt p (4 # 10) = true) by (apply JS_lt_spec; exact P1).
    rewrite E. reflexivity. }
  rewrite Eb. cbn [fst snd].
  assert (E1 : JS.max 0 (1 - p * 2) == 1 - p * 2) by (apply Q.max_r; nra).
  assert (E2 : JS.max 0 ((p - (1 # 2)) * 2) == 0) by (apply Q.max_l; nra).
  rewrite E1, E2. ring.
Qed.

Lemma stems_createMix_sample (b1 b2 : AudioBuffer) (p1 p2 : MixPoint)
  (c : nat) (i : Z) :
  (1 <= numberOfChannels b1)%nat -> (1 <= length b1)%nat ->
  (1 <= numberOfChannels b2)%nat -> (1 <= length b2)%nat ->
  (0 < sampleRate b1)%Z ->
  (c < Nat.max (numberOfChannels b1) (numberOfChannels b2))%nat ->
  (0 <= i < 20 * sampleRate b1)%Z ->
  exists m,
    AudioProcessorStems.createMix b1 b2 p1 p2 = Returns m
    /\ AudioProcessor.mixedLength m = (20 * sampleRate b1)%Z
    /\ List.length (AudioProcessor.mixedData m)
       = Nat.max (numberOfChannels b1) (numberOfChannels b2)
    /\ nth (Z.to_nat i) (nth c (AudioProcessor.mixedData m) []) None
       = AudioProcessorStems.stemSample
           (getChannelData (AudioProcessorStems.extractVocals b1)
              (Nat.min c (numberOfChannels b1 - 1)))
           (getChannelData (AudioProcessorStems.extractVocals b2)
              (Nat.min c (numberOfChannels b2 - 1)))
           (getChannelData (AudioProcessorStems.extractBeats b1)
              (Nat.min c (numberOfChannels b1 - 1)))
           (getChannelData (AudioProcessorStems.extractBeats b2)
              (Nat.min c (numberOfChannels b2 - 1)))
           (startSampleOf (sampleRate b1) p1)
           (startSampleOf (sampleRate b1) p2)
           (20 * sampleRate b1)%Z i.
Proof.
  intros H1 L1 H2 L2 Hsr Hc Hi. unfold AudioProcessorStems.createMix.
  change 20 with (inject_Z 20). rewrite floor_inject_mult.
  assert (E0 : (20 * sampleRate b1 <=? 0)%Z = false) by (apply Z.leb_gt; lia).
  assert (E1 : (numberOfChannels b1 =? 0)%nat = false) by (apply Nat.eqb_neq; lia).
  assert (E2 : (length b1 =? 0)%nat = false) by (apply Nat.eqb_neq; lia).
  assert (E3 : (numberOfChannels b2 =? 0)%nat = false) by (apply Nat.eqb_neq; lia).
  assert (E4 : (length b2 =? 0)%nat = false) by (apply Nat.eqb_neq; lia).
  rewrite E0, E1, E2, E3, E4. cbn [orb].
  rewrite !extractVocals_channels, !extractBeats_channels.
  eexists. split; [reflexivity|].
  cbn [AudioProcessor.mixedData AudioProcessor.mixedLength].
  split; [reflexivity|]. split; [rewrite length_map, length_seq; reflexivity|].
  rewrite (nth_map_in _ _ c [] 0%nat) by (rewrite length_seq; exact Hc).
  rewrite seq_nth by exact Hc. cbn [Nat.add].
  rewrite nth_map_seq by lia.
  rewrite Z2Nat.id by lia. reflexivity.
Qed.

(** In the mix of stems the second track is silent during the first 40%:
    there the output is the vocal stem of the first track, fading as
    [1 - 2 * progress], plus its instrumental stem at full weight, times
    0.8. *)
Theorem stems_createMix_first_part (b1 b2 : AudioBuffer) (p1 p2 : MixPoint)
  (c : nat) (i : Z) :
  (1 <= numberOfChannels b1)%nat -> (1 <= length b1)%nat ->
  (1 <= numberOfChannels b2)%nat -> (1 <= length b2)%nat ->
  (0 < sampleRate b1)%Z -> 0 <= time p1 -> 0 <= time p2 ->
  (c < Nat.max (numberOfChannels b1) (numberOfChannels b2))%nat ->
  (0 <= i)%Z -> (10 * i < 4 * (20 * sampleRate b1))%Z ->
  exists m v,
    AudioProcessorStems.createMix b1 b2 p1 p2 = Returns m
    /\ AudioProcessor.mixedLength m = (20 * sampleRate b1)%Z
    /\ List.length (AudioProcessor.mixedData m)
       = Nat.max (numberOfChannels b1) (numberOfChannels b2)
    /\ nth (Z.to_nat i) (nth c (AudioProcessor.mixedData m) []) None = Some v
    /\ let index1 := (startSampleOf (sampleRate b1) p1 + i)%Z in
       let k := Nat.min c (numberOfChannels b1 - 1) in
       let progress := inject_Z i / inject_Z (20 * sampleRate b1) in
       v == (sampleOrZero (getChannelData (AudioProcessorStems.extractVocals b1) k)
                          index1 * (1 - 2 * progress)
             + sampleOrZero (getChannelData (AudioProcessorStems.extractBeats b1) k)
                            index1) * (8 # 10).
Proof.
  intros H1 L1 H2 L2 Hsr Ht1 Ht2 Hc Hi Hp.
  destruct (stems_createMix_sample b1 b2 p1 p2 c i H1 L1 H2 L2 Hsr Hc ltac:(lia))
    as (m & Hm & Hlen & Hch & Hs).
  assert (Hsr' : 0 <= inject_Z (sampleRate b1)).
  { change 0 with (inject_Z 0). rewrite <- Zle_Qle. lia. }
  pose proof (startSampleOf_nonneg (sampleRate b1) p1 ltac:(lia) Ht1) as S1.
  pose proof (startSampleOf_nonneg (sampleRate b1) p2 ltac:(lia) Ht2) as S2.
  edestruct (stemSample_first_part) as (v & Hv & Ev);
    [| exact Hi | exact Hp | exact S1 | exact S2 |]; [lia|].
  rewrite Hv in Hs. exists m, v. repeat split; try assumption.
Qed.

Lemma stems_createMix_first_part_witness :
  exists m v,
    AudioProcessorStems.createMix stereoTrack monoTrack (pointAt (1 # 2)) (pointAt 1)
      = Returns m
    /\ nth (Z.to_nat 2) (nth 1 (AudioProcessor.mixedData m) []) None = Some v.
Proof.
  destruct (stems_createMix_first_part stereoTrack monoTrack
              (pointAt (1 # 2)) (pointAt 1) 1 2)
    as (m & v & Hm & _ & _ & Hv & _); try (cbn; lia); try discriminate.
  exists m, v. split; assumption.
Defined.

(** The first sample of the mix of stems: for a first track with two
    channels or more the stems add up again and the output is 0.8 times the
    sample at the mix point; a mono first track is its own vocal stem and
    its own instrumental stem, and the output is 1.6 times that sample. *)
Theorem stems_createMix_first_sample (b1 b2 : AudioBuffer) (p1 p2 : MixPoint)
  (c : nat) :
  wf_buffer b1 ->
  (1 <= numberOfChannels b1)%nat -> (1 <= length b1)%nat ->
  (1 <= numberOfChannels b2)%nat -> (1 <= length b2)%nat ->
  (0 < sampleRate b1)%Z -> 0 <= time p1 -> 0 <= time p2 ->
  (c < Nat.max (numberOfChannels b1) (numberOfChannels b2))%nat ->
  (startSampleOf (sampleRate b1) p1 < Z.of_nat (length b1))%Z ->
  let s := sampleAt (getChannelData b1 (Nat.min c (numberOfChannels b1 - 1)))
                    (startSampleOf (sampleRate b1) p1) in
  exists m v,
    AudioProcessorStems.createMix b1 b2 p1 p2 = Returns m
    /\ nth 0 (nth c (AudioProcessor.mixedData m) []) None = Some v
    /\ ((2 <= numberOfChannels b1)%nat -> v == (8 # 10) * s)
    /\ (numberOfChannels b1 = 1%nat -> v == (16 # 10) * s).
Proof.
  intros Hwf H1 L1 H2 L2 Hsr Ht1 Ht2 Hc Hstart. cbv zeta.
  destruct (stems_createMix_sample b1 b2 p1 p2 c 0 H1 L1 H2 L2 Hsr Hc ltac:(lia))
    as (m & Hm & _ & _ & Hs).
  assert (Hsr' : 0 <= inject_Z (sampleRate b1)).
  { change 0 with (inject_Z 0). rewrite <- Zle_Qle. lia. }
  pose proof (startSampleOf_nonneg (sampleRate b1) p1 ltac:(lia) Ht1) as S1.
  pose proof (startSampleOf_nonneg (sampleRate b1) p2 ltac:(lia) Ht2) as S2.
  set (start1 := startSampleOf (sampleRate b1) p1) in *.
  set (k := Nat.min c (numberOfChannels b1 - 1)) in *.
  assert (Hk : (k < numberOfChannels b1)%nat) by (subst k; lia).
  edestruct (stemSample_first_part) as (v & Hv & Ev);
    [| | | exact S1 | exact S2 |]; [| apply Z.le_refl | |].
  3: { rewrite Hv in Hs. change (Z.to_nat 0) with 0%nat in Hs.
       exists m, v. split; [exact Hm|]. split; [exact Hs|].
       assert (E0 : inject_Z 0 / inject_Z (20 * sampleRate b1) == 0)
         by (unfold Qdiv; apply Qmult_0_l).
       rewrite E0, Z.add_0_r in Ev.
       split; intro Hn.
       - rewrite Ev. unfold sampleOrZero.
         rewrite extractVocals_channel, extractBeats_channel by assumption.
         rewrite !length_map, !length_seq.
         assert (E : (start1 <? Z.of_nat (length b1))%Z = true)
           by (apply Z.ltb_lt; exact Hstart).
         rewrite E. unfold sampleAt. rewrite !nth_map_seq by lia. ring.
       - rewrite Ev.
         assert (Ev1 : AudioProcessorStems.extractVocals b1 = b1).
         { unfold AudioProcessorStems.extractVocals. rewrite Hn. reflexivity. }
         assert (Eb1 : AudioProcessorStems.extractBeats b1 = b1).
         { unfold AudioProcessorStems.extractBeats. rewrite Hn. reflexivity. }
         rewrite Ev1, Eb1. unfold sampleOrZero.
         assert (Hlen : List.length (getChannelData b1 k) = length b1).
         { unfold wf_buffer in Hwf. rewrite Forall_forall in Hwf.
           apply Hwf. unfold getChannelData. apply nth_In. exact Hk. }
         rewrite Hlen.
         assert (E : (start1 <? Z.of_nat (length b1))%Z = true)
           by (apply Z.ltb_lt; exact Hstart).
         rewrite E. ring. }
  - lia.
  - lia.
Qed.

Lemma stems_createMix_first_sample_witness :
  exists m v,
    AudioProcessorStems.createMix monoTrack stereoTrack (pointAt 1) (pointAt (1 # 2))
      = Returns m
    /\ nth 0 (nth 0 (AudioProcessor.mixedData m) []) None = Some v
    /\ v == (16 # 10) * (1 # 4).
Proof.
  destruct (stems_createMix_first_sample monoTrack stereoTrack
              (pointAt 1) (pointAt (1 # 2)) 0)
    as (m & v & Hm & Hv & _ & Hmono); try (cbn; lia); try discriminate;
    try (vm_compute; reflexivity).
  - repeat constructor.
  - exists m, v. split; [exact Hm|]. split; [exact Hv|].
    apply Hmono. reflexivity.
Defined.

(** ** More on the beat detector *)

(** Every window whose energy the loop records starts inside the data,
    early enough for the whole window to fit. *)
Lemma energyLoop_windows (sqrt : Q -> Q) (data : list Q) (w hop : Z) :
  forall (fuel : nat) (i : Z) (acc energies : list Q),
    i = (Z.of_nat (List.length acc) * hop)%Z ->
    (forall j, (j < List.length acc)%nat ->
               (Z.of_nat j * hop < Z.of_nat (List.length data) - w)%Z) ->
    AudioProcessor.energyLoop sqrt data w hop fuel i acc = Some energies ->
    forall j, (j < List.length energies)%nat ->
              (Z.of_nat j * hop < Z.of_nat (List.length data) - w)%Z.
Proof.
  induction fuel as [|fuel IH]; intros i acc energies Hi Hacc; cbn.
  - destruct (i <? Z.of_nat (List.length data) - w)%Z; [discriminate|].
    intro H. injection H as <-. exact Hacc.
  - destruct (i <? Z.of_nat (List.length data) - w)%Z eqn:E.
    + apply IH.
      * rewrite length_app. cbn [List.length]. lia.
      * intros j Hj. rewrite length_app in Hj. cbn [List.length] in Hj.
        apply Z.ltb_lt in E.
        destruct (Nat.eq_dec j (List.length acc)) as [-> | Hne];
          [lia | apply Hacc; lia].
    + intro H. injection H as <-. exact Hacc.
Qed.

(** The peak scan only accepts positions [i], from 2 to [length - 3], whose
    energy exceeds the threshold, and reports them as [i * hop]. *)
Lemma peakScan_members (energies : list Q) (threshold : option Q) (hop mbi : Z) :
  Forall (fun beat =>
            exists i, (2 <= i)%nat /\ (i + 2 < List.length energies)%nat
                      /\ beat = (Z.of_nat i * hop)%Z
                      /\ AudioProcessor.aboveThreshold (nth i energies 0) threshold
                         = true)
         (fst (AudioProcessor.peakScan energies threshold hop mbi)).
Proof.
  unfold AudioProcessor.peakScan.
  set (P := fun beat =>
              exists i, (2 <= i)%nat /\ (i + 2 < List.length energies)%nat
                        /\ beat = (Z.of_nat i * hop)%Z
                        /\ AudioProcessor.aboveThreshold (nth i energies 0) threshold
                           = true).
  apply (fold_left_invariant _ (fun st => Forall P (fst st))); [constructor|].
  intros [bs lastBeat] i Hi Hst. apply in_seq in Hi.
  unfold AudioProcessor.peakStep. cbn [fst snd] in *.
  destruct (AudioProcessor.aboveThreshold (nth i energies 0) threshold) eqn:E;
    [|exact Hst].
  destruct (_ && _); [|exact Hst]. cbn [fst].
  apply Forall_app. split; [exact Hst|]. constructor; [|constructor].
  exists i. repeat split; try lia. exact E.
Qed.

(** Every beat that [findBeats] returns is a multiple of the hop size and
    the start of a window that lies inside the data:
    [0 <= beat] and [beat + windowSize < length]. *)
Theorem findBeats_beats_in_data (sqrt : Q -> Q) (data : list Q) (sr : Z)
  (fuel : nat) (bi : BeatInfo) :
  AudioProcessor.findBeats sqrt fuel data sr = Some bi ->
  Forall (fun beat =>
            (0 <= beat)%Z
            /\ (beat + windowSizeOf sr < Z.of_nat (List.length data))%Z
            /\ exists i, beat = (Z.of_nat i * hopSizeOf sr)%Z)
         (beats bi).
Proof.
  unfold AudioProcessor.findBeats.
  fold (windowSizeOf sr). fold (hopSizeOf sr). fold (minBeatIntervalOf sr).
  destruct (AudioProcessor.energyLoop sqrt data (windowSizeOf sr) (hopSizeOf sr)
              fuel 0 []) as [energies|] eqn:He; [|discriminate].
  intro H. injection H as <-. cbn [beats].
  pose proof (peakScan_members energies (AudioProcessor.calculateThreshold energies)
                (hopSizeOf sr) (minBeatIntervalOf sr)) as Hm.
  pose proof (energyLoop_windows sqrt data (windowSizeOf sr) (hopSizeOf sr)
                fuel 0 [] energies) as Hw.
  assert (Hin : forall j, (j < List.length energies)%nat ->
                  (Z.of_nat j * hopSizeOf sr
                   < Z.of_nat (List.length data) - windowSizeOf sr)%Z).
  { apply Hw; [cbn; lia | intros j Hj; cbn in Hj; lia | exact He]. }
  eapply Forall_impl; [|exact Hm]. cbv beta.
  intros beat (i & Hi2 & Hi & -> & _).
  assert (Hpos : (0 <= hopSizeOf sr)%Z).
  { destruct (Z_lt_dec (hopSizeOf sr) 0) as [Hneg | Hok]; [|lia].
    exfalso.
    destruct (Z_lt_dec 0 (Z.of_nat (List.length data) - windowSizeOf sr))
      as [Hrun | Hstop].
    - rewrite energyLoop_no_progress in He by lia. discriminate He.
    - rewrite energyLoop_short in He by lia. injection He as <-.
      cbn in Hi. lia. }
  split; [nia|]. split; [|exists i; reflexivity].
  specialize (Hin i ltac:(lia)). lia.
Qed.

Lemma findBeats_beats_in_data_witness :
  exists bi,
    AudioProcessor.findBeats sqrtApprox 250 burstTrack 100 = Some bi
    /\ Forall (fun beat =>
                 (0 <= beat)%Z
                 /\ (beat + windowSizeOf 100 < Z.of_nat (List.length burstTrack))%Z
                 /\ exists i, beat = (Z.of_nat i * hopSizeOf 100)%Z)
              (beats bi).
Proof.
  destruct (AudioProcessor.findBeats sqrtApprox 250 burstTrack 100) as [bi|] eqn:E.
  - exists bi. split; [reflexivity|].
    apply (findBeats_beats_in_data sqrtApprox burstTrack 100 250 bi E).
  - vm_compute in E. discriminate E.
Defined.

Lemma nth_repeat_in (c : Q) (n k : nat) : (k < n)%nat -> nth k (repeat c n) 0 = c.
Proof.
  revert k. induction n as [|n IH]; intros k Hk; [lia|].
  destruct k; cbn; [reflexivity | apply IH; lia].
Qed.

Lemma fold_left_ext_in {A B : Type} (f g : A -> B -> A) (l : list B) (a : A) :
  (forall a x, In x l -> f a x = g a x) -> fold_left f l a = fold_left g l a.
Proof.
  revert a. induction l as [|x l IH]; intros a H; cbn; [reflexivity|].
  rewrite H by (left; reflexivity). apply IH.
  intros a' y Hy. apply H. right. exact Hy.
Qed.

(** On a constant signal every window inside the data has the same
    energy. *)
Lemma windowEnergy_constant (sqrt : Q -> Q) (c : Q) (n : nat) (w i : Z) :
  (0 <= i)%Z -> (i < Z.of_nat n - w)%Z ->
  AudioProcessor.windowEnergy sqrt (repeat c n) w i
  = sqrt (fold_left (fun e (_ : nat) => e + c * c) (seq 0 (Z.to_nat w)) 0
          / inject_Z w).
Proof.
  intros Hi Hw. unfold AudioProcessor.windowEnergy. f_equal. f_equal.
  apply fold_left_ext_in. intros e j Hj. apply in_seq in Hj.
  unfold sampleAt. rewrite nth_repeat_in by lia. reflexivity.
Qed.

Lemma energyLoop_constant (sqrt : Q -> Q) (c : Q) (n : nat) (w hop : Z) (E : Q) :
  E = sqrt (fold_left (fun e (_ : nat) => e + c * c) (seq 0 (Z.to_nat w)) 0
            / inject_Z w) ->
  (0 <= hop)%Z ->
  forall (fuel : nat) (i : Z) (acc energies : list Q),
    (0 <= i)%Z -> Forall (eq E) acc ->
    AudioProcessor.energyLoop sqrt (repeat c n) w hop fuel i acc = Some energies ->
    Forall (eq E) energies.
Proof.
  intros HE Hhop. induction fuel as [|fuel IH]; intros i acc energies Hi Hacc; cbn.
  - destruct (i <? _)%Z; [discriminate|]. intro H. injection H as <-. exact Hacc.
  - destruct (i <? Z.of_nat (List.length (repeat c n)) - w)%Z eqn:Ec.
    + apply IH; [lia|]. apply Forall_app. split; [exact Hacc|].
      constructor; [|constructor].
      apply Z.ltb_lt in Ec. rewrite repeat_length in Ec.
      rewrite windowEnergy_constant by assumption. exact HE.
    + intro H. injection H as <-. exact Hacc.
Qed.

Lemma peakScan_flat (energies : list Q) (threshold : option Q) (hop mbi : Z) (E : Q) :
  Forall (eq E) energies ->
  fst (AudioProcessor.peakScan energies threshold hop mbi) = [].
Proof.
  intro Hflat. unfold AudioProcessor.peakScan.
  apply (fold_left_invariant _ (fun st => fst st = [])); [reflexivity|].
  intros st i Hi Hst. apply in_seq in Hi.
  unfold AudioProcessor.peakStep.
  assert (Hnth : forall k, (k < List.length energies)%nat -> nth k energies 0 = E).
  { intros k Hk. rewrite Forall_forall in Hflat. symmetry.
    apply Hflat, nth_In, Hk. }
  rewrite (Hnth i), (Hnth (i - 1)%nat) by lia.
  assert (Eg : JS.gt E E = false) by (apply JS_gt_false, Qle_refl).
  rewrite Eg, andb_false_r. cbn [andb]. exact Hst.
Qed.

(** A constant signal (silence included) has no beat: whenever [findBeats]
    returns on it, the beats list is empty, the tempo is the default 120
    and the confidence 0.3; and it does return from 100 Hz on. *)
Theorem findBeats_constant_signal (sqrt : Q -> Q) (c : Q) (n : nat) (sr : Z) :
  (forall fuel bi,
     AudioProcessor.findBeats sqrt fuel (repeat c n) sr = Some bi ->
     bi = {| bpm := Some 120; beats := []; beatConfidence := Some (3 # 10) |})
  /\ ((100 <= sr)%Z -> forall fuel, (n <= fuel)%nat ->
      AudioProcessor.findBeats sqrt fuel (repeat c n) sr
      = Some {| bpm := Some 120; beats := []; beatConfidence := Some (3 # 10) |}).
Proof.
  assert (Hpart : forall fuel bi,
            AudioProcessor.findBeats sqrt fuel (repeat c n) sr = Some bi ->
            bi = {| bpm := Some 120; beats := [];
                    beatConfidence := Some (3 # 10) |}).
  { intros fuel bi. unfold AudioProcessor.findBeats.
    fold (windowSizeOf sr). fold (hopSizeOf sr). fold (minBeatIntervalOf sr).
    destruct (AudioProcessor.energyLoop sqrt (repeat c n) (windowSizeOf sr)
                (hopSizeOf sr) fuel 0 []) as [energies|] eqn:He; [|discriminate].
    assert (Hflat : exists E, Forall (eq E) energies).
    { destruct (Z_lt_dec (hopSizeOf sr) 0) as [Hneg | Hok].
      - exists 0.
        destruct (Z_lt_dec 0 (Z.of_nat (List.length (repeat c n)) - windowSizeOf sr))
          as [Hrun | Hstop].
        + rewrite energyLoop_no_progress in He by lia. discriminate He.
        + rewrite energyLoop_short in He by lia. injection He as <-. constructor.
      - eexists.
        apply (energyLoop_constant sqrt c n (windowSizeOf sr) (hopSizeOf sr) _
                 eq_refl ltac:(lia) fuel 0 [] energies); [lia | constructor | exact He]. }
    destruct Hflat as [E Hflat].
    rewrite (peakScan_flat _ _ _ _ E Hflat).
    intro H. injection H as <-. reflexivity. }
  split; [exact Hpart|].
  intros Hsr fuel Hfuel.
  destruct (findBeats_returns sqrt (repeat c n) sr fuel) as [bi Hbi].
  - lia.
  - left. apply hopSizeOf_pos. exact Hsr.
  - rewrite repeat_length. exact Hfuel.
  - rewrite Hbi. f_equal. apply (Hpart fuel bi Hbi).
Qed.

Lemma findBeats_constant_signal_witness :
  AudioProcessor.findBeats sqrtApprox 200 (repeat 0 200) 100
  = Some {| bpm := Some 120; beats := []; beatConfidence := Some (3 # 10) |}.
Proof.
  apply (findBeats_constant_signal sqrtApprox 0 200 100); [lia|].
  apply Nat.le_refl.
Defined.

Lemma intervalsOf_regular (b0 d : Z) (n s : nat) :
  AudioProcessor.intervalsOf (map (fun k => (b0 + Z.of_nat k * d)%Z) (seq s n))
  = repeat d (n - 1).
Proof.
  revert s. induction n as [|[|n] IH]; intro s; try reflexivity.
  change (seq s (S (S n))) with (s :: seq (S s) (S n)).
  cbn [map]. specialize (IH (S s)). cbn [seq map] in IH.
  cbn [seq map AudioProcessor.intervalsOf].
  cbn [AudioProcessor.intervalsOf] in IH.
  replace (S (S n) - 1)%nat with (S (S n - 1)) by lia. cbn [repeat].
  f_equal; [rewrite Nat2Z.inj_succ; unfold Z.succ; ring | exact IH].
Qed.

Lemma sum_repeat (d : Z) (m : nat) (acc : Q) :
  fold_left (fun s v => s + v) (map inject_Z (repeat d m)) acc
  == acc + inject_Z (Z.of_nat m) * inject_Z d.
Proof.
  revert acc. induction m as [|m IH]; intro acc.
  - cbn. ring.
  - cbn [repeat map fold_left]. rewrite IH.
    rewrite Nat2Z.inj_succ. unfold Z.succ. rewrite inject_Z_plus.
    change (inject_Z 1) with 1. ring.
Qed.

Lemma mean_repeat (d : Z) (m : nat) :
  (1 <= m)%nat -> AudioProcessor.mean (repeat d m) == inject_Z d.
Proof.
  intro Hm. unfold AudioProcessor.mean, AudioProcessor.sumQ.
  rewrite sum_repeat, repeat_length. field.
  assert (Hpos : 0 < inject_Z (Z.of_nat m))
    by (change 0 with (inject_Z 0); rewrite <- Zlt_Qlt; lia).
  intro H. rewrite H in Hpos. discriminate Hpos.
Qed.

Lemma squares_repeat (d : Z) (M : Q) (m : nat) (acc : Q) :
  M == inject_Z d ->
  fold_left (fun s v => s + (inject_Z v - M) * (inject_Z v - M)) (repeat d m) acc
  == acc.
Proof.
  intro HM. revert acc. induction m as [|m IH]; intro acc.
  - reflexivity.
  - cbn [repeat fold_left]. rewrite IH, HM. ring.
Qed.

(** Perfectly regular beats, [d] samples apart: the tempo computed is
    [60 * sampleRate / d], and from four beats on the confidence is 1 (for
    a [Math.sqrt] that maps zero to zero). *)
Theorem regular_beats (sqrt : Q -> Q) (b0 d : Z) (n : nat) (sr : Z) :
  (0 < d)%Z -> (2 <= n)%nat ->
  (exists v,
     AudioProcessor.calculateBPM (regularBeats b0 d n) sr = Some v
     /\ v == 60 * inject_Z sr / inject_Z d)
  /\ ((forall x, x == 0 -> sqrt x == 0) -> (4 <= n)%nat ->
      exists c,
        AudioProcessor.calculateConfidence sqrt (regularBeats b0 d n) = Some c
        /\ c == 1).
Proof.
  intros Hd Hn.
  assert (Hlen : List.length (regularBeats b0 d n) = n)
    by (unfold regularBeats; rewrite length_map, length_seq; reflexivity).
  assert (Hint : AudioProcessor.intervalsOf (regularBeats b0 d n) = repeat d (n - 1))
    by apply intervalsOf_regular.
  assert (Hmean : AudioProcessor.mean (repeat d (n - 1)) == inject_Z d)
    by (apply mean_repeat; lia).
  assert (Hdq : 0 < inject_Z d).
  { change 0 with (inject_Z 0). rewrite <- Zlt_Qlt. exact Hd. }
  split.
  - unfold AudioProcessor.calculateBPM. rewrite Hlen, Hint.
    assert (E : (n <? 2)%nat = false) by (apply Nat.ltb_ge; exact Hn).
    rewrite E, JS_div_nonzero by (rewrite Hmean; lra).
    eexists. split; [reflexivity|]. rewrite Hmean. reflexivity.
  - intros Hsqrt Hn4. unfold AudioProcessor.calculateConfidence.
    rewrite Hlen, Hint.
    assert (E : (n <? 4)%nat = false) by (apply Nat.ltb_ge; exact Hn4).
    rewrite E, JS_div_nonzero by (rewrite Hmean; lra).
    eexists. split; [reflexivity|].
    set (variance := _ / inject_Z (Z.of_nat (List.length (repeat d (n - 1))))).
    assert (Hvar : variance == 0).
    { unfold variance. rewrite (squares_repeat d _ (n - 1) 0 Hmean).
      unfold Qdiv. apply Qmult_0_l. }
    assert (Hcv : sqrt variance / AudioProcessor.mean (repeat d (n - 1)) == 0).
    { rewrite (Hsqrt variance Hvar). unfold Qdiv. apply Qmult_0_l. }
    unfold JS.max, JS.min. rewrite Hcv.
    reflexivity.
Qed.

Lemma sqrtApprox_zero (x : Q) : x == 0 -> sqrtApprox x == 0.
Proof.
  intro H. unfold sqrtApprox.
  assert (E : x * 1000000 == 0) by (rewrite H; reflexivity).
  rewrite (Qfloor_comp _ _ E). reflexivity.
Qed.

Lemma regular_beats_witness :
  (exists v,
     AudioProcessor.calculateBPM (regularBeats 10 50 5) 100 = Some v
     /\ v == 60 * inject_Z 100 / inject_Z 50)
  /\ exists c,
       AudioProcessor.calculateConfidence sqrtApprox (regularBeats 10 50 5) = Some c
       /\ c == 1.
Proof.
  destruct (regular_beats sqrtApprox 10 50 5 100) as [Hb Hc]; [lia | lia |].
  split; [exact Hb|]. apply Hc; [exact sqrtApprox_zero | lia].
Defined.

(** ** Root mean square *)

Lemma sum_squares_bounds (data : list Q) (acc : Q) :
  acc <= fold_left (fun s x => s + x * x) data acc
  /\ (Forall (fun x => -1 <= x /\ x <= 1) data ->
      fold_left (fun s x => s + x * x) data acc
      <= acc + inject_Z (Z.of_nat (List.length data))).
Proof.
  revert acc. induction data as [|x data IH]; intro acc; cbn [fold_left List.length].
  - split; [apply Qle_refl|]. intros _.
    change (inject_Z (Z.of_nat 0)) with 0. lra.
  - destruct (IH (acc + x * x)) as [Hlo Hhi]. split.
    + eapply Qle_trans; [|exact Hlo]. nra.
    + intro Hall. inversion Hall as [|? ? Hx Hrest]; subst.
      eapply Qle_trans; [apply Hhi; exact Hrest|].
      rewrite Nat2Z.inj_succ. unfold Z.succ. rewrite inject_Z_plus.
      change (inject_Z 1) with 1. nra.
Qed.

(** [calculateRMS] of an empty array is not a number; otherwise it is
    [Math.sqrt] of a mean square that is not negative, and at most 1 for
    samples inside [-1 .. 1]. *)
Theorem calculateRMS_mean_square (sqrt : Q -> Q) (channelData : list Q) :
  (channelData = [] -> EnergyDetectorFeatures.calculateRMS sqrt channelData = None)
  /\ (channelData <> [] ->
      exists q,
        EnergyDetectorFeatures.calculateRMS sqrt channelData = Some (sqrt q)
        /\ 0 <= q
        /\ (Forall (fun x => -1 <= x /\ x <= 1) channelData -> q <= 1)).
Proof.
  split.
  - intros ->. reflexivity.
  - intro Hne. unfold EnergyDetectorFeatures.calculateRMS.
    assert (Hpos : 0 < inject_Z (Z.of_nat (List.length channelData))).
    { change 0 with (inject_Z 0). rewrite <- Zlt_Qlt.
      destruct channelData; [contradiction | cbn [List.length]; lia]. }
    rewrite JS_div_nonzero by lra.
    eexists. split; [reflexivity|].
    destruct (sum_squares_bounds channelData 0) as [Hlo Hhi]. split.
    + apply Qle_shift_div_l; [exact Hpos | lra].
    + intro Hall. apply Qle_shift_div_r; [exact Hpos|].
      specialize (Hhi Hall). lra.
Qed.

Lemma calculateRMS_mean_square_witness :
  exists q,
    EnergyDetectorFeatures.calculateRMS sqrtApprox [1 # 2; -1 # 2] = Some (sqrtApprox q)
    /\ 0 <= q.
Proof.
  destruct (calculateRMS_mean_square sqrtApprox [1 # 2; -1 # 2]) as [_ H].
  destruct (H ltac:(discriminate)) as (q & Hq & H0 & _).
  exists q. split; assumption.
Defined.
